(** * Clock recovery (PLL) filter of libscopeprotocols: a shallow embedding

    The development follows [scopeprotocols/ClockRecoveryFilter.cpp]:
    the two NCO inner loops ([InnerLoopWithGating], [InnerLoopWithNoGating]),
    the square wave synthesis ([FillSquarewaveGeneric], [FillSquarewaveAVX2])
    and the part of [Refresh] that decides whether the loop runs at all.

    Conventions.
    - [int64_t] values are integers of [Z].  Signed overflow is undefined
      in C++: every [int64_t] sum, difference and negation of the two
      inner loops is checked against the 64-bit range ([int64]), and a
      run stops with [SignedOverflow] where one leaves it.  The one
      product, [2 * m_timescale] in [Refresh], is taken in [Z].
    - [size_t] indices are [nat]; the one subtraction that can wrap
      ([size() - 1] of an empty container) is written out in
      [lt_size_minus_1].
    - [float] and [double] are IEEE 754 binary32 and binary64 values of the
      standard library's [spec_float], with round-to-nearest-even
      arithmetic, so that every definition can be evaluated. *)

From Stdlib Require Import ZArith List Bool Lia Arith PeanoNat.
From Stdlib Require Import Sorting.Permutation Sorting.Sorted.
From Stdlib Require Import Floats.SpecFloat.
Import ListNotations.

Local Open Scope Z_scope.

(* ================================================================== *)
(** * Floating point *)
(* ================================================================== *)

(** Operations that are the same for both formats, over the precision
    [prec] and the exponent bound [emax]. *)
Module IEEE.
Section Format.
Variables prec emax : Z.

(** Conversion of an integer, rounded to nearest even. *)
Definition of_Z (z : Z) : spec_float := binary_normalize prec emax z 0 false.

(** Conversion between formats (exact when widening). *)
Definition of_float (x : spec_float) : spec_float :=
  match x with
  | S754_finite s m e => binary_normalize prec emax (cond_Zopp s (Zpos m)) e s
  | _ => x
  end.

(** Magnitude of a finite value truncated toward zero. *)
Definition trunc_mag (m : positive) (e : Z) : Z :=
  if 0 <=? e then Z.shiftl (Zpos m) e else Z.shiftr (Zpos m) (- e).

(** [(int64_t) x].  A value that does not fit (or a NaN) is undefined in
    C++; the x86-64 conversion instructions return the "integer
    indefinite" value [-2^63], which is what is written here. *)
Definition to_int64 (x : spec_float) : Z :=
  match x with
  | S754_zero _ => 0
  | S754_finite s m e =>
      let t := cond_Zopp s (trunc_mag m e) in
      if (- 2 ^ 63 <=? t) && (t <? 2 ^ 63) then t else - 2 ^ 63
  | _ => - 2 ^ 63
  end.

(** [round(x)]: nearest integer, halfway cases away from zero. *)
Definition round (x : spec_float) : spec_float :=
  match x with
  | S754_finite s m e =>
      if 0 <=? e then x
      else
        let q := Z.shiftr (Zpos m + Z.shiftl 1 (- e - 1)) (- e) in
        binary_normalize prec emax (cond_Zopp s q) 0 s
  | _ => x
  end.

Definition add := SFadd prec emax.
Definition sub := SFsub prec emax.
Definition mul := SFmul prec emax.
Definition div := SFdiv prec emax.
Definition ltb (x y : spec_float) : bool := SFltb x y.
Definition leb (x y : spec_float) : bool := SFleb x y.
Definition eqb (x y : spec_float) : bool := SFeqb x y.
Definition neg (x : spec_float) : spec_float := SFopp x.
End Format.
End IEEE.

(** [float] *)
Definition f32 : Type := spec_float.
(** [double] *)
Definition f64 : Type := spec_float.

Definition f32_of_int64 : Z -> f32 := IEEE.of_Z 24 128.
Definition f64_of_int64 : Z -> f64 := IEEE.of_Z 53 1024.
Definition f32_of_f64 : f64 -> f32 := IEEE.of_float 24 128.
Definition f64_of_f32 : f32 -> f64 := IEEE.of_float 53 1024.
Definition f32_to_int64 : f32 -> Z := IEEE.to_int64.
Definition f64_to_int64 : f64 -> Z := IEEE.to_int64.
Definition f32_round : f32 -> f32 := IEEE.round 24 128.
Definition f64_round : f64 -> f64 := IEEE.round 53 1024.
Definition f32_add : f32 -> f32 -> f32 := IEEE.add 24 128.
Definition f32_sub : f32 -> f32 -> f32 := IEEE.sub 24 128.
Definition f32_mul : f32 -> f32 -> f32 := IEEE.mul 24 128.
Definition f32_div : f32 -> f32 -> f32 := IEEE.div 24 128.
Definition f64_add : f64 -> f64 -> f64 := IEEE.add 53 1024.
Definition f64_sub : f64 -> f64 -> f64 := IEEE.sub 53 1024.
Definition f64_mul : f64 -> f64 -> f64 := IEEE.mul 53 1024.
Definition f64_div : f64 -> f64 -> f64 := IEEE.div 53 1024.
Definition f32_ltb : f32 -> f32 -> bool := IEEE.ltb.
Definition f32_eqb : f32 -> f32 -> bool := IEEE.eqb.
Definition f32_neg : f32 -> f32 := IEEE.neg.
Definition f64_ltb : f64 -> f64 -> bool := IEEE.ltb.
Definition f64_leb : f64 -> f64 -> bool := IEEE.leb.

(** A decimal literal [num/den] of type [double]: the binary64 value
    nearest to it, which is what the correctly rounded quotient of the two
    (exactly representable) integers gives. *)
Definition f64_lit (num den : Z) : f64 := f64_div (f64_of_int64 num) (f64_of_int64 den).

Definition c_1_0 : f64 := f64_of_int64 1.
Definition c_0_1 : f64 := f64_lit 1 10.
Definition c_0_006 : f64 := f64_lit 6 1000.
Definition c_0_002 : f64 := f64_lit 2 1000.
Definition c_0_0025 : f64 := f64_lit 25 10000.
Definition c_0_75 : f64 := f64_lit 75 100.
Definition c_1_25 : f64 := f64_lit 125 100.
Definition f32_zero : f32 := S754_zero false.

(** Proofs about the control flow never look inside the arithmetic. *)
Arguments f32_of_int64 : simpl never.
Arguments f64_of_int64 : simpl never.
Arguments f32_of_f64 : simpl never.
Arguments f64_of_f32 : simpl never.
Arguments f32_to_int64 : simpl never.
Arguments f64_to_int64 : simpl never.
Arguments f32_round : simpl never.
Arguments f64_round : simpl never.
Arguments f32_add : simpl never.
Arguments f32_sub : simpl never.
Arguments f32_mul : simpl never.
Arguments f32_div : simpl never.
Arguments f64_add : simpl never.
Arguments f64_sub : simpl never.
Arguments f64_mul : simpl never.
Arguments f64_div : simpl never.
Arguments f32_ltb : simpl never.
Arguments f32_eqb : simpl never.
Arguments f32_neg : simpl never.
Arguments f64_ltb : simpl never.
Arguments f64_leb : simpl never.

(** C++ integer division truncates toward zero. *)
Definition idiv (a b : Z) : Z := Z.quot a b.

(* ================================================================== *)
(** * Square wave synthesis *)
(* ================================================================== *)

(** The sparse digital output waveform [cap], as far as this file uses
    it: the offsets pushed by the inner loop and the samples filled in
    afterwards. *)
Record SparseDigitalWaveform : Type := {
  m_offsets : list Z;
  m_samples : list bool
}.

(** [cap.m_samples.resize(len)] *)
Definition resize (len : nat) (l : list bool) : list bool :=
  firstn len l ++ repeat false (len - length l).

(** [cap.m_samples[i] = v] *)
Fixpoint store (i : nat) (v : bool) (l : list bool) : list bool :=
  match l, i with
  | [], _ => []
  | _ :: t, O => v :: t
  | h :: t, S j => h :: store j v t
  end.

(** The scalar loop [for(i = from; i < len; i++) { value = !value;
    samples[i] = value; }], with [n] iterations left. *)
Fixpoint fill_toggle (n : nat) (i : nat) (value : bool) (samples : list bool)
  : list bool :=
  match n with
  | O => samples
  | S n' =>
      let value' := negb value in
      fill_toggle n' (S i) value' (store i value' samples)
  end.

Definition FillSquarewaveGeneric (cap : SparseDigitalWaveform) : SparseDigitalWaveform :=
  let len := length (m_offsets cap) in
  let samples := resize len (m_samples cap) in
  {| m_offsets := m_offsets cap;
     m_samples := fill_toggle len 0 false samples |}.

(** The 32-byte fill pattern of the vector path. *)
Definition filler : list bool :=
  [ false; true; false; true; false; true; false; true;
    false; true; false; true; false; true; false; true;
    false; true; false; true; false; true; false; true;
    false; true; false; true; false; true; false; true ].

(** [_mm256_storeu_si256(ptr + i, fill)]: 32 consecutive bytes are
    overwritten.  The caller only stores inside the buffer. *)
Definition store_block (i : nat) (block : list bool) (l : list bool) : list bool :=
  firstn i l ++ block ++ skipn (i + length block) l.

(** [for(i = 0; i < end; i += 32) store(ptr + i, fill)], with [n]
    iterations left. *)
Fixpoint fill_blocks (n : nat) (i : nat) (samples : list bool) : list bool :=
  match n with
  | O => samples
  | S n' => fill_blocks n' (i + 32) (store_block i filler samples)
  end.

Definition FillSquarewaveAVX2 (cap : SparseDigitalWaveform) : SparseDigitalWaveform :=
  let len := length (m_offsets cap) in
  let samples := resize len (m_samples cap) in
  match len with
  | O => {| m_offsets := m_offsets cap; m_samples := samples |}
  | _ =>
      let end_ := (len - len mod 32)%nat in
      let samples1 := fill_blocks (end_ / 32) 0 samples in
      {| m_offsets := m_offsets cap;
         m_samples := fill_toggle (len - end_) end_ false samples1 |}
  end.

(* ================================================================== *)
(* ================================================================== *)
(** * Outcomes and observable events *)
(* ================================================================== *)

(** What can stop a run other than the end of its loop.  An
    out-of-range read, an integer division by zero and a signed
    overflow are undefined behaviour in C++; the model stops there and
    names the cause. *)
Inductive fault : Type :=
| GateIndexOutOfRange (i : nat)   (** gate sample [i] read with [i >= size] *)
| MedianOfNothing                 (** [lengths[0]] of an empty vector *)
| DivideByZero                    (** [sum / navg] with [navg = 0] *)
| SignedOverflow.                 (** an [int64_t] sum or difference outside the 64-bit range *)

Inductive result (A : Type) : Type :=
| Ok (a : A)
| Fault (f : fault)
| OutOfFuel.

Arguments Ok {A} a.
Arguments Fault {A} f.
Arguments OutOfFuel {A}.

Definition bind {A B : Type} (r : result A) (k : A -> result B) : result B :=
  match r with
  | Ok a => k a
  | Fault f => Fault f
  | OutOfFuel => OutOfFuel
  end.

Notation "x <- r ;; k" := (bind r (fun x => k))
  (at level 61, r at next level, right associativity).

(** The values of [int64_t]. *)
Definition in_int64 (z : Z) : bool := (- 2 ^ 63 <=? z) && (z <? 2 ^ 63).

(** The result of an [int64_t] addition or subtraction whose exact value
    is [z]. *)
Definition int64 (z : Z) : result Z :=
  if in_int64 z then Ok z else Fault SignedOverflow.

(** The trace of a run, oldest event first.  It records what the loops
    do to the outside (pushes to [cap.m_offsets], the two log messages)
    and, for every pass through the body of the edge-visiting [while]
    loop, the real edge that was visited, whether the loop was gated
    there and whether the correction block [if(tlast != 0)] ran.  The
    trace is never read back by the loops. *)
Inductive event : Type :=
| EvVisit (tnext : Z) (gated corrected : bool)
| EvNyquist                      (** [LogWarning("PLL attempted to lock ...")] *)
| EvUngated (period edgepos : Z) (** [LogTrace("CDR ungated ...")] and the reset *)
| EvPush (offset : Z).           (** [cap.m_offsets.push_back(offset)] *)

(** [i < n - 1] in [size_t] arithmetic: for [n = 0] the subtraction
    wraps to [2^64 - 1], which every index the loops can reach is below. *)
Definition lt_size_minus_1 (i n : nat) : bool :=
  match n with
  | O => true
  | S m => (i <? m)%nat
  end.

(* ================================================================== *)
(** * The inner loop without a gate *)
(* ================================================================== *)

Record nstate : Type := {
  n_nedge : nat;
  n_edgepos : Z;
  n_tlast : Z;
  n_iperiod : Z;
  n_fperiod : f32;
  n_offsets : list Z;
  n_log : list event
}.

Section NoGating.
Variable edges : list Z.
Variables tend initialPeriod halfPeriod fnyquist : Z.

Definition initialFrequency : f32 :=
  f32_of_f64 (f64_div c_1_0 (f64_of_int64 initialPeriod)).
Definition glitchCutoff : Z := idiv initialPeriod 10.
Definition fHalfPeriod : f32 := f32_of_int64 halfPeriod.

(** Phase error as a float, wrapped once by the float period. *)
Definition wrap_fdphase (dphase : Z) (fperiod : f32) : f32 :=
  let fdphase := f32_of_int64 dphase in
  let fdphase :=
    if f32_ltb fHalfPeriod fdphase then f32_sub fdphase fperiod else fdphase in
  if f32_ltb fdphase (f32_neg fHalfPeriod) then f32_add fdphase fperiod else fdphase.

(** "Find frequency error": the value of [fdperiod] after lines 461-471. *)
Definition fdperiod_nogating (fperiod : f32) (tnext tlast : Z) : f32 :=
  let uiLen := f32_of_int64 (tnext - tlast) in
  if f32_ltb (f32_of_int64 glitchCutoff) uiLen then
    let numUIs := f32_round (f32_mul uiLen initialFrequency) in
    if negb (f32_eqb numUIs f32_zero) then
      f32_sub fperiod (f32_div uiLen numUIs)
    else f32_zero
  else f32_zero.

(** One pass through the body of the [while] loop for the real edge
    [tnext] (lines 448-516).  The flag is true when the pass ends in
    [break], after the Nyquist check has set [nedge = edges.size()];
    otherwise the pass ends with [tlast = tnext] and [++nedge]. *)
Definition visit_nogating (tnext : Z) (st : nstate) : result (nstate * bool) :=
  d <- int64 (n_edgepos st - tnext) ;;
  dphase <- int64 (d - n_iperiod st) ;;
  let fdphase := wrap_fdphase dphase (n_fperiod st) in
  _ <- int64 (tnext - n_tlast st) ;;
  let fdperiod := fdperiod_nogating (n_fperiod st) tnext (n_tlast st) in
  if negb (n_tlast st =? 0) then
    let errorTerm :=
      f32_of_f64 (f64_add (f64_mul (f64_of_f32 fdperiod) c_0_006)
                          (f64_mul (f64_of_f32 fdphase) c_0_002)) in
    let fperiod := f32_sub (n_fperiod st) errorTerm in
    let iperiod := f32_to_int64 fperiod in
    let bangbang := f64_to_int64 (f64_mul (f64_of_f32 fperiod) c_0_0025) in
    edgepos <- int64 (if 0 <? dphase then n_edgepos st - bangbang
                      else n_edgepos st + bangbang) ;;
    if iperiod <? fnyquist then
      Ok ({| n_nedge := length edges;
             n_edgepos := edgepos;
             n_tlast := n_tlast st;
             n_iperiod := iperiod;
             n_fperiod := fperiod;
             n_offsets := n_offsets st;
             n_log := n_log st ++ [EvVisit tnext false true; EvNyquist] |}, true)
    else
      Ok ({| n_nedge := S (n_nedge st);
             n_edgepos := edgepos;
             n_tlast := tnext;
             n_iperiod := iperiod;
             n_fperiod := fperiod;
             n_offsets := n_offsets st;
             n_log := n_log st ++ [EvVisit tnext false true] |}, false)
  else
    Ok ({| n_nedge := S (n_nedge st);
           n_edgepos := n_edgepos st;
           n_tlast := tnext;
           n_iperiod := n_iperiod st;
           n_fperiod := n_fperiod st;
           n_offsets := n_offsets st;
           n_log := n_log st ++ [EvVisit tnext false false] |}, false).

(** The [while((tnext + center < edgepos) && (nedge < edgemax))] loop,
    where [tnext = edges[nedge]] on entry and after every [++nedge].
    Every pass increments [nedge] or leaves the loop, so the number [k]
    of edges not yet consumed bounds the passes; with [k = 0] the loop
    condition is false. *)
Fixpoint edge_loop_nogating (k : nat) (center tnext : Z) (st : nstate)
  : result nstate :=
  match k with
  | O => Ok st
  | S k' =>
      t <- int64 (tnext + center) ;;
      if (t <? n_edgepos st) && lt_size_minus_1 (n_nedge st) (length edges)
      then
        r <- visit_nogating tnext st ;;
        if snd r then Ok (fst r)
        else edge_loop_nogating k' center (nth (n_nedge (fst r)) edges 0) (fst r)
      else Ok st
  end.

(** The body of the [for] loop, including its increment
    [edgepos += iperiod]. *)
Definition body_nogating (st : nstate) : result nstate :=
  let center := idiv (n_iperiod st) 2 in
  let tnext := nth (n_nedge st) edges 0 in
  st1 <- edge_loop_nogating (length edges - n_nedge st) center tnext st ;;
  offset <- int64 (n_edgepos st1 + center) ;;
  edgepos <- int64 (n_edgepos st1 + n_iperiod st1) ;;
  Ok {| n_nedge := n_nedge st1;
        n_edgepos := edgepos;
        n_tlast := n_tlast st1;
        n_iperiod := n_iperiod st1;
        n_fperiod := n_fperiod st1;
        n_offsets := n_offsets st1 ++ [offset];
        n_log := n_log st1 ++ [EvPush offset] |}.

(** [(edgepos < tend) && (nedge < edgemax)] *)
Definition cond_nogating (st : nstate) : bool :=
  (n_edgepos st <? tend) && lt_size_minus_1 (n_nedge st) (length edges).

Fixpoint for_nogating (fuel : nat) (st : nstate) : result nstate :=
  if cond_nogating st then
    match fuel with
    | O => OutOfFuel
    | S fuel' => st' <- body_nogating st ;; for_nogating fuel' st'
    end
  else Ok st.

Definition init_nogating (offsets : list Z) : nstate :=
  {| n_nedge := 1;
     n_edgepos := nth 0 edges 0;
     n_tlast := 0;
     n_iperiod := initialPeriod;
     n_fperiod := f32_of_int64 initialPeriod;
     n_offsets := offsets;
     n_log := [] |}.

(** [InnerLoopWithNoGating(cap, edges, tend, initialPeriod, halfPeriod,
    fnyquist)]: the offsets of [cap] afterwards, and the trace. *)
Definition InnerLoopWithNoGating (fuel : nat) (offsets : list Z)
  : result (list Z * list event) :=
  st <- for_nogating fuel (init_nogating offsets) ;;
  Ok (n_offsets st, n_log st).
End NoGating.

(* ================================================================== *)
(** * The gate waveform *)
(* ================================================================== *)

(** Modelled from the spec: the accessors [GetOffsetScaled],
    [GetDurationScaled] and [GetValue] of the waveform classes are not
    part of this file's sources.  Following the accessor contract of the
    data model ("get time-scaled offset of sample i", "get value of
    sample i"), a gate waveform, sparse or uniform, is the list of its
    samples, each with its scaled offset, its scaled duration and its
    value.  A read past the end is a [fault]. *)
Record gate_sample : Type := {
  gs_offset : Z;
  gs_duration : Z;
  gs_value : bool
}.

Definition gate_waveform : Type := list gate_sample.

Definition gate_read {A : Type} (f : gate_sample -> A) (gate : gate_waveform) (i : nat)
  : result A :=
  match nth_error gate i with
  | Some s => Ok (f s)
  | None => Fault (GateIndexOutOfRange i)
  end.

Definition GetOffsetScaled : gate_waveform -> nat -> result Z := gate_read gs_offset.
Definition GetDurationScaled : gate_waveform -> nat -> result Z := gate_read gs_duration.
Definition GetValue : gate_waveform -> nat -> result bool := gate_read gs_value.

(* ================================================================== *)
(** * The inner loop with a gate *)
(* ================================================================== *)

(** [std::sort] on a vector of integers, as insertion sort. *)
Fixpoint insert_sorted (x : Z) (l : list Z) : list Z :=
  match l with
  | [] => [x]
  | h :: t => if x <=? h then x :: l else h :: insert_sorted x t
  end.

Fixpoint std_sort (l : list Z) : list Z :=
  match l with
  | [] => []
  | h :: t => insert_sorted h (std_sort t)
  end.

(** [(w >= 0.75*median) && (w <= 1.25*median)], evaluated in [double]. *)
Definition near_median (median w : Z) : bool :=
  f64_leb (f64_mul c_0_75 (f64_of_int64 median)) (f64_of_int64 w)
  && f64_leb (f64_of_int64 w) (f64_mul c_1_25 (f64_of_int64 median)).

(** [for(auto w : lengths) if(near) { sum += w; navg ++; }] *)
Fixpoint sum_near (median : Z) (lengths : list Z) (sum navg : Z) : result (Z * Z) :=
  match lengths with
  | [] => Ok (sum, navg)
  | w :: rest =>
      if near_median median w then
        sum' <- int64 (sum + w) ;;
        sum_near median rest sum' (navg + 1)
      else sum_near median rest sum navg
  end.

(** The state of the loop.  The accumulator [total_error] is part of
    it: nothing reads it, but the additions to it are signed. *)
Record gstate : Type := {
  g_igate : nat;
  g_nedge : nat;
  g_edgepos : Z;
  g_period : Z;
  g_initialPeriod : Z;
  g_halfPeriod : Z;
  g_gating : bool;
  g_tlast : Z;
  g_total_error : Z;
  g_offsets : list Z;
  g_log : list event
}.

Definition g_set_igate (i : nat) (st : gstate) : gstate :=
  {| g_igate := i; g_nedge := g_nedge st; g_edgepos := g_edgepos st;
     g_period := g_period st; g_initialPeriod := g_initialPeriod st;
     g_halfPeriod := g_halfPeriod st; g_gating := g_gating st;
     g_tlast := g_tlast st; g_total_error := g_total_error st;
     g_offsets := g_offsets st; g_log := g_log st |}.

Definition g_set_gating (b : bool) (st : gstate) : gstate :=
  {| g_igate := g_igate st; g_nedge := g_nedge st; g_edgepos := g_edgepos st;
     g_period := g_period st; g_initialPeriod := g_initialPeriod st;
     g_halfPeriod := g_halfPeriod st; g_gating := b;
     g_tlast := g_tlast st; g_total_error := g_total_error st;
     g_offsets := g_offsets st; g_log := g_log st |}.

Section Gating.
Variable edges : list Z.
Variables tend fnyquist : Z.
Variable gate : gate_waveform.

(** [for(i = 1; i <= 512; i++) { if(i + nedge >= edges.size()) break;
    lengths.push_back(edges[nedge+i] - edges[nedge+i-1]); }], with [n]
    iterations left. *)
Fixpoint collect_lengths (n : nat) (i nedge : nat) (lengths : list Z)
  : result (list Z) :=
  match n with
  | O => Ok lengths
  | S n' =>
      if (length edges <=? i + nedge)%nat then Ok lengths
      else
        w <- int64 (nth (nedge + i) edges 0 - nth (nedge + i - 1) edges 0) ;;
        collect_lengths n' (S i) nedge (lengths ++ [w])
  end.

(** "If the clock just got ungated, reset the PLL" (lines 280-324). *)
Definition reacquire (st : gstate) : result gstate :=
  collected <- collect_lengths 512 1 (g_nedge st) [] ;;
  let lengths := std_sort collected in
  match nth_error lengths (length lengths / 2) with
  | None => Fault MedianOfNothing
  | Some median =>
      r <- sum_near median lengths 0 0 ;;
      let '(sum, navg) := r in
      if navg =? 0 then Fault DivideByZero
      else
        let avg := idiv sum navg in
        let period := avg in
        let initialPeriod := period in
        let halfPeriod := idiv initialPeriod 2 in
        let tnext := nth (g_nedge st) edges 0 in
        edgepos <- int64 (tnext + period) ;;
        Ok {| g_igate := g_igate st; g_nedge := g_nedge st;
              g_edgepos := edgepos;
              g_period := period;
              g_initialPeriod := initialPeriod;
              g_halfPeriod := halfPeriod;
              g_gating := g_gating st;
              g_tlast := g_tlast st;
              g_total_error := g_total_error st;
              g_offsets := g_offsets st;
              g_log := g_log st ++ [EvUngated period edgepos] |}
  end.

(** The [while(igate < gate->size()-1)] loop.  [k] bounds the number of
    [igate ++] steps still possible. *)
Fixpoint gate_scan (k : nat) (was_gating : bool) (st : gstate) : result gstate :=
  if lt_size_minus_1 (g_igate st) (length gate) then
    a <- GetOffsetScaled gate (g_igate st) ;;
    d <- GetDurationScaled gate (g_igate st) ;;
    b <- int64 (a + d) ;;
    if g_edgepos st <? a then Ok st
    else if b <? g_edgepos st then
      match k with
      | O => OutOfFuel
      | S k' => gate_scan k' was_gating (g_set_igate (S (g_igate st)) st)
      end
    else
      v <- GetValue gate (g_igate st) ;;
      let st' := g_set_gating (negb v) st in
      if negb (g_gating st') && was_gating then reacquire st' else Ok st'
  else Ok st.

(** Phase error wrapped once by the period (lines 344-347). *)
Definition wrap_dphase (dphase halfPeriod period : Z) : Z :=
  let dphase := if halfPeriod <? dphase then dphase - period else dphase in
  if dphase <? - halfPeriod then dphase + period else dphase.

(** "Find frequency error": the value of [dperiod] after lines 352-358. *)
Definition numUIs_gating (uiLen initialPeriod : Z) : f32 :=
  f32_of_f64
    (f64_round (f64_div (f64_mul (f64_of_int64 uiLen) c_1_0)
                        (f64_of_int64 initialPeriod))).

Definition dperiod_gating (period initialPeriod tnext tlast : Z) : Z :=
  let uiLen := tnext - tlast in
  let numUIs := numUIs_gating uiLen initialPeriod in
  let uiLen :=
    if f64_ltb (f64_of_f32 numUIs) c_0_1 then period
    else f32_to_int64 (f32_div (f32_of_int64 uiLen) numUIs) in
  period - uiLen.

(** [x -= y * c] for [int64_t x, y] and a [double] constant [c]. *)
Definition sub_scaled (x y : Z) (c : f64) : Z :=
  f64_to_int64 (f64_sub (f64_of_int64 x) (f64_mul (f64_of_int64 y) c)).

(** The end of a pass that corrects nothing: [tlast = tnext; tnext =
    edges[++nedge]], with [total_error] as the pass leaves it. *)
Definition g_visit (tnext : Z) (total_error : Z) (st : gstate) : gstate :=
  {| g_igate := g_igate st; g_nedge := S (g_nedge st); g_edgepos := g_edgepos st;
     g_period := g_period st; g_initialPeriod := g_initialPeriod st;
     g_halfPeriod := g_halfPeriod st; g_gating := g_gating st;
     g_tlast := tnext; g_total_error := total_error; g_offsets := g_offsets st;
     g_log := g_log st ++ [EvVisit tnext (g_gating st) false] |}.

(** One pass through the body of the [while] loop for the real edge
    [tnext] (lines 338-405); the flag is true when the pass ends in
    [break].  The differences of lines 341, 345, 347, 352 and 358, the
    negation of line 346 and the sum of line 349 are checked in that
    order.  [i64abs], which is defined outside this file, is taken to be
    the absolute value, itself checked. *)
Definition visit_gating (tnext : Z) (st : gstate) : result (gstate * bool) :=
  if negb (g_gating st) then
    d <- int64 (g_edgepos st - tnext) ;;
    dphase0 <- int64 (d - g_period st) ;;
    _ <- int64 (if g_halfPeriod st <? dphase0 then dphase0 - g_period st
                else dphase0) ;;
    _ <- int64 (- g_halfPeriod st) ;;
    dphase <- int64 (wrap_dphase dphase0 (g_halfPeriod st) (g_period st)) ;;
    a <- int64 (Z.abs dphase) ;;
    total_error <- int64 (g_total_error st + a) ;;
    _ <- int64 (tnext - g_tlast st) ;;
    dperiod <-
      int64 (dperiod_gating (g_period st) (g_initialPeriod st) tnext (g_tlast st)) ;;
    if negb (g_tlast st =? 0) then
      let period := sub_scaled (g_period st) dperiod c_0_006 in
      let period := sub_scaled period dphase c_0_002 in
      edgepos <- int64 (if 0 <? dphase then g_edgepos st - idiv period 400
                        else g_edgepos st + idiv period 400) ;;
      if period <? fnyquist then
        Ok ({| g_igate := g_igate st; g_nedge := length edges;
               g_edgepos := edgepos; g_period := period;
               g_initialPeriod := g_initialPeriod st;
               g_halfPeriod := g_halfPeriod st; g_gating := g_gating st;
               g_tlast := g_tlast st; g_total_error := total_error;
               g_offsets := g_offsets st;
               g_log := g_log st ++ [EvVisit tnext false true; EvNyquist] |}, true)
      else
        Ok ({| g_igate := g_igate st; g_nedge := S (g_nedge st);
               g_edgepos := edgepos; g_period := period;
               g_initialPeriod := g_initialPeriod st;
               g_halfPeriod := g_halfPeriod st; g_gating := g_gating st;
               g_tlast := tnext; g_total_error := total_error;
               g_offsets := g_offsets st;
               g_log := g_log st ++ [EvVisit tnext false true] |}, false)
    else Ok (g_visit tnext total_error st, false)
  else Ok (g_visit tnext (g_total_error st) st, false).

(** The [while((tnext + center < edgepos) && (nedge+1 < edges.size()))]
    loop; [k] is as in [edge_loop_nogating].  The comparison is made in
    [float], the type of [center], so that no integer is added. *)
Fixpoint edge_loop_gating (k : nat) (center : f32) (tnext : Z) (st : gstate)
  : result gstate :=
  match k with
  | O => Ok st
  | S k' =>
      if f32_ltb (f32_add (f32_of_int64 tnext) center) (f32_of_int64 (g_edgepos st))
         && (S (g_nedge st) <? length edges)%nat
      then
        r <- visit_gating tnext st ;;
        if snd r then Ok (fst r)
        else edge_loop_gating k' center (nth (g_nedge (fst r)) edges 0) (fst r)
      else Ok st
  end.

(** [if(!gating) cap.m_offsets.push_back(edgepos + period/2)], followed
    by the increment [edgepos += period] of the [for] loop. *)
Definition push_and_advance (st : gstate) : result gstate :=
  pushed <-
    (if g_gating st then Ok (g_offsets st, g_log st)
     else
       offset <- int64 (g_edgepos st + idiv (g_period st) 2) ;;
       Ok (g_offsets st ++ [offset], g_log st ++ [EvPush offset])) ;;
  edgepos <- int64 (g_edgepos st + g_period st) ;;
  Ok {| g_igate := g_igate st; g_nedge := g_nedge st;
        g_edgepos := edgepos;
        g_period := g_period st; g_initialPeriod := g_initialPeriod st;
        g_halfPeriod := g_halfPeriod st; g_gating := g_gating st;
        g_tlast := g_tlast st;
        g_total_error := g_total_error st;
        g_offsets := fst pushed;
        g_log := snd pushed |}.

(** The body of the [for] loop, including its increment. *)
Definition body_gating (st : gstate) : result gstate :=
  let center := f32_of_int64 (idiv (g_period st) 2) in
  let was_gating := g_gating st in
  st1 <- gate_scan (length gate - g_igate st) was_gating st ;;
  let tnext := nth (g_nedge st1) edges 0 in
  st2 <- edge_loop_gating (length edges - g_nedge st1) center tnext st1 ;;
  push_and_advance st2.

(** [(edgepos < tend) && (nedge < edges.size()-1)] *)
Definition cond_gating (st : gstate) : bool :=
  (g_edgepos st <? tend) && lt_size_minus_1 (g_nedge st) (length edges).

Fixpoint for_gating (fuel : nat) (st : gstate) : result gstate :=
  if cond_gating st then
    match fuel with
    | O => OutOfFuel
    | S fuel' => st' <- body_gating st ;; for_gating fuel' st'
    end
  else Ok st.

(** "If gated at T=0, start with output stopped" *)
Definition initial_gating : result bool :=
  match gate with
  | [] => Ok false
  | _ => v <- GetValue gate 0 ;; Ok (negb v)
  end.

Definition init_gating (initialPeriod halfPeriod : Z) (gating : bool)
  (offsets : list Z) : gstate :=
  {| g_igate := 0; g_nedge := 1; g_edgepos := nth 0 edges 0;
     g_period := initialPeriod; g_initialPeriod := initialPeriod;
     g_halfPeriod := halfPeriod; g_gating := gating; g_tlast := 0;
     g_total_error := 0; g_offsets := offsets; g_log := [] |}.

(** [InnerLoopWithGating(cap, edges, tend, initialPeriod, halfPeriod,
    fnyquist, gate, sgate, ugate)] for a gate that is present: the
    offsets of [cap] afterwards, and the trace.  The closing
    [total_error /= edges.size()] is an unsigned division by a size that
    is not 0 ([edges[0]] has been read); its result is not used. *)
Definition InnerLoopWithGating (fuel : nat) (initialPeriod halfPeriod : Z)
  (offsets : list Z) : result (list Z * list event) :=
  gating <- initial_gating ;;
  st <- for_gating fuel (init_gating initialPeriod halfPeriod gating offsets) ;;
  Ok (g_offsets st, g_log st).
End Gating.

(* ================================================================== *)
(** * Refresh *)
(* ================================================================== *)

(** Modelled from the spec: [FindZeroCrossings], [VerifyInputOK] and the
    waveform classes are not part of this file's sources.  The data input
    is represented by what [Refresh] takes from it: its timescale, the
    ordered crossing timestamps the edge extractor returns for it (empty
    for a flat signal or an unsupported waveform type) and the scaled
    time [tend] of its last sample. *)
Record input_waveform : Type := {
  in_timescale : Z;
  in_edges : list Z;
  in_tend : Z
}.

(** [SetData(nullptr, 0)] or [SetData(cap, 0)]. *)
Inductive output : Type :=
| NoData
| Data (cap : SparseDigitalWaveform).

(** Modelled from the spec: the constant [FS_PER_SECOND] ("1 second" in
    femtoseconds) is declared outside this file's sources. *)
Definition FS_PER_SECOND : f64 := f64_of_int64 (10 ^ 15).

(** [round(FS_PER_SECOND / baud)] converted to [int64_t]. *)
Definition nominal_period (baud : f64) : Z :=
  f64_to_int64 (f64_round (f64_div FS_PER_SECOND baud)).

(** [Refresh]: [inputOK] is the value of [VerifyInputOK(0)], [gate] the
    optional gate input, [baud] the "Symbol rate" parameter and
    [hasAvx2] the flag [g_hasAvx2].  The result is the data set on
    stream 0 and the trace of the inner loop. *)
Definition Refresh (fuel : nat) (inputOK : bool) (din : input_waveform)
  (gate : option gate_waveform) (baud : f64) (hasAvx2 : bool)
  : result (output * list event) :=
  if negb inputOK then Ok (NoData, [])
  else
    let edges := in_edges din in
    match edges with
    | [] => Ok (NoData, [])
    | _ :: _ =>
        let initialPeriod := nominal_period baud in
        let halfPeriod := idiv initialPeriod 2 in
        let fnyquist := 2 * in_timescale din in
        if initialPeriod <? fnyquist then Ok (NoData, [])
        else
          let tend := in_tend din in
          r <- match gate with
               | Some g =>
                   InnerLoopWithGating edges tend fnyquist g fuel
                     initialPeriod halfPeriod []
               | None =>
                   InnerLoopWithNoGating edges tend initialPeriod halfPeriod
                     fnyquist fuel []
               end ;;
          let cap := {| m_offsets := fst r; m_samples := [] |} in
          let cap :=
            if hasAvx2 then FillSquarewaveAVX2 cap else FillSquarewaveGeneric cap in
          Ok (Data cap, snd r)
    end.

(* ================================================================== *)
(** * Vocabulary of the statements *)
(* ================================================================== *)

(** [n] alternating values starting with [v]. *)
Fixpoint squarewave (n : nat) (v : bool) : list bool :=
  match n with
  | O => []
  | S n' => v :: squarewave n' (negb v)
  end.

Definition is_visit (e : event) : bool :=
  match e with EvVisit _ _ _ => true | _ => false end.

Definition is_nyquist (e : event) : bool :=
  match e with EvNyquist => true | _ => false end.

Definition has_visit (l : list event) : bool := existsb is_visit l.

Definition has_nyquist (l : list event) : bool := existsb is_nyquist l.

(** The offsets pushed in a trace, oldest first. *)
Fixpoint pushes_of (l : list event) : list Z :=
  match l with
  | [] => []
  | EvPush x :: r => x :: pushes_of r
  | _ :: r => pushes_of r
  end.

(** A trace is well formed when the Nyquist warning, if any, comes right
    after a corrected visit and is followed by exactly one push and
    nothing else. *)
Definition trace_ok (l : list event) : Prop :=
  has_nyquist l = false \/
  exists pre t x,
    has_nyquist pre = false /\ l = pre ++ [EvVisit t false true; EvNyquist; EvPush x].

(** Events that neither push an offset nor report a Nyquist violation. *)
Definition silent (l : list event) : Prop :=
  has_nyquist l = false /\ pushes_of l = [].

Definition is_correction (e : event) : bool :=
  match e with EvVisit _ _ true => true | _ => false end.

(** Some visit of the trace ran the correction block. *)
Definition has_correction (l : list event) : bool := existsb is_correction l.

(** The events of one outer iteration before its push: either no Nyquist
    warning, and every correction left the period at or above the
    floor; or a last corrected visit that left the period below the
    floor, followed by the warning. *)
Definition iteration_events (fnyquist period : Z) (evs : list event) : Prop :=
  pushes_of evs = [] /\
  (has_nyquist evs = false /\ (has_correction evs = true -> fnyquist <= period) \/
   period < fnyquist /\
   exists pre t, has_nyquist pre = false /\ evs = pre ++ [EvVisit t false true; EvNyquist]).

(** The value of [tlast] after the events [l], starting from [tlast]:
    the timestamp of the real edge visited last. *)
Fixpoint last_visited (tlast : Z) (l : list event) : Z :=
  match l with
  | [] => tlast
  | EvVisit t _ _ :: r => last_visited t r
  | _ :: r => last_visited tlast r
  end.

(** [corrections_ok tlast l]: every visit of [l] is corrected exactly
    when the loop is not gated there and [tlast], the timestamp of the
    visit before it, is not 0 ([tlast] is the one before [l]). *)
Fixpoint corrections_ok (tlast : Z) (l : list event) : bool :=
  match l with
  | [] => true
  | EvVisit t g c :: r =>
      Bool.eqb c (negb g && negb (tlast =? 0)) && corrections_ok t r
  | _ :: r => corrections_ok tlast r
  end.

(** [tlast] is the timestamp of the edge visited last, and the visits so
    far were corrected as [corrections_ok] says. *)
Definition tlast_tracks (tlast : Z) (log : list event) : Prop :=
  corrections_ok 0 log = true /\ tlast = last_visited 0 log.

(** The claims of the specification about the trace, as they are
    worded there. *)
Definition no_push_after_nyquist (log : list event) : Prop :=
  forall pre post, log = pre ++ EvNyquist :: post -> pushes_of post = [].

Definition all_but_first_corrected (log : list event) : Prop :=
  forall pre t gated corrected post,
    log = pre ++ EvVisit t gated corrected :: post -> corrected = has_visit pre.

(** The only undefined step a run can have taken is a signed overflow. *)
Definition only_overflow {A : Type} (r : result A) : Prop :=
  forall f, r = Fault f -> f = SignedOverflow.

(** Strictly increasing timestamps, as a test. *)
Fixpoint increasingb (l : list Z) : bool :=
  match l with
  | a :: (b :: _) as t => (a <? b) && increasingb t
  | _ => true
  end.

(** The offsets of the waveform a run of [Refresh] sets, if any. *)
Definition offsets_of (r : result (output * list event)) : option (list Z) :=
  match r with
  | Ok (Data cap, _) => Some (m_offsets cap)
  | _ => None
  end.

(** An upper bound on the number of PLL resets still possible: the
    gate samples ahead that are true while the loop is, or may have
    become, gated. *)
Fixpoint potential (gating : bool) (vals : list bool) : nat :=
  match vals with
  | [] => 0
  | v :: rest =>
      ((if v && gating then 1 else 0) + potential (gating || negb v) rest)%nat
  end.

Definition reset_potential (gate : gate_waveform) (st : gstate) : nat :=
  potential (g_gating st) (map gs_value (skipn (g_igate st) gate)).

Section Shapes.
Variable edges : list Z.
Variable fnyquist : Z.
Variable gate : gate_waveform.

(** The three ways a pass through the body of the edge loop of
  [InnerLoopWithNoGating] can end. *)
Inductive visit_nogating_shape (tnext : Z) (st : nstate) : nstate * bool -> Prop :=
| VN_first :
  n_tlast st = 0 ->
  visit_nogating_shape tnext st
    ({| n_nedge := S (n_nedge st); n_edgepos := n_edgepos st;
        n_tlast := tnext; n_iperiod := n_iperiod st;
        n_fperiod := n_fperiod st; n_offsets := n_offsets st;
        n_log := n_log st ++ [EvVisit tnext false false] |}, false)
| VN_corrected edgepos iperiod fperiod :
  n_tlast st <> 0 -> fnyquist <= iperiod ->
  visit_nogating_shape tnext st
    ({| n_nedge := S (n_nedge st); n_edgepos := edgepos;
        n_tlast := tnext; n_iperiod := iperiod;
        n_fperiod := fperiod; n_offsets := n_offsets st;
        n_log := n_log st ++ [EvVisit tnext false true] |}, false)
| VN_nyquist edgepos iperiod fperiod :
  n_tlast st <> 0 -> iperiod < fnyquist ->
  visit_nogating_shape tnext st
    ({| n_nedge := length edges; n_edgepos := edgepos;
        n_tlast := n_tlast st; n_iperiod := iperiod;
        n_fperiod := fperiod; n_offsets := n_offsets st;
        n_log := n_log st ++ [EvVisit tnext false true; EvNyquist] |}, true).

(** The same for [InnerLoopWithGating]. *)
Inductive visit_gating_shape (tnext : Z) (st : gstate) : gstate * bool -> Prop :=
| VG_skipped total_error :
  g_gating st = true \/ g_tlast st = 0 ->
  visit_gating_shape tnext st (g_visit tnext total_error st, false)
| VG_corrected edgepos period total_error :
  g_gating st = false -> g_tlast st <> 0 -> fnyquist <= period ->
  visit_gating_shape tnext st
    ({| g_igate := g_igate st; g_nedge := S (g_nedge st);
        g_edgepos := edgepos; g_period := period;
        g_initialPeriod := g_initialPeriod st;
        g_halfPeriod := g_halfPeriod st; g_gating := false;
        g_tlast := tnext; g_total_error := total_error;
        g_offsets := g_offsets st;
        g_log := g_log st ++ [EvVisit tnext false true] |}, false)
| VG_nyquist edgepos period total_error :
  g_gating st = false -> g_tlast st <> 0 -> period < fnyquist ->
  visit_gating_shape tnext st
    ({| g_igate := g_igate st; g_nedge := length edges;
        g_edgepos := edgepos; g_period := period;
        g_initialPeriod := g_initialPeriod st;
        g_halfPeriod := g_halfPeriod st; g_gating := false;
        g_tlast := g_tlast st; g_total_error := total_error;
        g_offsets := g_offsets st;
        g_log := g_log st ++ [EvVisit tnext false true; EvNyquist] |}, true).

(** The ways the gate scan can end: without an aligned sample, on an
  aligned sample without a reset, or with a reset of the PLL. *)
Inductive gate_scan_shape (was_gating : bool) (st : gstate) : gstate -> Prop :=
| GS_none j :
  (g_igate st <= j)%nat ->
  gate_scan_shape was_gating st (g_set_igate j st)
| GS_aligned j s :
  (g_igate st <= j)%nat -> nth_error gate j = Some s ->
  negb (negb (gs_value s)) && was_gating = false ->
  gate_scan_shape was_gating st (g_set_gating (negb (gs_value s)) (g_set_igate j st))
| GS_ungated j s st' :
  (g_igate st <= j)%nat -> nth_error gate j = Some s ->
  gs_value s = true -> was_gating = true ->
  reacquire edges (g_set_gating false (g_set_igate j st)) = Ok st' ->
  gate_scan_shape was_gating st st'.
End Shapes.

Section Reach.
Variable edges : list Z.
Variables tend initialPeriod halfPeriod fnyquist : Z.
Variable gate : gate_waveform.

(** States at the head of the [for] loop of [InnerLoopWithNoGating]. *)
Inductive reach_nogating : nstate -> Prop :=
| RN_init offsets :
  reach_nogating (init_nogating edges initialPeriod offsets)
| RN_step st st' :
  reach_nogating st -> cond_nogating edges tend st = true ->
  body_nogating edges initialPeriod halfPeriod fnyquist st = Ok st' ->
  reach_nogating st'.

(** States at the head of the [for] loop of [InnerLoopWithGating]. *)
Inductive reach_gating : gstate -> Prop :=
| RG_init gating offsets :
  initial_gating gate = Ok gating ->
  reach_gating (init_gating edges initialPeriod halfPeriod gating offsets)
| RG_step st st' :
  reach_gating st -> cond_gating edges tend st = true ->
  body_gating edges fnyquist gate st = Ok st' ->
  reach_gating st'.
End Reach.

(* ================================================================== *)
(** * The reacquisition procedure in the words of the specification *)
(* ================================================================== *)

(** Real-edge-to-edge intervals of a run of edges. *)
Fixpoint intervals (l : list Z) : list Z :=
  match l with
  | a :: (b :: _) as t => (b - a) :: intervals t
  | _ => []
  end.

(** The median of a sorted list (the upper one of the two middle
    elements when their number is even). *)
Definition median_of_sorted (sorted : list Z) : option Z :=
  nth_error sorted (length sorted / 2).

(** "Within plus or minus 25% of the median":
    [0.75 * median <= w <= 1.25 * median], in exact arithmetic. *)
Definition within_25_percent (median w : Z) : bool :=
  (3 * median <=? 4 * w) && (4 * w <=? 5 * median).

(** "Collect up to 512 subsequent real-edge-to-edge intervals; sort
    them; take the median; average every interval within 25% of the
    median": [avg] is that average (rounded toward zero) for the
    intervals that follow edge [nedge].  Sorting is specified, not
    computed: [sorted] is the ordered rearrangement of the intervals. *)
Definition spec_reacquired_period (edges : list Z) (nedge : nat) (avg : Z) : Prop :=
  exists sorted median,
    Permutation (firstn 512 (intervals (skipn nedge edges))) sorted /\
    Sorted Z.le sorted /\
    median_of_sorted sorted = Some median /\
    let near := filter (within_25_percent median) sorted in
    near <> [] /\
    avg = idiv (fold_right Z.add 0 near) (Z.of_nat (length near)).

(** "The next real edge": the first edge at or after a position. *)
Definition next_real_edge (edges : list Z) (pos : Z) : option Z :=
  find (fun e => pos <=? e) edges.

(* ================================================================== *)
(** * Example inputs *)
(* ================================================================== *)

Module Examples.
(** A run without a gate that ends in the Nyquist check: the input
  timescale is 500 fs, the nominal period 1000 fs, and the third edge
  comes 900 fs after the second. *)
Definition nyquist_edges : list Z := [0; 1000; 1900; 2800; 10000; 20000].

(** A gate that is low over the whole capture. *)
Definition squelched_edges : list Z := [0; 1000; 2000; 3000; 4000; 5000].

Definition squelched_gate : gate_waveform :=
[ {| gs_offset := 0; gs_duration := 100000; gs_value := false |};
  {| gs_offset := 100001; gs_duration := 1000; gs_value := false |} ].

(** A gate that opens before the first edge of a signal toggling at
  every input sample (timescale 500 fs, nominal period 1000 fs). *)
Definition fast_edges : list Z := [1000; 1500; 2000; 2500; 3000; 3500].

Definition opening_gate : gate_waveform :=
[ {| gs_offset := 0; gs_duration := 500; gs_value := false |};
  {| gs_offset := 500; gs_duration := 100000; gs_value := true |};
  {| gs_offset := 100500; gs_duration := 500; gs_value := true |} ].

(** The state of that run right after the gate scan of its first
  iteration. *)
Definition ungated_state : gstate :=
{| g_igate := 1; g_nedge := 1; g_edgepos := 2000; g_period := 500;
   g_initialPeriod := 500; g_halfPeriod := 250; g_gating := false;
   g_tlast := 0; g_total_error := 0; g_offsets := []; g_log := [EvUngated 500 2000] |}.

(** A capture that starts 2^40 fs (about 1.1 ms) after the time origin,
  with a gate that closes and opens again. *)
Definition T0 : Z := 2 ^ 40.

Definition late_input : input_waveform :=
{| in_timescale := 1;
   in_edges := [T0; T0 + 1; T0 + 19001];
   in_tend := T0 + 130000 |}.

Definition late_gate : gate_waveform :=
[ {| gs_offset := 0; gs_duration := T0 + 30000; gs_value := true |};
  {| gs_offset := T0 + 30001; gs_duration := 60000; gs_value := false |};
  {| gs_offset := T0 + 90002; gs_duration := 60000; gs_value := true |};
  {| gs_offset := T0 + 150003; gs_duration := 60000; gs_value := true |} ].

(** 1e15 / 60000 Hz: a nominal period of 60000 fs. *)
Definition late_baud : f64 := f64_lit (10 ^ 15) 60000.

(** Three edges, for a gate waveform without samples. *)
Definition three_edges : list Z := [0; 1000; 2000].

(** The state of the run over [nyquist_edges] at the head of its fourth
  outer iteration, and the state that iteration leaves. *)
Definition nyquist_state : nstate :=
{| n_nedge := 2; n_edgepos := 3000; n_tlast := 1000; n_iperiod := 1000;
   n_fperiod := f32_of_int64 1000; n_offsets := [500; 1500; 2500];
   n_log := [EvPush 500; EvPush 1500; EvVisit 1000 false false; EvPush 2500] |}.

Definition nyquist_final : nstate :=
{| n_nedge := 6; n_edgepos := 3997; n_tlast := 1000; n_iperiod := 999;
   n_fperiod := S754_finite false 16370893 (-14);
   n_offsets := [500; 1500; 2500; 3498];
   n_log := [EvPush 500; EvPush 1500; EvVisit 1000 false false; EvPush 2500;
             EvVisit 1900 false true; EvNyquist; EvPush 3498] |}.

(** A capture whose second edge is at the time origin (timescale 1 fs,
  nominal period 1000 fs). *)
Definition zero_edges : list Z := [-1000; 0; 1000; 2000; 3000].

(** Edges every 500 fs, except for one pulse of 2000 fs and one of
  480 fs. *)
Definition jitter_edges : list Z := [1000; 1500; 2000; 2500; 4500; 5000; 5480].

(** The state right after the gate scan of the first iteration over
  [jitter_edges] with [opening_gate]. *)
Definition jitter_state : gstate :=
{| g_igate := 1; g_nedge := 1; g_edgepos := 1995; g_period := 495;
   g_initialPeriod := 495; g_halfPeriod := 247; g_gating := false;
   g_tlast := 0; g_total_error := 0; g_offsets := []; g_log := [EvUngated 495 1995] |}.

(** Edges every 500 fs under a gate that is low for the first 2000 fs. *)
Definition dense_edges : list Z :=
[0; 500; 1000; 1500; 2000; 2500; 3000; 3500; 4000; 4500; 5000].

Definition dense_gate : gate_waveform :=
[ {| gs_offset := 0; gs_duration := 2000; gs_value := false |};
  {| gs_offset := 2001; gs_duration := 100000; gs_value := true |};
  {| gs_offset := 102002; gs_duration := 1000; gs_value := true |} ].

(** The state of that run at the head of its fourth iteration, when
  the gate has just opened, and the state the gate scan leaves. *)
Definition dense_state : gstate :=
{| g_igate := 0; g_nedge := 3; g_edgepos := 3000; g_period := 1000;
   g_initialPeriod := 1000; g_halfPeriod := 500; g_gating := true;
   g_tlast := 1000; g_total_error := 0; g_offsets := [];
   g_log := [EvVisit 500 true false; EvVisit 1000 true false] |}.

Definition dense_reset : gstate :=
{| g_igate := 1; g_nedge := 3; g_edgepos := 2000; g_period := 500;
   g_initialPeriod := 500; g_halfPeriod := 250; g_gating := false;
   g_tlast := 1000; g_total_error := 0; g_offsets := [];
   g_log := [EvVisit 500 true false; EvVisit 1000 true false; EvUngated 500 2000] |}.

(** Three edges less than 1500 fs before the end of the 64-bit range. *)
Definition edges_near_max : list Z := [2 ^ 63 - 1501; 2 ^ 63 - 401; 2 ^ 63 - 101].
End Examples.

Import Examples.


(* ================================================================== *)
(** * Vocabulary for the floating-point arithmetic *)
(* ================================================================== *)

(** Number of binary digits of a mantissa. *)
Definition digits (m : positive) : Z := Zpos (digits2_pos m).

(** No nonzero bit has been shifted out. *)
Definition exact_record (mrs : shr_record) : Prop :=
  shr_r mrs = false /\ shr_s mrs = false.

(** [b] is [a] shifted right by [n]. *)
Definition shr_rel (n : Z) (a b : shr_record) : Prop :=
  shr_m b = shr_m a / 2 ^ n /\ 0 <= shr_m b /\
  (exact_record a -> shr_m a mod 2 ^ n = 0 -> exact_record b).

(** The next integer at or above a truncated value. *)
Definition upper (m : Z) (l : location) : Z :=
  match l with loc_Exact => m | _ => m + 1 end.

(** The number of bits that rounding [z * 2^e] to the format drops. *)
Definition round_shift (prec emax z e : Z) : Z :=
  Z.max (fexp prec emax (Zdigits2 z + e) - e) 0.

(** The float made of a rounded mantissa and its exponent. *)
Definition BRA_result (prec emax : Z) (s : bool) (m4 e2 : Z) : spec_float :=
  match m4 with
  | Z0 => S754_zero s
  | Zpos p => if e2 <=? emax - prec then S754_finite s p e2 else S754_infinity s
  | Zneg _ => S754_nan
  end.

(** Bounds of the magnitude of a float by a power of two. *)
Definition le_pow2 (x : spec_float) (k : Z) : Prop :=
  match x with
  | S754_zero _ => True
  | S754_finite _ m e => Zpos m <= 2 ^ (k - e)
  | _ => False
  end.

Definition ge_pow2 (x : spec_float) (k : Z) : Prop :=
  match x with
  | S754_finite _ m e => 2 ^ (k - e) <= Zpos m
  | S754_infinity _ => True
  | _ => False
  end.

(** Not negative (a NaN has no sign). *)
Definition nonneg (x : spec_float) : Prop :=
  match x with
  | S754_zero s | S754_infinity s | S754_finite s _ _ => s = false
  | S754_nan => True
  end.

(** Negative, zero included. *)
Definition negative (x : spec_float) : Prop :=
  match x with
  | S754_zero s | S754_infinity s | S754_finite s _ _ => s = true
  | S754_nan => False
  end.

Definition mant_bounded (prec : Z) (x : spec_float) : Prop :=
  match x with
  | S754_finite _ m _ => Zpos m < 2 ^ prec
  | _ => True
  end.

Definition mant_normal (prec : Z) (x : spec_float) : Prop :=
  match x with
  | S754_finite _ m _ => 2 ^ (prec - 1) <= Zpos m < 2 ^ prec
  | _ => True
  end.

(** If finite, at least one in magnitude. *)
Definition whole (prec : Z) (x : spec_float) : Prop :=
  match x with
  | S754_finite s m e => 2 ^ (0 - e) <= Zpos m < 2 ^ prec
  | _ => True
  end.

(** [x] is the normalized float of precision [prec] whose value is
    [z * 2^e0]. *)
Definition canonical (prec : Z) (x : spec_float) (z e0 : Z) : Prop :=
  exists m e, x = S754_finite false m e /\
              2 ^ (prec - 1) <= Zpos m < 2 ^ prec /\
              e <= e0 /\ Zpos m = z * 2 ^ (e0 - e).

Definition is_zero (x : spec_float) : bool :=
  match x with S754_zero _ => true | _ => false end.

(** The multiple [round(uiLen * 1.0 / initialPeriod)] of the gated loop,
    before it is stored in the [float numUIs]. *)
Definition multiple_f64 (initialPeriod uiLen : Z) : f64 :=
  f64_round (f64_div (f64_mul (f64_of_int64 uiLen) c_1_0) (f64_of_int64 initialPeriod)).

(** The multiple [round(uiLen * initialFrequency)] of the non-gated loop. *)
Definition multiple_f32 (initialPeriod uiLen : Z) : f32 :=
  f32_round (f32_mul (f32_of_int64 uiLen) (initialFrequency initialPeriod)).

(* ================================================================== *)
(** * Channel validation *)
(* ================================================================== *)

(** Modelled from the spec: [StreamDescriptor] and [Stream::StreamType]
    are declared outside this file's sources.  A stream is what
    [ValidateChannel] looks at: whether it has a channel
    ([m_channel != NULL]) and the value kind [GetType()] reports, where
    every kind other than the two named in the source is
    [STREAM_TYPE_OTHER]. *)
Inductive StreamType : Type :=
| STREAM_TYPE_ANALOG
| STREAM_TYPE_DIGITAL
| STREAM_TYPE_OTHER.

Record StreamDescriptor : Type := {
  m_channel : bool;        (** [m_channel != NULL] *)
  GetType : StreamType
}.

Definition is_analog (t : StreamType) : bool :=
  match t with STREAM_TYPE_ANALOG => true | _ => false end.

Definition is_digital (t : StreamType) : bool :=
  match t with STREAM_TYPE_DIGITAL => true | _ => false end.

(** [ClockRecoveryFilter::ValidateChannel(i, stream)] *)
Definition ValidateChannel (i : nat) (stream : StreamDescriptor) : bool :=
  match i with
  | 0%nat =>
      if negb (m_channel stream) then false
      else is_analog (GetType stream) || is_digital (GetType stream)
  | 1%nat =>
      if negb (m_channel stream) then true
      else is_digital (GetType stream)
  | _ => false
  end.

(* ================================================================== *)
(** * Vocabulary of the further properties *)
(* ================================================================== *)

(** The output of an oscillator that runs open loop: [n] clock edges,
    the first half a period after [edgepos], one period apart. *)
Fixpoint free_running (n : nat) (edgepos period : Z) : list Z :=
  match n with
  | O => []
  | S k => edgepos + idiv period 2 :: free_running k (edgepos + period) period
  end.

(** The number of periods it takes from [edgepos] to reach [tend]. *)
Definition periods_until (tend edgepos period : Z) : nat :=
  Z.to_nat ((tend - edgepos + period - 1) / period).

(** The state of the loop without a gate as long as no edge has been
    visited: the period is the nominal one and [tlast] is still 0. *)
Definition open_state (initialPeriod edgepos : Z) (offsets : list Z)
  (log : list event) : nstate :=
  {| n_nedge := 1; n_edgepos := edgepos; n_tlast := 0; n_iperiod := initialPeriod;
     n_fperiod := f32_of_int64 initialPeriod; n_offsets := offsets; n_log := log |}.

(** The real edges visited in a trace, oldest first. *)
Fixpoint visited_of (l : list event) : list Z :=
  match l with
  | [] => []
  | EvVisit t _ _ :: r => t :: visited_of r
  | _ :: r => visited_of r
  end.

(** The number of resets of the PLL in a trace. *)
Fixpoint resets_of (l : list event) : nat :=
  match l with
  | [] => 0
  | EvUngated _ _ :: r => S (resets_of r)
  | _ :: r => resets_of r
  end.

(** The block boundary [end = len - (len % 32)] of the vector fill. *)
Definition block_end (len : nat) : nat := (len - len mod 32)%nat.

(* ================================================================== *)
(** * Properties *)
(* ================================================================== *)

Lemma length_store i v l : length (store i v l) = length l.
Proof.
  revert i; induction l as [|h t IH]; intros [|i]; simpl; auto.
Qed.

Lemma length_resize len l : length (resize len l) = len.
Proof.
  unfold resize. rewrite length_app, length_firstn, repeat_length. lia.
Qed.

Lemma store_split i v l :
  (i < length l)%nat ->
  store i v l = firstn i l ++ v :: skipn (S i) l.
Proof.
  revert i; induction l as [|h t IH]; intros [|i] H; simpl in *; try lia; auto.
  f_equal. apply IH. lia.
Qed.

Lemma fill_toggle_spec n : forall i v l,
  (i + n <= length l)%nat ->
  fill_toggle n i v l = firstn i l ++ squarewave n (negb v) ++ skipn (i + n) l.
Proof.
  induction n as [|n IH]; intros i v l H; cbn [fill_toggle squarewave].
  - rewrite Nat.add_0_r. symmetry. apply firstn_skipn.
  - rewrite IH by (rewrite length_store; lia).
    rewrite store_split by lia.
    rewrite firstn_app, firstn_firstn, length_firstn.
    replace (Nat.min (S i) i) with i by lia.
    replace (S i - Nat.min i (length l))%nat with 1%nat by lia.
    cbn [firstn]. rewrite <- app_assoc. cbn [app].
    do 3 f_equal.
    rewrite skipn_app, length_firstn.
    replace (S i + n - Nat.min i (length l))%nat with (S n) by lia.
    rewrite (skipn_all2 (n := (S i + n)%nat)) by (rewrite length_firstn; lia).
    rewrite app_nil_l. change (skipn (S n) (negb v :: skipn (S i) l)) with (skipn n (skipn (S i) l)).
    rewrite skipn_skipn. f_equal. lia.
Qed.

Lemma FillSquarewaveGeneric_samples cap :
  m_samples (FillSquarewaveGeneric cap) = squarewave (length (m_offsets cap)) true.
Proof.
  unfold FillSquarewaveGeneric; simpl.
  rewrite fill_toggle_spec by (rewrite length_resize; lia).
  simpl. rewrite skipn_all2 by (rewrite length_resize; lia).
  apply app_nil_r.
Qed.

Lemma fill_blocks_spec n : forall i l,
  (i + 32 * n <= length l)%nat ->
  fill_blocks n i l = firstn i l ++ concat (repeat filler n) ++ skipn (i + 32 * n) l.
Proof.
  induction n as [|n IH]; intros i l H.
  - simpl. rewrite Nat.add_0_r. symmetry. apply firstn_skipn.
  - cbn [fill_blocks]. rewrite IH.
    2:{ unfold store_block. rewrite !length_app, length_firstn, length_skipn.
        change (length filler) with 32%nat. lia. }
    unfold store_block. change (length filler) with 32%nat.
    rewrite firstn_app, length_firstn.
    replace (i + 32 - Nat.min i (length l))%nat with 32%nat by lia.
    rewrite (firstn_all2 (n := (i + 32)%nat)) by (rewrite length_firstn; lia).
    rewrite firstn_app. change (length filler) with 32%nat.
    rewrite Nat.sub_diag. rewrite firstn_O, app_nil_r.
    rewrite (firstn_all2 (n := 32%nat)) by (simpl; lia).
    cbn [repeat concat].
    rewrite <- !app_assoc. do 3 f_equal.
    rewrite skipn_app, length_firstn.
    rewrite (skipn_all2 (n := (i + 32 + 32 * n)%nat)) by (rewrite length_firstn; lia).
    replace (i + 32 + 32 * n - Nat.min i (length l))%nat with (32 + 32 * n)%nat by lia.
    rewrite skipn_app. change (length filler) with 32%nat.
    rewrite (skipn_all2 (n := (32 + 32 * n)%nat)) by (simpl; lia).
    replace (32 + 32 * n - 32)%nat with (32 * n)%nat by lia.
    simpl app. rewrite skipn_skipn. f_equal. lia.
Qed.

Lemma FillSquarewaveAVX2_samples cap :
  let len := length (m_offsets cap) in
  m_samples (FillSquarewaveAVX2 cap) =
  concat (repeat filler (len / 32)) ++ squarewave (len mod 32) true.
Proof.
  intros len. unfold FillSquarewaveAVX2. fold len.
  destruct len as [|len'] eqn:E.
  - reflexivity.
  - rewrite <- E. clear E len'.
    cbn [m_samples].
    pose proof (Nat.div_mod_eq len 32) as D.
    assert (Hm : (len mod 32 < 32)%nat) by (apply Nat.mod_upper_bound; lia).
    replace ((len - len mod 32) / 32)%nat with (len / 32)%nat.
    2:{ replace (len - len mod 32)%nat with (len / 32 * 32)%nat by lia.
        now rewrite Nat.div_mul. }
    replace (len - (len - len mod 32))%nat with (len mod 32)%nat by lia.
    rewrite fill_toggle_spec.
    2:{ rewrite fill_blocks_spec; rewrite ?length_resize; try lia.
        rewrite !length_app, length_firstn, length_skipn, length_resize.
        rewrite length_concat. 
        assert (list_sum (map (@length bool) (repeat filler (len / 32))) = 32 * (len / 32))%nat.
        { generalize (len / 32)%nat. induction n; simpl in *; lia. }
        lia. }
    rewrite fill_blocks_spec by (rewrite length_resize; lia).
    assert (Hc : length (concat (repeat filler (len / 32))) = (32 * (len / 32))%nat).
    { rewrite length_concat. generalize (len / 32)%nat. induction n; simpl in *; lia. }
    rewrite firstn_O, !app_nil_l.
    rewrite firstn_app, Hc.
    replace (len - len mod 32 - 32 * (len / 32))%nat with 0%nat by lia.
    rewrite firstn_O, app_nil_r.
    rewrite firstn_all2 by lia.
    f_equal. simpl negb.
    rewrite (skipn_all2 (n := (len - len mod 32 + len mod 32)%nat)).
    + apply app_nil_r.
    + rewrite length_app, Hc, length_skipn, length_resize. lia.
Qed.

Lemma squarewave_head n v : (0 < n)%nat -> nth_error (squarewave n v) 0 = Some v.
Proof. destruct n; simpl; [lia|reflexivity]. Qed.

(** C1 (what the code does).  The vectorized fill produces the same
    samples as the scalar fill exactly when there are fewer than 32
    offsets: from 32 offsets on, the first block of the vectorized fill
    starts with [false] where the scalar fill starts with [true]. *)
Theorem FillSquarewaveAVX2_eq_Generic_iff cap :
  m_samples (FillSquarewaveAVX2 cap) = m_samples (FillSquarewaveGeneric cap)
  <-> (length (m_offsets cap) < 32)%nat.
Proof.
  rewrite FillSquarewaveAVX2_samples, FillSquarewaveGeneric_samples.
  set (len := length (m_offsets cap)).
  split.
  - intros H. destruct (Nat.lt_ge_cases len 32) as [|Hge]; [assumption|exfalso].
    assert (Hd : (1 <= len / 32)%nat) by (apply Nat.div_le_lower_bound; lia).
    apply (f_equal (fun l => nth_error l 0)) in H.
    rewrite squarewave_head in H by lia.
    destruct (len / 32)%nat as [|q]; [lia|].
    discriminate H.
  - intros H. rewrite Nat.div_small, Nat.mod_small by assumption. reflexivity.
Qed.

Lemma lt_size_minus_1_lt i n :
  (0 < n)%nat -> lt_size_minus_1 i n = true -> (S i < n)%nat.
Proof.
  destruct n; simpl; [lia|]. intros _ H. apply Nat.ltb_lt in H. lia.
Qed.

Lemma pushes_of_app l1 l2 : pushes_of (l1 ++ l2) = pushes_of l1 ++ pushes_of l2.
Proof.
  induction l1 as [|[] l1 IH]; simpl; rewrite ?IH; reflexivity.
Qed.

Lemma has_nyquist_app l1 l2 : has_nyquist (l1 ++ l2) = has_nyquist l1 || has_nyquist l2.
Proof. apply existsb_app. Qed.

Lemma has_visit_app l1 l2 : has_visit (l1 ++ l2) = has_visit l1 || has_visit l2.
Proof. apply existsb_app. Qed.

Lemma visits_no_push vs : forallb is_visit vs = true -> pushes_of vs = [].
Proof.
  induction vs as [|[] vs IH]; simpl; intros H; try discriminate; auto.
Qed.

Lemma visits_no_nyquist vs : forallb is_visit vs = true -> has_nyquist vs = false.
Proof.
  induction vs as [|[] vs IH]; simpl; intros H; try discriminate; auto.
Qed.

(** ** Checked arithmetic *)

Lemma bind_ok {A B : Type} (r : result A) (k : A -> result B) b :
  bind r k = Ok b -> exists a, r = Ok a /\ k a = Ok b.
Proof. destruct r as [a| |]; cbn; try discriminate. eauto. Qed.

Lemma in_int64_iff z : in_int64 z = true <-> - 2 ^ 63 <= z < 2 ^ 63.
Proof.
  unfold in_int64. rewrite andb_true_iff, Z.leb_le, Z.ltb_lt. reflexivity.
Qed.

Lemma int64_ok z r : int64 z = Ok r -> r = z /\ - 2 ^ 63 <= z < 2 ^ 63.
Proof.
  unfold int64. destruct (in_int64 z) eqn:E; [|discriminate].
  intros H. injection H as <-. split; [reflexivity | now apply in_int64_iff].
Qed.

Lemma int64_in_range z : - 2 ^ 63 <= z < 2 ^ 63 -> int64 z = Ok z.
Proof. intros H. unfold int64. now rewrite (proj2 (in_int64_iff z) H). Qed.

Lemma int64_cases z : int64 z = Ok z \/ int64 z = Fault SignedOverflow.
Proof. unfold int64. destruct (in_int64 z); auto. Qed.

Lemma int64_fuel z : int64 z <> OutOfFuel.
Proof. destruct (int64_cases z) as [-> | ->]; discriminate. Qed.

(** Inversion of a run of checked steps that ended well: [H] is split
    at its first [bind]. *)
Ltac bind_inv H :=
  let a := fresh "a" in
  let E := fresh "E" in
  apply bind_ok in H; destruct H as (a & E & H).

Ltac int64_inv H :=
  let a := fresh "a" in
  let E := fresh "E" in
  let R := fresh "R" in
  apply bind_ok in H; destruct H as (a & E & H);
  apply int64_ok in E; destruct E as [E R]; subst a.

Section NoGatingFacts.
Variable edges : list Z.
Variables tend initialPeriod halfPeriod fnyquist : Z.

Local Abbreviation visit := (visit_nogating edges initialPeriod halfPeriod fnyquist).
Local Abbreviation edge_loop := (edge_loop_nogating edges initialPeriod halfPeriod fnyquist).
Local Abbreviation body := (body_nogating edges initialPeriod halfPeriod fnyquist).
Local Abbreviation cond := (cond_nogating edges tend).
Local Abbreviation for_loop := (for_nogating edges tend initialPeriod halfPeriod fnyquist).

Lemma visit_nogating_cases tnext st r :
  visit tnext st = Ok r -> visit_nogating_shape edges fnyquist tnext st r.
Proof.
  unfold visit_nogating. intros H.
  int64_inv H. int64_inv H. int64_inv H.
  destruct (n_tlast st =? 0) eqn:Et; cbn [negb] in H.
  - apply Z.eqb_eq in Et. injection H as <-. now constructor.
  - apply Z.eqb_neq in Et. int64_inv H.
    match type of H with context [if ?c <? fnyquist then _ else _] =>
      destruct (c <? fnyquist) eqn:En end; injection H as <-.
    + apply Z.ltb_lt in En. now constructor.
    + apply Z.ltb_ge in En. now constructor.
Qed.

Lemma visit_nogating_fuel tnext st : visit tnext st <> OutOfFuel.
Proof.
  unfold visit_nogating.
  repeat (match goal with |- context [bind (int64 ?z) _] =>
            destruct (int64_cases z) as [-> | ->]; cbn [bind]; [|discriminate] end).
  destruct (negb _); [|discriminate].
  repeat (match goal with |- context [bind (int64 ?z) _] =>
            destruct (int64_cases z) as [-> | ->]; cbn [bind]; [|discriminate] end).
  destruct (_ <? fnyquist); discriminate.
Qed.

(** Invariant rule for the edge-visiting loop: [P] holds while the loop
    runs, [Q] once it is left. *)
Lemma edge_loop_nogating_rule (P Q : nstate -> Prop) :
  (forall st, P st -> Q st) ->
  (forall st r,
      P st -> lt_size_minus_1 (n_nedge st) (length edges) = true ->
      visit_nogating_shape edges fnyquist (nth (n_nedge st) edges 0) st r ->
      if snd r then Q (fst r) else P (fst r)) ->
  forall k center st st',
    P st -> edge_loop k center (nth (n_nedge st) edges 0) st = Ok st' -> Q st'.
Proof.
  intros HPQ Hstep k center. induction k as [|k IH]; intros st st' HP H;
    cbn [edge_loop_nogating] in H.
  - injection H as <-. auto.
  - int64_inv H.
    destruct (_ && _) eqn:Hc; [|injection H as <-; auto].
    apply andb_prop in Hc as [_ Hc].
    bind_inv H.
    pose proof (Hstep st _ HP Hc (visit_nogating_cases _ st _ E)) as Hs.
    destruct (snd a).
    + injection H as <-. exact Hs.
    + eapply IH; eassumption.
Qed.

Lemma edge_loop_nogating_fuel k center : forall tnext st,
  edge_loop k center tnext st <> OutOfFuel.
Proof.
  induction k as [|k IH]; intros tnext st; cbn [edge_loop_nogating]; [discriminate|].
  destruct (int64_cases (tnext + center)) as [-> | ->]; cbn [bind]; [|discriminate].
  destruct (_ && _); [|discriminate].
  pose proof (visit_nogating_fuel tnext st) as Hv.
  destruct (visit tnext st) as [r| |]; cbn [bind]; try discriminate; [|congruence].
  destruct (snd r); [discriminate | apply IH].
Qed.

Lemma body_nogating_fuel st : body st <> OutOfFuel.
Proof.
  unfold body_nogating.
  pose proof (edge_loop_nogating_fuel (length edges - n_nedge st)
                (idiv (n_iperiod st) 2) (nth (n_nedge st) edges 0) st) as He.
  destruct (edge_loop _ _ _ st) as [st1| |]; cbn [bind]; try discriminate; [|congruence].
  repeat (match goal with |- context [bind (int64 ?z) _] =>
            destruct (int64_cases z) as [-> | ->]; cbn [bind]; [|discriminate] end).
  discriminate.
Qed.

(** What the body of the [for] loop does after the edge loop. *)
Lemma body_nogating_ok st st' :
  body st = Ok st' ->
  exists st1,
    edge_loop (length edges - n_nedge st) (idiv (n_iperiod st) 2)
      (nth (n_nedge st) edges 0) st = Ok st1 /\
    - 2 ^ 63 <= n_edgepos st1 + idiv (n_iperiod st) 2 < 2 ^ 63 /\
    - 2 ^ 63 <= n_edgepos st1 + n_iperiod st1 < 2 ^ 63 /\
    st' = {| n_nedge := n_nedge st1;
             n_edgepos := n_edgepos st1 + n_iperiod st1;
             n_tlast := n_tlast st1;
             n_iperiod := n_iperiod st1;
             n_fperiod := n_fperiod st1;
             n_offsets := n_offsets st1 ++ [n_edgepos st1 + idiv (n_iperiod st) 2];
             n_log := n_log st1 ++ [EvPush (n_edgepos st1 + idiv (n_iperiod st) 2)] |}.
Proof.
  unfold body_nogating. intros H.
  bind_inv H. int64_inv H. int64_inv H. injection H as <-.
  exists a. auto.
Qed.

(** Invariant rule for the outer loop. *)
Lemma for_nogating_rule (P : nstate -> Prop) :
  (forall st st', P st -> cond st = true -> body st = Ok st' -> P st') ->
  forall fuel st st',
    P st -> for_loop fuel st = Ok st' -> P st' /\ cond st' = false.
Proof.
  intros Hstep fuel. induction fuel as [|fuel IH]; intros st st' HP H;
    cbn [for_nogating] in H; destruct (cond st) eqn:Hc; try discriminate.
  - injection H as <-. auto.
  - bind_inv H. eapply IH; [|exact H]. eauto.
  - injection H as <-. auto.
Qed.

Hypothesis edges_nonempty : edges <> [].

Lemma length_edges_pos : (0 < length edges)%nat.
Proof. destruct edges; [congruence | simpl; lia]. Qed.

Lemma cond_nogating_at_end st :
  n_nedge st = length edges -> cond st = false.
Proof.
  intros H. unfold cond_nogating. rewrite H.
  pose proof length_edges_pos.
  destruct (length edges) as [|m]; [lia|]. simpl.
  rewrite (proj2 (Nat.ltb_ge (S m) m)) by lia. apply andb_false_r.
Qed.

(** ** Shape of the trace *)

Lemma edge_loop_nogating_trace k center st st' :
  edge_loop k center (nth (n_nedge st) edges 0) st = Ok st' ->
  n_offsets st' = n_offsets st /\
  exists vs, forallb is_visit vs = true /\
    (n_log st' = n_log st ++ vs \/
     (exists t, n_log st' = n_log st ++ vs ++ [EvVisit t false true; EvNyquist])
     /\ n_nedge st' = length edges).
Proof.
  intros H. pattern st'.
  eapply (edge_loop_nogating_rule
    (fun s => n_offsets s = n_offsets st /\
              exists vs, forallb is_visit vs = true /\ n_log s = n_log st ++ vs));
    [| | |exact H].
  - intros s (Ho & vs & Hv & Hl). split; [assumption|]. exists vs. auto.
  - intros s r (Ho & vs & Hv & Hl) _ Hs.
    destruct Hs; cbn [fst snd n_offsets n_log n_nedge].
    + split; [assumption|]. exists (vs ++ [EvVisit (nth (n_nedge s) edges 0) false false]).
      rewrite forallb_app, Hv, Hl, app_assoc. auto.
    + split; [assumption|]. exists (vs ++ [EvVisit (nth (n_nedge s) edges 0) false true]).
      rewrite forallb_app, Hv, Hl, app_assoc. auto.
    + split; [assumption|]. exists vs. split; [assumption|]. right.
      split; [|reflexivity]. eexists. rewrite Hl, app_assoc. reflexivity.
  - split; [reflexivity|]. exists []. rewrite app_nil_r. auto.
Qed.

Lemma body_nogating_trace offs0 st st' :
  n_offsets st = offs0 ++ pushes_of (n_log st) ->
  has_nyquist (n_log st) = false ->
  body st = Ok st' ->
  n_offsets st' = offs0 ++ pushes_of (n_log st') /\
  (has_nyquist (n_log st') = false \/
   cond st' = false /\
   exists pre t x, has_nyquist pre = false /\
     n_log st' = pre ++ [EvVisit t false true; EvNyquist; EvPush x]).
Proof.
  intros Ho Hq Hb. apply body_nogating_ok in Hb as (st1 & He & _ & _ & ->).
  cbn [n_offsets n_log n_nedge n_edgepos].
  set (center := idiv (n_iperiod st) 2) in *.
  destruct (edge_loop_nogating_trace _ _ _ _ He) as (Ho1 & vs & Hv & Hl).
  rewrite Ho1, Ho. rewrite pushes_of_app. cbn [pushes_of].
  destruct Hl as [Hl | ((t & Hl) & Hn)]; rewrite Hl.
  - split.
    + rewrite pushes_of_app, (visits_no_push vs Hv), !app_nil_r.
      now rewrite app_assoc.
    + left. rewrite !has_nyquist_app, Hq, (visits_no_nyquist vs Hv). reflexivity.
  - split.
    + rewrite !pushes_of_app, (visits_no_push vs Hv). cbn [pushes_of].
      rewrite !app_nil_r. now rewrite app_assoc.
    + right. split.
      * apply cond_nogating_at_end. exact Hn.
      * exists (n_log st ++ vs), t, (n_edgepos st1 + center). split.
        -- rewrite has_nyquist_app, Hq, (visits_no_nyquist vs Hv). reflexivity.
        -- rewrite <- !app_assoc. reflexivity.
Qed.

Lemma InnerLoopWithNoGating_trace fuel offs0 offs log :
  InnerLoopWithNoGating edges tend initialPeriod halfPeriod fnyquist fuel offs0
    = Ok (offs, log) ->
  offs = offs0 ++ pushes_of log /\ trace_ok log.
Proof.
  unfold InnerLoopWithNoGating, bind.
  destruct (for_loop fuel _) as [st| |] eqn:E; try discriminate.
  intros H. injection H as <- <-.
  apply (for_nogating_rule
    (fun s => n_offsets s = offs0 ++ pushes_of (n_log s) /\
              (has_nyquist (n_log s) = false \/
               cond s = false /\
               exists pre t x, has_nyquist pre = false /\
                 n_log s = pre ++ [EvVisit t false true; EvNyquist; EvPush x])))
    in E.
  - destruct E as ((Ho & Ht) & _). split; [assumption|].
    destruct Ht as [Ht | (_ & Ht)]; [left | right]; assumption.
  - intros s s' (Ho & Ht) Hc Hb.
    destruct Ht as [Ht | (Hc' & _)]; [|congruence].
    eapply body_nogating_trace; eassumption.
  - cbn. rewrite app_nil_r. auto.
Qed.
End NoGatingFacts.

Lemma silent_nil : silent [].
Proof. split; reflexivity. Qed.

Lemma silent_app l1 l2 : silent l1 -> silent l2 -> silent (l1 ++ l2).
Proof.
  intros [H1 H2] [H3 H4]. split.
  - now rewrite has_nyquist_app, H1, H3.
  - now rewrite pushes_of_app, H2, H4.
Qed.

Lemma silent_visit t g c : silent [EvVisit t g c].
Proof. split; reflexivity. Qed.

Lemma silent_ungated p e : silent [EvUngated p e].
Proof. split; reflexivity. Qed.

Section GatingFacts.
Variable edges : list Z.
Variables tend fnyquist : Z.
Variable gate : gate_waveform.

Local Abbreviation visit := (visit_gating edges fnyquist).
Local Abbreviation edge_loop := (edge_loop_gating edges fnyquist).
Local Abbreviation body := (body_gating edges fnyquist gate).
Local Abbreviation cond := (cond_gating edges tend).
Local Abbreviation for_loop := (for_gating edges tend fnyquist gate).
Local Abbreviation scan := (gate_scan edges gate).

Lemma visit_gating_cases tnext st r :
  visit tnext st = Ok r -> visit_gating_shape edges fnyquist tnext st r.
Proof.
  unfold visit_gating. intros H.
  destruct (g_gating st) eqn:Eg; cbn [negb] in H.
  - injection H as <-. constructor. now left.
  - do 9 int64_inv H.
    destruct (g_tlast st =? 0) eqn:Et; cbn [negb] in H.
    + apply Z.eqb_eq in Et. injection H as <-. constructor. now right.
    + apply Z.eqb_neq in Et. int64_inv H.
      match type of H with context [if ?c <? fnyquist then _ else _] =>
        destruct (c <? fnyquist) eqn:En end; injection H as <-.
      * apply Z.ltb_lt in En. now constructor.
      * apply Z.ltb_ge in En. now constructor.
Qed.

Lemma visit_gating_fuel tnext st : visit tnext st <> OutOfFuel.
Proof.
  unfold visit_gating. destruct (negb (g_gating st)); [|discriminate].
  repeat (match goal with |- context [bind (int64 ?z) _] =>
            destruct (int64_cases z) as [-> | ->]; cbn [bind]; [|discriminate] end).
  destruct (negb _); [|discriminate].
  repeat (match goal with |- context [bind (int64 ?z) _] =>
            destruct (int64_cases z) as [-> | ->]; cbn [bind]; [|discriminate] end).
  destruct (_ <? fnyquist); discriminate.
Qed.

Lemma edge_loop_gating_rule (P Q : gstate -> Prop) :
  (forall st, P st -> Q st) ->
  (forall st r,
      P st -> (S (g_nedge st) < length edges)%nat ->
      visit_gating_shape edges fnyquist (nth (g_nedge st) edges 0) st r ->
      if snd r then Q (fst r) else P (fst r)) ->
  forall k center st st',
    P st -> edge_loop k center (nth (g_nedge st) edges 0) st = Ok st' -> Q st'.
Proof.
  intros HPQ Hstep k center. induction k as [|k IH]; intros st st' HP H;
    cbn [edge_loop_gating] in H.
  - injection H as <-. auto.
  - destruct (_ && _) eqn:Hc; [|injection H as <-; auto].
    apply andb_prop in Hc as [_ Hc]. apply Nat.ltb_lt in Hc.
    bind_inv H.
    pose proof (Hstep st _ HP Hc (visit_gating_cases _ st _ E)) as Hs.
    destruct (snd a).
    + injection H as <-. exact Hs.
    + eapply IH; eassumption.
Qed.

Lemma edge_loop_gating_fuel k center : forall tnext st,
  edge_loop k center tnext st <> OutOfFuel.
Proof.
  induction k as [|k IH]; intros tnext st; cbn [edge_loop_gating]; [discriminate|].
  destruct (_ && _); [|discriminate].
  pose proof (visit_gating_fuel tnext st) as Hv.
  destruct (visit tnext st) as [r| |]; cbn [bind]; try discriminate; [|congruence].
  destruct (snd r); [discriminate | apply IH].
Qed.

Lemma for_gating_rule (P : gstate -> Prop) :
  (forall st st', P st -> cond st = true -> body st = Ok st' -> P st') ->
  forall fuel st st',
    P st -> for_loop fuel st = Ok st' -> P st' /\ cond st' = false.
Proof.
  intros Hstep fuel. induction fuel as [|fuel IH]; intros st st' HP H;
    cbn [for_gating] in H; destruct (cond st) eqn:Hc; try discriminate.
  - injection H as <-. auto.
  - bind_inv H. eapply IH; [|exact H]. eauto.
  - injection H as <-. auto.
Qed.

Lemma collect_lengths_fuel n : forall i nedge acc,
  collect_lengths edges n i nedge acc <> OutOfFuel.
Proof.
  induction n as [|n IH]; intros i nedge acc; cbn [collect_lengths]; [discriminate|].
  destruct (_ <=? _)%nat; [discriminate|].
  match goal with |- context [bind (int64 ?z) _] =>
    destruct (int64_cases z) as [-> | ->]; cbn [bind]; [|discriminate] end.
  apply IH.
Qed.

Lemma sum_near_fuel median l : forall sum navg,
  sum_near median l sum navg <> OutOfFuel.
Proof.
  induction l as [|w l IH]; intros sum navg; cbn [sum_near]; [discriminate|].
  destruct (near_median median w); [|apply IH].
  destruct (int64_cases (sum + w)) as [-> | ->]; cbn [bind]; [apply IH | discriminate].
Qed.

Lemma reacquire_fuel st : reacquire edges st <> OutOfFuel.
Proof.
  unfold reacquire.
  pose proof (collect_lengths_fuel 512 1 (g_nedge st) []) as Hc.
  destruct (collect_lengths _ _ _ _ _) as [ls| |]; cbn [bind]; try discriminate;
    [|congruence].
  destruct (nth_error _ _) as [median|]; [|discriminate].
  pose proof (sum_near_fuel median (std_sort ls) 0 0) as Hs.
  destruct (sum_near _ _ _ _) as [[sum navg]| |]; cbn [bind]; try discriminate;
    [|congruence].
  destruct (navg =? 0); [discriminate|].
  match goal with |- context [bind (int64 ?z) _] =>
    destruct (int64_cases z) as [-> | ->]; cbn [bind]; discriminate end.
Qed.

(** What a reset of the PLL leaves behind. *)
Lemma reacquire_shape st st' :
  reacquire edges st = Ok st' ->
  exists avg,
    st' = {| g_igate := g_igate st; g_nedge := g_nedge st;
             g_edgepos := nth (g_nedge st) edges 0 + avg;
             g_period := avg; g_initialPeriod := avg;
             g_halfPeriod := idiv avg 2;
             g_gating := g_gating st; g_tlast := g_tlast st;
             g_total_error := g_total_error st;
             g_offsets := g_offsets st;
             g_log := g_log st ++ [EvUngated avg (nth (g_nedge st) edges 0 + avg)] |}.
Proof.
  unfold reacquire. intros H. bind_inv H.
  destruct (nth_error _ _) as [median|]; [|discriminate].
  bind_inv H. destruct a0 as [sum navg].
  destruct (navg =? 0); [discriminate|].
  int64_inv H. injection H as <-. eexists. reflexivity.
Qed.

Lemma g_set_igate_id st : g_set_igate (g_igate st) st = st.
Proof. destruct st; reflexivity. Qed.

Lemma gate_read_ok {A} (f : gate_sample -> A) i v :
  gate_read f gate i = Ok v -> exists s, nth_error gate i = Some s /\ v = f s.
Proof.
  unfold gate_read. destruct (nth_error gate i) as [s|]; [|discriminate].
  intros H. injection H as <-. eauto.
Qed.

(** Inversion of one step of the gate scan that ended well. *)
Lemma gate_scan_step k was_gating st st' :
  scan k was_gating st = Ok st' ->
  lt_size_minus_1 (g_igate st) (length gate) = false /\ st' = st \/
  lt_size_minus_1 (g_igate st) (length gate) = true /\
  exists s,
    nth_error gate (g_igate st) = Some s /\
    - 2 ^ 63 <= gs_offset s + gs_duration s < 2 ^ 63 /\
    (g_edgepos st < gs_offset s /\ st' = st \/
     gs_offset s <= g_edgepos st /\ gs_offset s + gs_duration s < g_edgepos st /\
       (exists k', k = S k' /\
          scan k' was_gating (g_set_igate (S (g_igate st)) st) = Ok st') \/
     gs_offset s <= g_edgepos st <= gs_offset s + gs_duration s /\
       (negb (negb (gs_value s)) && was_gating = false /\
          st' = g_set_gating (negb (gs_value s)) st \/
        gs_value s = true /\ was_gating = true /\
          reacquire edges (g_set_gating false st) = Ok st')).
Proof.
  intros H. destruct k as [|k]; cbn [gate_scan] in H.
  all: destruct (lt_size_minus_1 _ _); [right; split; [reflexivity|] | left; split; [reflexivity|]; now injection H as <-].
  all: unfold GetOffsetScaled, GetDurationScaled, GetValue in H.
  all: bind_inv H; apply gate_read_ok in E as (s & Es & ->).
  all: bind_inv H; apply gate_read_ok in E as (s' & Es' & ->).
  all: rewrite Es in Es'; injection Es' as <-.
  all: int64_inv H.
  all: exists s; split; [exact Es|]; split; [exact R|].
  all: destruct (Z.ltb_spec (g_edgepos st) (gs_offset s)) as [La | La];
    [left; split; [exact La|]; now injection H as <- | right].
  all: destruct (Z.ltb_spec (gs_offset s + gs_duration s) (g_edgepos st)) as [Lb | Lb].
  all: try discriminate.
  1,3: bind_inv H; apply gate_read_ok in E as (s' & Es' & ->).
  1,2: rewrite Es in Es'; injection Es' as <-.
  1,2: right; split; [lia|].
  1,2: cbn [g_gating g_set_gating] in H.
  1,2: destruct (negb (negb (gs_value s)) && was_gating) eqn:Et;
    [right | left; split; [reflexivity|]; now injection H as <-].
  1,2: apply andb_prop in Et as [Ev Ew]; rewrite negb_involutive in Ev.
  1,2: rewrite Ev in H; cbn [negb] in H; auto.
  left. split; [exact La|]. split; [exact Lb|]. eauto.
Qed.

Lemma gate_scan_cases k was_gating : forall st st',
  scan k was_gating st = Ok st' -> gate_scan_shape edges gate was_gating st st'.
Proof.
  induction k as [|k IH]; intros st st' H.
  all: apply gate_scan_step in H as [[_ ->] | [_ (s & Es & _ & H)]];
    [rewrite <- (g_set_igate_id st) at 2; now constructor|].
  all: destruct H as [[_ ->] | [(_ & _ & k' & Ek & H) | (_ & H)]].
  all: try (rewrite <- (g_set_igate_id st) at 2; now constructor).
  all: try discriminate.
  all: try (destruct H as [[Hn ->] | (Hv & Hw & H)];
    [rewrite <- (g_set_igate_id st) at 2;
     apply (GS_aligned edges gate _ _ (g_igate st) s); auto
    | eapply (GS_ungated edges gate _ _ (g_igate st) s); eauto;
      now rewrite g_set_igate_id]).
  injection Ek as <-. apply IH in H. inversion H; subst.
  - change (g_set_igate j (g_set_igate (S (g_igate st)) st)) with (g_set_igate j st).
    apply GS_none. cbn in *. lia.
  - change (g_set_gating (negb (gs_value s0)) (g_set_igate j (g_set_igate (S (g_igate st)) st)))
      with (g_set_gating (negb (gs_value s0)) (g_set_igate j st)).
    apply GS_aligned; cbn in *; auto; lia.
  - apply (GS_ungated edges gate _ _ j s0); cbn in *; auto; lia.
Qed.

Lemma gate_scan_fuel k was_gating : forall st,
  (length gate - g_igate st <= k)%nat -> scan k was_gating st <> OutOfFuel.
Proof.
  induction k as [|k IH]; intros st Hk; cbn [gate_scan].
  all: destruct (lt_size_minus_1 _ _); [|discriminate].
  all: unfold GetOffsetScaled, GetDurationScaled, GetValue, gate_read.
  all: destruct (nth_error gate (g_igate st)) as [s|] eqn:Es; cbn [bind]; [|discriminate].
  all: assert (g_igate st < length gate)%nat by (apply nth_error_Some; congruence).
  all: destruct (int64_cases (gs_offset s + gs_duration s)) as [-> | ->];
    cbn [bind]; [|discriminate].
  all: destruct (g_edgepos st <? gs_offset s); [discriminate|].
  all: destruct (_ <? g_edgepos st).
  all: try lia.
  - apply IH. cbn. lia.
  - destruct (_ && _); [|discriminate]. apply reacquire_fuel.
Qed.

(** What the end of the body of the [for] loop does. *)
Lemma push_and_advance_ok st st' :
  push_and_advance st = Ok st' ->
  - 2 ^ 63 <= g_edgepos st + g_period st < 2 ^ 63 /\
  (g_gating st = false ->
   - 2 ^ 63 <= g_edgepos st + idiv (g_period st) 2 < 2 ^ 63) /\
  st' = {| g_igate := g_igate st; g_nedge := g_nedge st;
           g_edgepos := g_edgepos st + g_period st;
           g_period := g_period st; g_initialPeriod := g_initialPeriod st;
           g_halfPeriod := g_halfPeriod st; g_gating := g_gating st;
           g_tlast := g_tlast st; g_total_error := g_total_error st;
           g_offsets := if g_gating st then g_offsets st
                        else g_offsets st ++ [g_edgepos st + idiv (g_period st) 2];
           g_log := if g_gating st then g_log st
                    else g_log st ++ [EvPush (g_edgepos st + idiv (g_period st) 2)] |}.
Proof.
  unfold push_and_advance. intros H.
  destruct (g_gating st).
  - cbn [bind] in H. int64_inv H. injection H as <-.
    split; [exact R|]. split; [discriminate | reflexivity].
  - bind_inv H. int64_inv E. injection E as <-. cbn [fst snd] in H.
    int64_inv H. injection H as <-. auto.
Qed.

Lemma push_and_advance_fuel st : push_and_advance st <> OutOfFuel.
Proof.
  unfold push_and_advance.
  destruct (g_gating st); cbn [bind].
  all: repeat (match goal with |- context [bind (int64 ?z) _] =>
            destruct (int64_cases z) as [-> | ->]; cbn [bind]; [|discriminate] end).
  all: discriminate.
Qed.

(** The three parts of the body of the [for] loop. *)
Lemma body_gating_ok st st' :
  body st = Ok st' ->
  exists st1 st2,
    scan (length gate - g_igate st) (g_gating st) st = Ok st1 /\
    edge_loop (length edges - g_nedge st1) (f32_of_int64 (idiv (g_period st) 2))
      (nth (g_nedge st1) edges 0) st1 = Ok st2 /\
    push_and_advance st2 = Ok st'.
Proof.
  unfold body_gating. intros H. bind_inv H. bind_inv H. eauto.
Qed.

Lemma body_gating_fuel st : body st <> OutOfFuel.
Proof.
  unfold body_gating.
  pose proof (gate_scan_fuel (length gate - g_igate st) (g_gating st) st
                (Nat.le_refl _)) as Hs.
  destruct (scan _ _ st) as [st1| |]; cbn [bind]; try discriminate; [|congruence].
  pose proof (edge_loop_gating_fuel (length edges - g_nedge st1)
                (f32_of_int64 (idiv (g_period st) 2)) (nth (g_nedge st1) edges 0) st1)
    as He.
  destruct (edge_loop _ _ _ st1) as [st2| |]; cbn [bind]; try discriminate; [|congruence].
  apply push_and_advance_fuel.
Qed.

Hypothesis edges_nonempty : edges <> [].

Lemma cond_gating_at_end st :
  g_nedge st = length edges -> cond st = false.
Proof.
  intros H. unfold cond_gating. rewrite H.
  pose proof (length_edges_pos edges edges_nonempty).
  destruct (length edges) as [|m]; [lia|]. simpl.
  rewrite (proj2 (Nat.ltb_ge (S m) m)) by lia. apply andb_false_r.
Qed.

(** ** Shape of the trace *)

Lemma edge_loop_gating_trace k center st st' :
  edge_loop k center (nth (g_nedge st) edges 0) st = Ok st' ->
  g_offsets st' = g_offsets st /\ g_gating st' = g_gating st /\
  exists vs, silent vs /\
    (g_log st' = g_log st ++ vs \/
     (exists t, g_log st' = g_log st ++ vs ++ [EvVisit t false true; EvNyquist])
     /\ g_nedge st' = length edges /\ g_gating st' = false).
Proof.
  intros H. pattern st'.
  eapply (edge_loop_gating_rule
    (fun s => g_offsets s = g_offsets st /\ g_gating s = g_gating st /\
              exists vs, silent vs /\ g_log s = g_log st ++ vs));
    [| | |exact H].
  - intros s (Ho & Hg & vs & Hv & Hl). repeat split; try assumption. exists vs. auto.
  - intros s r (Ho & Hg & vs & Hv & Hl) _ Hs.
    destruct Hs; cbn [fst snd g_offsets g_log g_nedge g_gating g_visit].
    + repeat split; try assumption.
      exists (vs ++ [EvVisit (nth (g_nedge s) edges 0) (g_gating s) false]).
      split; [apply silent_app; [assumption | apply silent_visit]|].
      now rewrite Hl, app_assoc.
    + repeat split; try congruence.
      exists (vs ++ [EvVisit (nth (g_nedge s) edges 0) false true]).
      split; [apply silent_app; [assumption | apply silent_visit]|].
      now rewrite Hl, app_assoc.
    + repeat split; try congruence. exists vs. split; [assumption|]. right.
      repeat split. eexists. rewrite Hl, app_assoc. reflexivity.
  - repeat split. exists []. rewrite app_nil_r. split; [apply silent_nil | reflexivity].
Qed.

Lemma gate_scan_trace k was_gating st st' :
  scan k was_gating st = Ok st' ->
  g_offsets st' = g_offsets st /\
  exists us, silent us /\ g_log st' = g_log st ++ us.
Proof.
  intros H. apply gate_scan_cases in H. destruct H as [j Hj | j s Hj Hs Hn | j s st' Hj Hs Hv Hw Hr].
  - split; [reflexivity|]. exists []. rewrite app_nil_r. split; [apply silent_nil | reflexivity].
  - split; [reflexivity|]. exists []. rewrite app_nil_r. split; [apply silent_nil | reflexivity].
  - apply reacquire_shape in Hr as (avg & ->). cbn.
    split; [reflexivity|]. eexists. split; [apply silent_ungated | reflexivity].
Qed.

Lemma body_gating_trace offs0 st st' :
  g_offsets st = offs0 ++ pushes_of (g_log st) ->
  has_nyquist (g_log st) = false ->
  body st = Ok st' ->
  g_offsets st' = offs0 ++ pushes_of (g_log st') /\
  (has_nyquist (g_log st') = false \/
   cond st' = false /\
   exists pre t x, has_nyquist pre = false /\
     g_log st' = pre ++ [EvVisit t false true; EvNyquist; EvPush x]).
Proof.
  intros Ho Hq Hb. apply body_gating_ok in Hb as (st1 & st2 & Hs & He & Hp).
  apply gate_scan_trace in Hs as (Ho1 & us & [Hu1 Hu2] & Hl1).
  destruct (edge_loop_gating_trace _ _ _ _ He) as (Ho2 & Hg2 & vs & [Hv1 Hv2] & Hl2).
  apply push_and_advance_ok in Hp as (_ & _ & ->).
  cbn [g_offsets g_log g_nedge g_edgepos].
  rewrite Ho2, Ho1, Ho.
  destruct Hl2 as [Hl2 | ((t & Hl2) & Hn & Hg)]; rewrite Hl2, Hl1.
  - destruct (g_gating st2).
    + split.
      * now rewrite !pushes_of_app, Hu2, Hv2, !app_nil_r.
      * left. now rewrite !has_nyquist_app, Hq, Hu1, Hv1.
    + split.
      * rewrite !pushes_of_app, Hu2, Hv2, !app_nil_r. cbn [pushes_of].
        now rewrite app_assoc.
      * left. now rewrite !has_nyquist_app, Hq, Hu1, Hv1.
  - rewrite Hg. split.
    + rewrite !pushes_of_app, Hu2, Hv2. cbn [pushes_of]. rewrite !app_nil_r.
      now rewrite app_assoc.
    + right. split.
      * apply cond_gating_at_end. exact Hn.
      * exists ((g_log st ++ us) ++ vs), t, (g_edgepos st2 + idiv (g_period st2) 2). split.
        -- now rewrite !has_nyquist_app, Hq, Hu1, Hv1.
        -- rewrite <- !app_assoc. reflexivity.
Qed.

Lemma InnerLoopWithGating_trace fuel initialPeriod halfPeriod offs0 offs log :
  InnerLoopWithGating edges tend fnyquist gate fuel initialPeriod halfPeriod offs0
    = Ok (offs, log) ->
  offs = offs0 ++ pushes_of log /\ trace_ok log.
Proof.
  unfold InnerLoopWithGating, bind.
  destruct (initial_gating gate) as [gating| |]; try discriminate.
  destruct (for_loop fuel _) as [st| |] eqn:E; try discriminate.
  intros H. injection H as <- <-.
  apply (for_gating_rule
    (fun s => g_offsets s = offs0 ++ pushes_of (g_log s) /\
              (has_nyquist (g_log s) = false \/
               cond s = false /\
               exists pre t x, has_nyquist pre = false /\
                 g_log s = pre ++ [EvVisit t false true; EvNyquist; EvPush x])))
    in E.
  - destruct E as ((Ho & Ht) & _). split; [assumption|].
    destruct Ht as [Ht | (_ & Ht)]; [left | right]; assumption.
  - intros s s' (Ho & Ht) Hc Hb.
    destruct Ht as [Ht | (Hc' & _)]; [|congruence].
    eapply body_gating_trace; eassumption.
  - cbn. rewrite app_nil_r. auto.
Qed.
End GatingFacts.

(** ** Which visits are corrected *)

Lemma last_visited_app t l1 l2 :
  last_visited t (l1 ++ l2) = last_visited (last_visited t l1) l2.
Proof.
  revert t. induction l1 as [|[] l1 IH]; intros t0; cbn [app last_visited]; auto.
Qed.

Lemma corrections_ok_app t l1 l2 :
  corrections_ok t (l1 ++ l2)
  = corrections_ok t l1 && corrections_ok (last_visited t l1) l2.
Proof.
  revert t. induction l1 as [|[] l1 IH]; intros t0;
    cbn [app corrections_ok last_visited]; auto.
  rewrite IH. now rewrite andb_assoc.
Qed.

Lemma corrections_ok_split log pre t g c post :
  corrections_ok 0 log = true ->
  log = pre ++ EvVisit t g c :: post ->
  c = negb g && negb (last_visited 0 pre =? 0).
Proof.
  intros H ->. rewrite corrections_ok_app in H. cbn [corrections_ok] in H.
  apply andb_prop in H as [_ H]. apply andb_prop in H as [H _].
  now apply Bool.eqb_prop in H.
Qed.

Lemma tlast_tracks_visit tlast log t g c :
  tlast_tracks tlast log -> c = negb g && negb (tlast =? 0) ->
  tlast_tracks t (log ++ [EvVisit t g c]).
Proof.
  intros [H1 H2] ->. split.
  - rewrite corrections_ok_app, H1, <- H2. cbn [corrections_ok].
    now rewrite Bool.eqb_reflx.
  - now rewrite last_visited_app.
Qed.

Lemma tlast_tracks_nyquist tlast log t :
  tlast_tracks tlast log -> tlast <> 0 ->
  corrections_ok 0 (log ++ [EvVisit t false true; EvNyquist]) = true.
Proof.
  intros [H1 H2] Hn.
  rewrite corrections_ok_app, H1, <- H2. cbn [corrections_ok].
  apply Z.eqb_neq in Hn. now rewrite Hn.
Qed.

Lemma tlast_tracks_other tlast log e :
  is_visit e = false -> tlast_tracks tlast log -> tlast_tracks tlast (log ++ [e]).
Proof.
  intros He [H1 H2]. split.
  - rewrite corrections_ok_app, H1. destruct e; try discriminate; reflexivity.
  - rewrite last_visited_app, <- H2. destruct e; try discriminate; reflexivity.
Qed.

Section VisitsNoGating.
Variable edges : list Z.
Variables tend initialPeriod halfPeriod fnyquist : Z.
Hypothesis edges_nonempty : edges <> [].

Local Abbreviation edge_loop := (edge_loop_nogating edges initialPeriod halfPeriod fnyquist).

Lemma edge_loop_nogating_visits k center st st' :
  tlast_tracks (n_tlast st) (n_log st) ->
  edge_loop k center (nth (n_nedge st) edges 0) st = Ok st' ->
  corrections_ok 0 (n_log st') = true /\
  (n_nedge st' = length edges \/ tlast_tracks (n_tlast st') (n_log st')).
Proof.
  intros HP H. pattern st'.
  eapply (edge_loop_nogating_rule edges initialPeriod halfPeriod fnyquist
    (fun s => tlast_tracks (n_tlast s) (n_log s))); [| |exact HP|exact H].
  - intros s Hs. split; [apply Hs | now right].
  - intros s r Hs _ Hr. destruct Hr as [Ht | e p f Ht Hp | e p f Ht Hp];
      cbn [fst snd n_tlast n_log n_nedge].
    + apply (tlast_tracks_visit (n_tlast s)); [exact Hs|]. now rewrite Ht.
    + apply (tlast_tracks_visit (n_tlast s)); [exact Hs|].
      apply Z.eqb_neq in Ht. now rewrite Ht.
    + split; [|now left]. eapply tlast_tracks_nyquist; eassumption.
Qed.

Lemma InnerLoopWithNoGating_visits fuel offs0 offs log :
  InnerLoopWithNoGating edges tend initialPeriod halfPeriod fnyquist fuel offs0
    = Ok (offs, log) ->
  corrections_ok 0 log = true.
Proof.
  unfold InnerLoopWithNoGating, bind.
  destruct (for_nogating _ _ _ _ _ fuel _) as [st| |] eqn:E; try discriminate.
  intros H. injection H as <- <-.
  apply (for_nogating_rule edges tend initialPeriod halfPeriod fnyquist
    (fun s => corrections_ok 0 (n_log s) = true /\
              (n_nedge s = length edges \/ tlast_tracks (n_tlast s) (n_log s))))
    in E.
  - apply E.
  - intros s s' (Hc & Ht) Hcond Hb.
    destruct Ht as [Ht | Ht].
    { rewrite (cond_nogating_at_end edges tend edges_nonempty _ Ht) in Hcond.
      discriminate. }
    apply body_nogating_ok in Hb as (st1 & He & _ & _ & ->).
    cbn [n_log n_nedge n_tlast].
    destruct (edge_loop_nogating_visits _ _ _ _ Ht He) as (H1 & H2).
    split.
    + rewrite corrections_ok_app, H1. reflexivity.
    + destruct H2 as [H2 | H2]; [now left | right].
      now apply (tlast_tracks_other (n_tlast st1)).
  - cbn. split; [reflexivity | right; split; reflexivity].
Qed.
End VisitsNoGating.

Section VisitsGating.
Variable edges : list Z.
Variables tend fnyquist : Z.
Variable gate : gate_waveform.
Hypothesis edges_nonempty : edges <> [].

Local Abbreviation edge_loop := (edge_loop_gating edges fnyquist).

Lemma edge_loop_gating_visits k center st st' :
  tlast_tracks (g_tlast st) (g_log st) ->
  edge_loop k center (nth (g_nedge st) edges 0) st = Ok st' ->
  corrections_ok 0 (g_log st') = true /\
  (g_nedge st' = length edges \/ tlast_tracks (g_tlast st') (g_log st')).
Proof.
  intros HP H. pattern st'.
  eapply (edge_loop_gating_rule edges fnyquist
    (fun s => tlast_tracks (g_tlast s) (g_log s))); [| |exact HP|exact H].
  - intros s Hs. split; [apply Hs | now right].
  - intros s r Hs _ Hr. destruct Hr as [te Ht | e p te Hg Ht Hp | e p te Hg Ht Hp];
      cbn [fst snd g_tlast g_log g_nedge g_visit].
    + apply (tlast_tracks_visit (g_tlast s)); [exact Hs|].
      destruct Ht as [-> | ->]; [reflexivity | now rewrite andb_false_r].
    + apply (tlast_tracks_visit (g_tlast s)); [exact Hs|].
      apply Z.eqb_neq in Ht. now rewrite Ht.
    + split; [|now left]. eapply tlast_tracks_nyquist; eassumption.
Qed.

Lemma gate_scan_visits k was_gating st st' :
  gate_scan edges gate k was_gating st = Ok st' ->
  tlast_tracks (g_tlast st) (g_log st) ->
  tlast_tracks (g_tlast st') (g_log st') /\ g_nedge st' = g_nedge st.
Proof.
  intros H Ht. apply gate_scan_cases in H.
  destruct H as [j Hj | j s Hj Hs Hn | j s st' Hj Hs Hv Hw Hr].
  - now split.
  - now split.
  - apply reacquire_shape in Hr as (avg & ->). cbn. split; [|reflexivity].
    now apply tlast_tracks_other.
Qed.

Lemma InnerLoopWithGating_visits fuel initialPeriod halfPeriod offs0 offs log :
  InnerLoopWithGating edges tend fnyquist gate fuel initialPeriod halfPeriod offs0
    = Ok (offs, log) ->
  corrections_ok 0 log = true.
Proof.
  unfold InnerLoopWithGating, bind.
  destruct (initial_gating gate) as [gating| |]; try discriminate.
  destruct (for_gating _ _ _ _ fuel _) as [st| |] eqn:E; try discriminate.
  intros H. injection H as <- <-.
  apply (for_gating_rule edges tend fnyquist gate
    (fun s => corrections_ok 0 (g_log s) = true /\
              (g_nedge s = length edges \/ tlast_tracks (g_tlast s) (g_log s))))
    in E.
  - apply E.
  - intros s s' (Hc & Ht) Hcond Hb.
    destruct Ht as [Ht | Ht].
    { rewrite (cond_gating_at_end edges tend edges_nonempty _ Ht) in Hcond.
      discriminate. }
    apply body_gating_ok in Hb as (st1 & st2 & Hs & He & Hp).
    apply gate_scan_visits in Hs as [Ht1 _]; [|exact Ht].
    destruct (edge_loop_gating_visits _ _ _ _ Ht1 He) as (H1 & H2).
    apply push_and_advance_ok in Hp as (_ & _ & ->).
    cbn [g_log g_nedge g_tlast].
    destruct (g_gating st2).
    + auto.
    + split.
      * rewrite corrections_ok_app, H1. reflexivity.
      * destruct H2 as [H2 | H2]; [now left | right].
        now apply (tlast_tracks_other (g_tlast st2)).
  - cbn. split; [reflexivity | right; split; reflexivity].
Qed.
End VisitsGating.

(** C8 (what the code does).  In the trace of either loop a visited real
    edge is corrected exactly when the loop is not gated there and the
    timestamp of the edge visited before it is not 0, the value [tlast]
    starts with: besides the first edge visited, the edge visited after
    one at timestamp 0 is not corrected either. *)
Theorem correction_skipped_after_edge_at_zero
  (edges : list Z) (tend initialPeriod halfPeriod fnyquist : Z)
  (gate : gate_waveform) (fuel : nat) (offs0 offs : list Z) (log : list event) :
  edges <> [] ->
  InnerLoopWithNoGating edges tend initialPeriod halfPeriod fnyquist fuel offs0
    = Ok (offs, log) \/
  InnerLoopWithGating edges tend fnyquist gate fuel initialPeriod halfPeriod offs0
    = Ok (offs, log) ->
  forall pre t gated corrected post,
    log = pre ++ EvVisit t gated corrected :: post ->
    corrected = negb gated && negb (last_visited 0 pre =? 0).
Proof.
  intros Hne H pre t g c post E.
  eapply corrections_ok_split; [|exact E].
  destruct H as [H | H].
  - eapply InnerLoopWithNoGating_visits; eassumption.
  - eapply InnerLoopWithGating_visits; eassumption.
Qed.

Lemma increasingb_nth l :
  increasingb l = true ->
  forall i, (S i < length l)%nat -> nth i l 0 < nth (S i) l 0.
Proof.
  induction l as [|a [|b t] IH]; intros H i Hi; simpl in Hi; try lia.
  cbn [increasingb] in H. apply andb_prop in H as [Hab Ht]. apply Z.ltb_lt in Hab.
  destruct i as [|i].
  - exact Hab.
  - change (nth i (b :: t) 0 < nth (S i) (b :: t) 0). apply IH; [exact Ht | simpl; lia].
Qed.


Section TermNoGating.
Variable edges : list Z.
Variables tend initialPeriod halfPeriod fnyquist : Z.
Hypothesis edges_nonempty : edges <> [].
Hypothesis fnyquist_pos : 1 <= fnyquist.

Local Abbreviation edge_loop := (edge_loop_nogating edges initialPeriod halfPeriod fnyquist).
Local Abbreviation body := (body_nogating edges initialPeriod halfPeriod fnyquist).
Local Abbreviation cond := (cond_nogating edges tend).
Local Abbreviation for_loop := (for_nogating edges tend initialPeriod halfPeriod fnyquist).

Lemma edge_loop_nogating_progress k center st st' :
  fnyquist <= n_iperiod st -> (n_nedge st <= length edges)%nat ->
  edge_loop k center (nth (n_nedge st) edges 0) st = Ok st' ->
  (n_nedge st <= n_nedge st' <= length edges)%nat /\
  (n_nedge st' = n_nedge st -> st' = st) /\
  (n_nedge st' = length edges \/ fnyquist <= n_iperiod st').
Proof.
  intros Hp Hn H. pattern st'.
  eapply (edge_loop_nogating_rule edges initialPeriod halfPeriod fnyquist
    (fun s => (n_nedge st <= n_nedge s <= length edges)%nat /\
              (n_nedge s = n_nedge st -> s = st) /\ fnyquist <= n_iperiod s));
    [| | |exact H].
  - intros s (H1 & H2 & H3). auto.
  - intros s r (H1 & H2 & H3) Hc Hs.
    apply lt_size_minus_1_lt in Hc; [|now apply length_edges_pos].
    destruct Hs; cbn [fst snd n_nedge n_iperiod]; repeat split; try lia; auto.
  - repeat split; auto; lia.
Qed.

Lemma body_nogating_progress st st' :
  cond st = true -> fnyquist <= n_iperiod st -> (n_nedge st <= length edges)%nat ->
  body st = Ok st' ->
  (n_nedge st <= n_nedge st' <= length edges)%nat /\
  (n_nedge st' = length edges \/ fnyquist <= n_iperiod st') /\
  (n_nedge st' = n_nedge st ->
   n_edgepos st' = n_edgepos st + n_iperiod st).
Proof.
  intros Hc Hp Hn Hb. apply body_nogating_ok in Hb as (st1 & He & _ & _ & ->).
  cbn [n_nedge n_iperiod n_edgepos].
  destruct (edge_loop_nogating_progress _ _ _ _ Hp Hn He) as (H1 & H2 & H3).
  repeat split; try lia; auto.
  intros E. rewrite (H2 E). reflexivity.
Qed.

(** From a state whose period is at or above the floor, the loop stops
    after finitely many iterations: it returns, or it stops at a signed
    overflow. *)
Lemma for_nogating_terminates st :
  (n_nedge st <= length edges)%nat ->
  (cond st = true -> fnyquist <= n_iperiod st) ->
  exists fuel, for_loop fuel st <> OutOfFuel.
Proof.
  remember (length edges - n_nedge st)%nat as a eqn:Ea. revert st Ea.
  induction a as [a IHa] using lt_wf_ind. intros st Ea.
  remember (Z.to_nat (tend - n_edgepos st)) as b eqn:Eb. revert st Ea Eb.
  induction b as [b IHb] using lt_wf_ind. intros st Ea Eb Hn Hinv.
  destruct (cond st) eqn:Hc.
  - specialize (Hinv eq_refl).
    destruct (body st) as [st'|f|] eqn:Hb.
    + destruct (body_nogating_progress st st' Hc Hinv Hn Hb) as (H1 & H2 & H3).
      assert (Hinv' : cond st' = true -> fnyquist <= n_iperiod st').
      { intros Hc'. destruct H2 as [H2 | H2]; [|exact H2].
        rewrite (cond_nogating_at_end edges tend edges_nonempty _ H2) in Hc'.
        discriminate. }
      assert (Hrec : exists fuel, for_loop fuel st' <> OutOfFuel).
      { destruct (Nat.eq_dec (n_nedge st') (n_nedge st)) as [E | E].
        - apply (IHb (Z.to_nat (tend - n_edgepos st'))); auto; try lia.
          rewrite (H3 E). unfold cond_nogating in Hc.
          apply andb_prop in Hc as [Hc _]. apply Z.ltb_lt in Hc. lia.
        - apply (IHa (length edges - n_nedge st')%nat); auto; lia. }
      destruct Hrec as (fuel & Hrec).
      exists (S fuel). cbn [for_nogating]. rewrite Hc, Hb. exact Hrec.
    + exists 1%nat. cbn [for_nogating]. rewrite Hc, Hb. discriminate.
    + now apply body_nogating_fuel in Hb.
  - exists O. cbn [for_nogating]. rewrite Hc. discriminate.
Qed.

Hypothesis period_above_floor : fnyquist <= initialPeriod.

Lemma reach_nogating_inv st :
  reach_nogating edges tend initialPeriod halfPeriod fnyquist st ->
  (n_nedge st <= length edges)%nat /\ (cond st = true -> fnyquist <= n_iperiod st).
Proof.
  induction 1 as [offsets | st st' Hr [IH1 IH2] Hc Hb].
  - cbn. pose proof (length_edges_pos edges edges_nonempty). split; [lia | auto].
  - destruct (body_nogating_progress st st' Hc (IH2 Hc) IH1 Hb) as (H1 & H2 & H3).
    split; [lia|]. intros Hc'. destruct H2 as [H2 | H2]; [|exact H2].
    rewrite (cond_nogating_at_end edges tend edges_nonempty _ H2) in Hc'. discriminate.
Qed.

Lemma InnerLoopWithNoGating_terminates offsets :
  exists fuel,
    InnerLoopWithNoGating edges tend initialPeriod halfPeriod fnyquist fuel offsets
    <> OutOfFuel.
Proof.
  destruct (reach_nogating_inv _ (RN_init edges tend initialPeriod halfPeriod fnyquist offsets))
    as [H1 H2].
  destruct (for_nogating_terminates _ H1 H2) as (fuel & H).
  exists fuel. unfold InnerLoopWithNoGating, bind.
  destruct (for_loop fuel _); try discriminate. congruence.
Qed.
End TermNoGating.

(** ** The reset potential only goes down *)

Lemma potential_mono l : forall g1 g2,
  (g1 = true -> g2 = true) -> (potential g1 l <= potential g2 l)%nat.
Proof.
  induction l as [|v r IH]; intros g1 g2 H; cbn [potential]; [lia|].
  assert (H1 : (potential (g1 || negb v) r <= potential (g2 || negb v) r)%nat).
  { apply IH. destruct g1, g2, v; simpl; auto. }
  destruct g1, g2, v; simpl in *; try lia; discriminate (H eq_refl).
Qed.

Lemma skipn_nth_error {A} (l : list A) : forall i v,
  nth_error l i = Some v -> skipn i l = v :: skipn (S i) l.
Proof.
  induction l as [|a l IH]; intros [|i] v H; simpl in *; try discriminate.
  - now injection H as ->.
  - now apply IH.
Qed.

Lemma potential_skip_1 g l i :
  (potential g (skipn (S i) l) <= potential g (skipn i l))%nat.
Proof.
  destruct (nth_error l i) as [v|] eqn:E.
  - rewrite (skipn_nth_error l i v E). cbn [potential].
    assert (H : g = true -> g || negb v = true) by (intros ->; reflexivity).
    pose proof (potential_mono (skipn (S i) l) g (g || negb v) H).
    destruct (v && g); lia.
  - apply nth_error_None in E. rewrite !skipn_all2 by lia. lia.
Qed.

Lemma potential_skip g l i j :
  (i <= j)%nat -> (potential g (skipn j l) <= potential g (skipn i l))%nat.
Proof.
  induction 1 as [|j Hij IH]; [lia|].
  pose proof (potential_skip_1 g l j). lia.
Qed.

Lemma potential_aligned g l j v :
  nth_error l j = Some v ->
  (potential (negb v) (skipn j l) <= potential g (skipn j l))%nat /\
  (v = true -> g = true ->
   (potential (negb v) (skipn j l) < potential g (skipn j l))%nat).
Proof.
  intros E. rewrite (skipn_nth_error l j v E). cbn [potential].
  destruct v; cbn [negb andb orb].
  - pose proof (potential_mono (skipn (S j) l) false (g || false)).
    split.
    + destruct g; simpl in *; lia.
    + intros _ ->. simpl in *.
      pose proof (potential_mono (skipn (S j) l) false true). lia.
  - rewrite orb_true_r. split; [simpl; lia | discriminate].
Qed.


Section TermGating.
Variable edges : list Z.
Variables tend fnyquist : Z.
Variable gate : gate_waveform.
Hypothesis edges_nonempty : edges <> [].
Hypothesis edges_increasing : increasingb edges = true.
Hypothesis fnyquist_pos : 1 <= fnyquist.

Local Abbreviation edge_loop := (edge_loop_gating edges fnyquist).
Local Abbreviation body := (body_gating edges fnyquist gate).
Local Abbreviation cond := (cond_gating edges tend).
Local Abbreviation for_loop := (for_gating edges tend fnyquist gate).
Local Abbreviation scan := (gate_scan edges gate).
Local Abbreviation pot := (reset_potential gate).

Lemma insert_sorted_Forall (P : Z -> Prop) x l :
  P x -> Forall P l -> Forall P (insert_sorted x l).
Proof.
  intros Hx. induction 1 as [|h t Hh Ht IH]; cbn [insert_sorted].
  - auto.
  - destruct (x <=? h); auto.
Qed.

Lemma std_sort_Forall (P : Z -> Prop) l : Forall P l -> Forall P (std_sort l).
Proof.
  induction 1; cbn [std_sort]; [constructor | now apply insert_sorted_Forall].
Qed.

Lemma collect_lengths_pos n : forall i nedge acc ls,
  (1 <= i)%nat -> Forall (fun w => 1 <= w) acc ->
  collect_lengths edges n i nedge acc = Ok ls ->
  Forall (fun w => 1 <= w) ls.
Proof.
  induction n as [|n IH]; intros i nedge acc ls Hi Hacc H; cbn [collect_lengths] in H.
  - now injection H as <-.
  - destruct (length edges <=? i + nedge)%nat eqn:E; [now injection H as <-|].
    apply Nat.leb_gt in E. int64_inv H.
    apply IH in H; [exact H | lia |].
    apply Forall_app. split; [assumption|]. constructor; [|constructor].
    pose proof (increasingb_nth edges edges_increasing (nedge + i - 1)) as Hi'.
    replace (S (nedge + i - 1)) with (nedge + i)%nat in Hi' by lia.
    specialize (Hi' ltac:(lia)). lia.
Qed.

Lemma sum_near_bounds median l : forall sum navg sum' navg',
  Forall (fun w => 1 <= w) l -> 0 <= navg <= sum ->
  sum_near median l sum navg = Ok (sum', navg') ->
  0 <= navg' <= sum'.
Proof.
  induction l as [|w l IH]; intros sum navg sum' navg' Hl Hb H; cbn [sum_near] in H.
  - now injection H as <- <-.
  - inversion Hl; subst. destruct (near_median median w).
    + int64_inv H. eapply IH; [eassumption| |exact H]. lia.
    + eapply IH; eassumption.
Qed.

Lemma reacquire_period_pos st st' :
  reacquire edges st = Ok st' -> 1 <= g_period st'.
Proof.
  unfold reacquire. intros H. bind_inv H.
  set (lengths := std_sort a) in *.
  assert (Hl : Forall (fun w => 1 <= w) lengths).
  { apply std_sort_Forall. eapply collect_lengths_pos; [| |exact E]; [lia | constructor]. }
  destruct (nth_error lengths _) as [median|]; [|discriminate].
  bind_inv H. destruct a0 as [sum navg].
  pose proof (sum_near_bounds median lengths 0 0 sum navg Hl ltac:(lia) E0) as Hb.
  destruct (navg =? 0) eqn:En; [discriminate|]. apply Z.eqb_neq in En.
  int64_inv H. injection H as <-. cbn [g_period]. unfold idiv.
  rewrite Z.quot_div_nonneg by lia.
  apply Z.div_le_lower_bound; lia.
Qed.

Lemma reset_potential_eq st :
  pot st = potential (g_gating st) (skipn (g_igate st) (map gs_value gate)).
Proof. unfold reset_potential. now rewrite skipn_map. Qed.

(** The gate scan either leaves the oscillator alone or resets it, and
    a reset uses up potential. *)
Lemma gate_scan_progress k st st1 :
  scan k (g_gating st) st = Ok st1 ->
  g_nedge st1 = g_nedge st /\ (g_igate st <= g_igate st1)%nat /\
  (pot st1 <= pot st)%nat /\
  ((g_edgepos st1 = g_edgepos st /\ g_period st1 = g_period st) \/
   ((pot st1 < pot st)%nat /\ 1 <= g_period st1)).
Proof.
  intros H. pose proof (gate_scan_cases _ _ _ _ _ _ H) as Hs.
  rewrite !reset_potential_eq.
  destruct Hs as [j Hj | j s Hj Hs Hn | j s st' Hj Hs Hv Hw Hr].
  - cbn. repeat split; auto. now apply potential_skip.
  - cbn. repeat split; auto.
    assert (E : nth_error (map gs_value gate) j = Some (gs_value s))
      by (rewrite nth_error_map, Hs; reflexivity).
    destruct (potential_aligned (g_gating st) _ _ _ E) as [H1 _].
    pose proof (potential_skip (g_gating st) (map gs_value gate) _ _ Hj). lia.
  - pose proof (reacquire_period_pos _ _ Hr) as Hp.
    apply reacquire_shape in Hr as (avg & ->).
    cbn [g_nedge g_igate g_gating g_edgepos g_period g_set_gating g_set_igate] in *.
    assert (E : nth_error (map gs_value gate) j = Some (gs_value s))
      by (rewrite nth_error_map, Hs; reflexivity).
    destruct (potential_aligned (g_gating st) _ _ _ E) as [_ H2].
    specialize (H2 Hv Hw). rewrite Hv in H2. cbn [negb] in H2.
    pose proof (potential_skip (g_gating st) (map gs_value gate) _ _ Hj).
    split; [reflexivity|]. split; [assumption|]. split; [lia|].
    right. split; [lia | assumption].
Qed.

Lemma edge_loop_gating_progress k center st st' :
  1 <= g_period st -> (g_nedge st <= length edges)%nat ->
  edge_loop k center (nth (g_nedge st) edges 0) st = Ok st' ->
  (g_nedge st <= g_nedge st' <= length edges)%nat /\
  (g_nedge st' = g_nedge st -> st' = st) /\
  (g_nedge st' = length edges \/ 1 <= g_period st') /\
  g_igate st' = g_igate st /\ g_gating st' = g_gating st.
Proof.
  intros Hp Hn H. pattern st'.
  eapply (edge_loop_gating_rule edges fnyquist
    (fun s => (g_nedge st <= g_nedge s <= length edges)%nat /\
              (g_nedge s = g_nedge st -> s = st) /\ 1 <= g_period s /\
              g_igate s = g_igate st /\ g_gating s = g_gating st));
    [| | |exact H].
  - intros s (H1 & H2 & H3 & H4 & H5). auto 6.
  - intros s r (H1 & H2 & H3 & H4 & H5) Hc Hs.
    destruct Hs; cbn [fst snd g_nedge g_period g_igate g_gating g_visit];
      repeat split; try lia; auto; try congruence.
  - repeat split; auto; lia.
Qed.

Lemma body_gating_progress st st' :
  1 <= g_period st -> (g_nedge st <= length edges)%nat ->
  body st = Ok st' ->
  (g_nedge st <= g_nedge st' <= length edges)%nat /\
  (g_igate st <= g_igate st')%nat /\
  (g_nedge st' = length edges \/ 1 <= g_period st') /\
  (pot st' <= pot st)%nat /\
  ((pot st' < pot st)%nat \/ g_nedge st' <> g_nedge st \/
   g_edgepos st' = g_edgepos st + g_period st).
Proof.
  intros Hp Hn Hb. apply body_gating_ok in Hb as (st1 & st2 & Hs & He & Ha).
  apply gate_scan_progress in Hs as (N1 & I1 & P1 & C1).
  assert (Hp1 : 1 <= g_period st1) by (destruct C1 as [[_ ->] | [_ ?]]; assumption).
  assert (Hn1 : (g_nedge st1 <= length edges)%nat) by lia.
  destruct (edge_loop_gating_progress _ _ _ _ Hp1 Hn1 He) as (H1 & H2 & H3 & H4 & H5).
  apply push_and_advance_ok in Ha as (_ & _ & ->).
  assert (Hpot : forall o l,
    pot {| g_igate := g_igate st2; g_nedge := g_nedge st2;
           g_edgepos := g_edgepos st2 + g_period st2;
           g_period := g_period st2; g_initialPeriod := g_initialPeriod st2;
           g_halfPeriod := g_halfPeriod st2; g_gating := g_gating st2;
           g_tlast := g_tlast st2; g_total_error := g_total_error st2;
           g_offsets := o; g_log := l |} = pot st1).
  { intros o l. unfold reset_potential. cbn [g_gating g_igate]. now rewrite H4, H5. }
  rewrite Hpot. cbn [g_nedge g_igate g_period g_edgepos].
  repeat split; try lia; auto.
  destruct C1 as [[C1 C2] | [C1 _]]; [|left; exact C1].
  destruct (Nat.eq_dec (g_nedge st2) (g_nedge st)) as [E | E]; [|auto].
  right. right. rewrite H2 by lia. now rewrite C1, C2.
Qed.

(** From a state whose period is positive, the loop stops after finitely
    many iterations: it returns, or it stops at undefined behaviour. *)
Lemma for_gating_terminates st :
  (g_nedge st <= length edges)%nat ->
  (cond st = true -> 1 <= g_period st) ->
  exists fuel, for_loop fuel st <> OutOfFuel.
Proof.
  remember (pot st) as p eqn:Ep. revert st Ep.
  induction p as [p IHp] using lt_wf_ind. intros st Ep.
  remember (length edges - g_nedge st)%nat as a eqn:Ea. revert st Ep Ea.
  induction a as [a IHa] using lt_wf_ind. intros st Ep Ea.
  remember (Z.to_nat (tend - g_edgepos st)) as b eqn:Eb. revert st Ep Ea Eb.
  induction b as [b IHb] using lt_wf_ind. intros st Ep Ea Eb Hn Hinv.
  destruct (cond st) eqn:Hc.
  - specialize (Hinv eq_refl).
    destruct (body st) as [st'|f|] eqn:Hb.
    + destruct (body_gating_progress st st' Hinv Hn Hb) as (H1 & H2 & H3 & H4 & H5).
      assert (Hinv' : cond st' = true -> 1 <= g_period st').
      { intros Hc'. destruct H3 as [H3 | H3]; [|exact H3].
        rewrite (cond_gating_at_end edges tend edges_nonempty _ H3) in Hc'. discriminate. }
      assert (Hrec : exists fuel, for_loop fuel st' <> OutOfFuel).
      { destruct (Nat.eq_dec (pot st') (pot st)) as [E1 | E1].
        - destruct (Nat.eq_dec (g_nedge st') (g_nedge st)) as [E2 | E2].
          + destruct H5 as [H5 | [H5 | H5]]; try lia.
            apply (IHb (Z.to_nat (tend - g_edgepos st'))); auto; try lia.
            rewrite H5. unfold cond_gating in Hc.
            apply andb_prop in Hc as [Hc _]. apply Z.ltb_lt in Hc. lia.
          + apply (IHa (length edges - g_nedge st')%nat); auto; lia.
        - apply (IHp (pot st')); auto; lia. }
      destruct Hrec as (fuel & Hrec).
      exists (S fuel). cbn [for_gating]. rewrite Hc, Hb. exact Hrec.
    + exists 1%nat. cbn [for_gating]. rewrite Hc, Hb. discriminate.
    + now apply body_gating_fuel in Hb.
  - exists O. cbn [for_gating]. rewrite Hc. discriminate.
Qed.

Variables initialPeriod halfPeriod : Z.
Hypothesis period_above_floor : fnyquist <= initialPeriod.

Lemma reach_gating_inv st :
  reach_gating edges tend initialPeriod halfPeriod fnyquist gate st ->
  (g_nedge st <= length edges)%nat /\ (cond st = true -> 1 <= g_period st).
Proof.
  induction 1 as [gating offsets Hg | st st' Hr [IH1 IH2] Hc Hb].
  - cbn. pose proof (length_edges_pos edges edges_nonempty). split; [lia | intros; lia].
  - destruct (body_gating_progress st st' (IH2 Hc) IH1 Hb) as (H1 & H2 & H3 & H4 & H5).
    split; [lia|]. intros Hc'. destruct H3 as [H3 | H3]; [|exact H3].
    rewrite (cond_gating_at_end edges tend edges_nonempty _ H3) in Hc'. discriminate.
Qed.

Lemma InnerLoopWithGating_terminates offsets :
  exists fuel,
    InnerLoopWithGating edges tend fnyquist gate fuel initialPeriod halfPeriod offsets
    <> OutOfFuel.
Proof.
  unfold InnerLoopWithGating.
  destruct (initial_gating gate) as [gating|f|] eqn:Hg.
  - destruct (reach_gating_inv _
      (RG_init edges tend initialPeriod halfPeriod fnyquist gate gating offsets Hg))
      as [H1 H2].
    destruct (for_gating_terminates _ H1 H2) as (fuel & H).
    exists fuel. unfold bind.
    destruct (for_loop fuel _); try discriminate. congruence.
  - exists O. discriminate.
  - unfold initial_gating, GetValue, gate_read, bind in Hg.
    destruct gate; [discriminate|]. simpl in Hg. discriminate.
Qed.
End TermGating.

Lemma squarewave_nth n : forall v i,
  (i < n)%nat -> nth_error (squarewave n v) i = Some (if Nat.even i then v else negb v).
Proof.
  induction n as [|n IH]; intros v i Hi; [lia|].
  destruct i as [|i]; cbn [squarewave nth_error]; [reflexivity|].
  rewrite IH by lia. rewrite Nat.even_succ, <- Nat.negb_even.
  destruct (Nat.even i), v; reflexivity.
Qed.

Lemma FillSquarewaveGeneric_alternates cap i :
  (i < length (m_offsets cap))%nat ->
  nth_error (m_samples (FillSquarewaveGeneric cap)) i = Some (Nat.even i).
Proof.
  intros H. rewrite FillSquarewaveGeneric_samples, squarewave_nth by assumption.
  now destruct (Nat.even i).
Qed.

(** C2 (what the code does).  With 32 offsets or more, sample 0 of the
    vectorized fill is [false], while that of the scalar fill is
    [true]: the output does not start [true] on both paths. *)
Theorem FillSquarewaveAVX2_starts_false cap :
  (32 <= length (m_offsets cap))%nat ->
  nth_error (m_samples (FillSquarewaveAVX2 cap)) 0 = Some false /\
  nth_error (m_samples (FillSquarewaveGeneric cap)) 0 = Some true.
Proof.
  intros H. split.
  - rewrite FillSquarewaveAVX2_samples.
    assert (Hd : (1 <= length (m_offsets cap) / 32)%nat)
      by (apply Nat.div_le_lower_bound; lia).
    destruct (length (m_offsets cap) / 32)%nat as [|q]; [lia|]. reflexivity.
  - rewrite FillSquarewaveGeneric_alternates by lia. reflexivity.
Qed.

Lemma FillSquarewaveAVX2_starts_false_witness :
  nth_error (m_samples (FillSquarewaveAVX2
     {| m_offsets := repeat 0 32; m_samples := [] |})) 0 = Some false /\
  nth_error (m_samples (FillSquarewaveGeneric
     {| m_offsets := repeat 0 32; m_samples := [] |})) 0 = Some true.
Proof.
  apply FillSquarewaveAVX2_starts_false. simpl. lia.
Defined.

Lemma for_nogating_done edges tend ip hp fnyq fuel st :
  cond_nogating edges tend st = false ->
  for_nogating edges tend ip hp fnyq fuel st = Ok st.
Proof. intros H. destruct fuel; cbn [for_nogating]; now rewrite H. Qed.

Lemma for_gating_done edges tend fnyq gate fuel st :
  cond_gating edges tend st = false ->
  for_gating edges tend fnyq gate fuel st = Ok st.
Proof. intros H. destruct fuel; cbn [for_gating]; now rewrite H. Qed.

Lemma initial_gating_nonempty s gate :
  initial_gating (s :: gate) = Ok (negb (gs_value s)).
Proof. reflexivity. Qed.

(** C7.  When the input yields fewer than two edges (none included), or
    when the nominal period [round(FS_PER_SECOND / baud)] is below twice
    the input timescale, [Refresh] ends without a single pass through
    the PLL loop (the trace is empty) and its output is empty: no data,
    or, for exactly one edge, a waveform without samples. *)
Theorem Refresh_without_usable_input
  (fuel : nat) (inputOK : bool) (din : input_waveform)
  (gate : option gate_waveform) (baud : f64) (hasAvx2 : bool) :
  (length (in_edges din) < 2)%nat \/ nominal_period baud < 2 * in_timescale din ->
  Refresh fuel inputOK din gate baud hasAvx2 = Ok (NoData, []) \/
  Refresh fuel inputOK din gate baud hasAvx2
    = Ok (Data {| m_offsets := []; m_samples := [] |}, []).
Proof.
  intros H. unfold Refresh.
  destruct inputOK; cbn [negb]; [|now left].
  destruct (in_edges din) as [|e rest] eqn:Ee; [now left|].
  destruct (nominal_period baud <? 2 * in_timescale din) eqn:En; [now left|].
  apply Z.ltb_ge in En.
  destruct H as [H | H]; [|lia].
  destruct rest as [|e' rest]; [|simpl in H; lia].
  right. destruct gate as [g|].
  - unfold InnerLoopWithGating.
    assert (Hg : exists b, initial_gating g = Ok b).
    { destruct g as [|s g]; [now exists false | now exists (negb (gs_value s))]. }
    destruct Hg as [b ->]. cbn [bind].
    rewrite for_gating_done.
    + cbn [bind fst snd init_gating g_offsets g_log]. now destruct hasAvx2.
    + unfold cond_gating. cbn. apply andb_false_r.
  - unfold InnerLoopWithNoGating.
    rewrite for_nogating_done.
    + cbn [bind fst snd init_nogating n_offsets n_log]. now destruct hasAvx2.
    + unfold cond_nogating. cbn. apply andb_false_r.
Qed.

Lemma Refresh_without_usable_input_witness :
  Refresh 5 true {| in_timescale := 500; in_edges := [1000]; in_tend := 3000 |}
    None (f64_lit (10 ^ 15) 1000) true = Ok (NoData, []) \/
  Refresh 5 true {| in_timescale := 500; in_edges := [1000]; in_tend := 3000 |}
    None (f64_lit (10 ^ 15) 1000) true
    = Ok (Data {| m_offsets := []; m_samples := [] |}, []).
Proof.
  apply Refresh_without_usable_input. left. simpl. lia.
Defined.

(** C9 (what the code does).  With a gate waveform that has no sample,
    the first pass through the [for] loop reads gate sample 0: in
    [size_t] arithmetic [igate < gate->size()-1] is true for an empty
    gate. *)
Theorem empty_gate_is_read_out_of_range
  (edges : list Z) (tend fnyquist initialPeriod halfPeriod : Z)
  (fuel : nat) (offsets : list Z) :
  cond_gating edges tend (init_gating edges initialPeriod halfPeriod false offsets) = true ->
  InnerLoopWithGating edges tend fnyquist [] (S fuel) initialPeriod halfPeriod offsets
  = Fault (GateIndexOutOfRange 0).
Proof.
  intros H. unfold InnerLoopWithGating. cbn [initial_gating bind for_gating].
  rewrite H. reflexivity.
Qed.

Lemma empty_gate_is_read_out_of_range_witness :
  InnerLoopWithGating three_edges 3000 1000 [] 1 1000 500 []
  = Fault (GateIndexOutOfRange 0).
Proof.
  apply empty_gate_is_read_out_of_range. reflexivity.
Defined.

Lemma initial_gating_ok gate :
  gate <> [] -> exists b, initial_gating gate = Ok b.
Proof.
  destruct gate as [|s g]; [congruence|]. intros _. now exists (negb (gs_value s)).
Qed.

Section GateReads.
Variable edges : list Z.
Variables tend fnyquist : Z.
Variable gate : gate_waveform.
Hypothesis gate_nonempty : gate <> [].

Lemma reacquire_in_range i st :
  reacquire edges st <> Fault (GateIndexOutOfRange i).
Proof.
  unfold reacquire.
  assert (Hc : forall n j nedge acc,
    collect_lengths edges n j nedge acc <> Fault (GateIndexOutOfRange i)).
  { induction n as [|n IH]; intros j nedge acc; cbn [collect_lengths]; [discriminate|].
    destruct (_ <=? _)%nat; [discriminate|].
    match goal with |- context [bind (int64 ?z) _] =>
      destruct (int64_cases z) as [-> | ->]; cbn [bind]; [apply IH | discriminate] end. }
  assert (Hs : forall median l sum navg,
    sum_near median l sum navg <> Fault (GateIndexOutOfRange i)).
  { induction l as [|w l IH]; intros sum navg; cbn [sum_near]; [discriminate|].
    destruct (near_median median w); [|apply IH].
    destruct (int64_cases (sum + w)) as [-> | ->]; cbn [bind];
      [apply IH | discriminate]. }
  specialize (Hc 512%nat 1%nat (g_nedge st) []).
  destruct (collect_lengths _ _ _ _ _) as [ls| |]; cbn [bind]; try discriminate;
    [|congruence].
  destruct (nth_error _ _) as [median|]; [|discriminate].
  specialize (Hs median (std_sort ls) 0 0).
  destruct (sum_near _ _ _ _) as [[sum navg]| |]; cbn [bind]; try discriminate;
    [|congruence].
  destruct (navg =? 0); [discriminate|].
  match goal with |- context [bind (int64 ?z) _] =>
    destruct (int64_cases z) as [-> | ->]; cbn [bind]; discriminate end.
Qed.

Lemma gate_scan_in_range k was_gating i : forall st,
  gate_scan edges gate k was_gating st <> Fault (GateIndexOutOfRange i).
Proof.
  induction k as [|k IH]; intros st; cbn [gate_scan].
  all: destruct (lt_size_minus_1 _ _) eqn:Hc; [|discriminate].
  all: assert (Hlt : (S (g_igate st) < length gate)%nat)
      by (apply lt_size_minus_1_lt; [destruct gate; [congruence | simpl; lia] | exact Hc]).
  all: unfold GetOffsetScaled, GetDurationScaled, GetValue, gate_read.
  all: destruct (nth_error gate (g_igate st)) as [s|] eqn:Es;
    [|apply nth_error_None in Es; lia].
  all: cbn [bind].
  all: destruct (int64_cases (gs_offset s + gs_duration s)) as [-> | ->];
    cbn [bind]; [|discriminate].
  all: destruct (g_edgepos st <? gs_offset s); [discriminate|].
  all: destruct (_ <? g_edgepos st); try discriminate; try apply IH.
  all: destruct (_ && _); [|discriminate].
  all: apply reacquire_in_range.
Qed.

Lemma visit_gating_in_range i tnext st :
  visit_gating edges fnyquist tnext st <> Fault (GateIndexOutOfRange i).
Proof.
  unfold visit_gating. destruct (negb (g_gating st)); [|discriminate].
  repeat (match goal with |- context [bind (int64 ?z) _] =>
            destruct (int64_cases z) as [-> | ->]; cbn [bind]; [|discriminate] end).
  destruct (negb _); [|discriminate].
  repeat (match goal with |- context [bind (int64 ?z) _] =>
            destruct (int64_cases z) as [-> | ->]; cbn [bind]; [|discriminate] end).
  destruct (_ <? fnyquist); discriminate.
Qed.

Lemma edge_loop_gating_in_range i k center : forall tnext st,
  edge_loop_gating edges fnyquist k center tnext st <> Fault (GateIndexOutOfRange i).
Proof.
  induction k as [|k IH]; intros tnext st; cbn [edge_loop_gating]; [discriminate|].
  destruct (_ && _); [|discriminate].
  pose proof (visit_gating_in_range i tnext st) as Hv.
  destruct (visit_gating _ _ tnext st) as [r| |]; cbn [bind]; try discriminate;
    [|congruence].
  destruct (snd r); [discriminate | apply IH].
Qed.

Lemma push_and_advance_in_range i st :
  push_and_advance st <> Fault (GateIndexOutOfRange i).
Proof.
  unfold push_and_advance.
  destruct (g_gating st); cbn [bind].
  all: repeat (match goal with |- context [bind (int64 ?z) _] =>
            destruct (int64_cases z) as [-> | ->]; cbn [bind]; [|discriminate] end).
  all: discriminate.
Qed.

Lemma body_gating_in_range i st :
  body_gating edges fnyquist gate st <> Fault (GateIndexOutOfRange i).
Proof.
  unfold body_gating.
  pose proof (gate_scan_in_range (length gate - g_igate st) (g_gating st) i st) as Hs.
  destruct (gate_scan _ _ _ _ st) as [st1| |]; cbn [bind]; try discriminate;
    [|congruence].
  pose proof (edge_loop_gating_in_range i (length edges - g_nedge st1)
                (f32_of_int64 (idiv (g_period st) 2)) (nth (g_nedge st1) edges 0) st1)
    as He.
  destruct (edge_loop_gating _ _ _ _ _ st1) as [st2| |]; cbn [bind]; try discriminate;
    [|congruence].
  apply push_and_advance_in_range.
Qed.

Lemma for_gating_in_range fuel i : forall st,
  for_gating edges tend fnyquist gate fuel st <> Fault (GateIndexOutOfRange i).
Proof.
  induction fuel as [|fuel IH]; intros st; cbn [for_gating];
    destruct (cond_gating _ _ _); try discriminate.
  pose proof (body_gating_in_range i st) as Hb.
  destruct (body_gating _ _ _ st) as [st'| |]; cbn [bind]; try discriminate;
    [apply IH | congruence].
Qed.

(** Every gate read of a run over a gate with at least one sample is
    in range. *)
Lemma InnerLoopWithGating_reads_in_range fuel initialPeriod halfPeriod offsets i :
  InnerLoopWithGating edges tend fnyquist gate fuel initialPeriod halfPeriod offsets
  <> Fault (GateIndexOutOfRange i).
Proof.
  unfold InnerLoopWithGating.
  destruct (initial_gating_ok gate gate_nonempty) as [b ->]. cbn [bind].
  pose proof (for_gating_in_range fuel i
    (init_gating edges initialPeriod halfPeriod b offsets)) as H.
  destruct (for_gating _ _ _ _ _ _); cbn [bind]; try discriminate.
  intros E. apply H. now injection E as ->.
Qed.
End GateReads.

(** ** std_sort sorts *)
Lemma insert_sorted_perm x l : Permutation (x :: l) (insert_sorted x l).
Proof.
  induction l as [|h t IH]; cbn [insert_sorted]; [reflexivity|].
  destruct (x <=? h); [reflexivity|].
  rewrite perm_swap. now constructor.
Qed.

Lemma std_sort_perm l : Permutation l (std_sort l).
Proof.
  induction l as [|h t IH]; cbn [std_sort]; [constructor|].
  rewrite <- insert_sorted_perm. now constructor.
Qed.

Lemma insert_sorted_sorted x l : Sorted Z.le l -> Sorted Z.le (insert_sorted x l).
Proof.
  induction 1 as [|h t Ht IH Hh]; cbn [insert_sorted].
  - repeat constructor.
  - destruct (x <=? h) eqn:E.
    + apply Z.leb_le in E. repeat constructor; assumption.
    + apply Z.leb_gt in E. constructor; [assumption|].
      destruct t as [|h' t]; cbn [insert_sorted] in *.
      * constructor. lia.
      * destruct (x <=? h'); constructor; [lia|].
        inversion Hh; subst. assumption.
Qed.

Lemma std_sort_sorted l : Sorted Z.le (std_sort l).
Proof.
  induction l; cbn [std_sort]; [constructor | now apply insert_sorted_sorted].
Qed.

Lemma length_std_sort l : length (std_sort l) = length l.
Proof. symmetry. apply Permutation_length, std_sort_perm. Qed.

(** ** The Nyquist check *)

Lemma has_correction_app l1 l2 :
  has_correction (l1 ++ l2) = has_correction l1 || has_correction l2.
Proof. apply existsb_app. Qed.

Lemma first_nyquist_split pre0 r0 pre post :
  has_nyquist pre0 = false -> has_nyquist r0 = false ->
  pre0 ++ EvNyquist :: r0 = pre ++ EvNyquist :: post -> pre = pre0 /\ post = r0.
Proof.
  intros Hq Hr. revert pre. induction pre0 as [|e0 pre0 IH]; intros pre E.
  - destruct pre as [|e pre]; simpl in E.
    + injection E as <-. auto.
    + injection E as <- E. subst r0.
      rewrite has_nyquist_app in Hr. simpl in Hr. rewrite orb_true_r in Hr. discriminate.
  - simpl in Hq. apply orb_false_elim in Hq as [He0 Hq].
    destruct pre as [|e pre]; simpl in E.
    + injection E as -> _. discriminate.
    + injection E as <- E. destruct (IH Hq pre E) as [-> ->]. auto.
Qed.

Lemma iteration_events_test fnyquist period evs :
  iteration_events fnyquist period evs ->
  has_nyquist evs = has_correction evs && (period <? fnyquist).
Proof.
  intros (_ & [[Hq Hc] | (Hp & pre & t & Hq & ->)]).
  - rewrite Hq. destruct (has_correction evs); [|reflexivity].
    specialize (Hc eq_refl). symmetry. apply Z.ltb_ge. exact Hc.
  - rewrite has_nyquist_app, has_correction_app. cbn.
    rewrite !orb_true_r. symmetry. apply Z.ltb_lt. exact Hp.
Qed.

Section NyquistNoGating.
Variable edges : list Z.
Variables tend initialPeriod halfPeriod fnyquist : Z.
Hypothesis edges_nonempty : edges <> [].

Local Abbreviation edge_loop := (edge_loop_nogating edges initialPeriod halfPeriod fnyquist).
Local Abbreviation body := (body_nogating edges initialPeriod halfPeriod fnyquist).
Local Abbreviation cond := (cond_nogating edges tend).

Lemma edge_loop_nogating_nyquist k center st st' :
  edge_loop k center (nth (n_nedge st) edges 0) st = Ok st' ->
  n_offsets st' = n_offsets st /\
  exists evs,
    n_log st' = n_log st ++ evs /\ iteration_events fnyquist (n_iperiod st') evs /\
    (has_nyquist evs = true -> n_nedge st' = length edges).
Proof.
  intros H. pattern st'.
  eapply (edge_loop_nogating_rule edges initialPeriod halfPeriod fnyquist
    (fun s => n_offsets s = n_offsets st /\
              exists evs, n_log s = n_log st ++ evs /\ pushes_of evs = [] /\
                has_nyquist evs = false /\
                (has_correction evs = true -> fnyquist <= n_iperiod s)));
    [| | |exact H].
  - intros s (Ho & evs & Hl & Hp & Hq & Hc). split; [exact Ho|].
    exists evs. split; [exact Hl|]. split; [split; auto|]. congruence.
  - intros s r (Ho & evs & Hl & Hp & Hq & Hc) _ Hs.
    destruct Hs as [Ht | e p f Ht Hf | e p f Ht Hf];
      cbn [fst snd n_offsets n_log n_nedge n_iperiod]; (split; [exact Ho|]).
    + exists (evs ++ [EvVisit (nth (n_nedge s) edges 0) false false]).
      rewrite Hl, app_assoc, pushes_of_app, has_nyquist_app, has_correction_app, Hp, Hq.
      cbn. rewrite orb_false_r. auto.
    + exists (evs ++ [EvVisit (nth (n_nedge s) edges 0) false true]).
      rewrite Hl, app_assoc, pushes_of_app, has_nyquist_app, Hp, Hq. cbn. auto.
    + exists (evs ++ [EvVisit (nth (n_nedge s) edges 0) false true; EvNyquist]).
      rewrite Hl, app_assoc. split; [reflexivity|]. split; [|reflexivity].
      split; [rewrite pushes_of_app, Hp; reflexivity|].
      right. split; [exact Hf|]. eauto.
  - split; [reflexivity|]. exists []. rewrite app_nil_r. repeat split; auto.
    discriminate.
Qed.

Lemma body_nogating_nyquist st st' :
  body st = Ok st' ->
  exists evs x,
    n_log st' = n_log st ++ evs ++ [EvPush x] /\
    n_offsets st' = n_offsets st ++ [x] /\
    x = n_edgepos st' - n_iperiod st' + idiv (n_iperiod st) 2 /\
    iteration_events fnyquist (n_iperiod st') evs /\
    (has_nyquist evs = true -> cond st' = false).
Proof.
  intros Hb. apply body_nogating_ok in Hb as (st1 & He & _ & _ & ->).
  apply edge_loop_nogating_nyquist in He as (Ho & evs & Hl & Hi & Hn).
  exists evs, (n_edgepos st1 + idiv (n_iperiod st) 2).
  cbn [n_log n_offsets n_edgepos n_iperiod n_nedge].
  rewrite Hl, Ho, <- app_assoc.
  split; [reflexivity|]. split; [reflexivity|]. split; [lia|]. split; [exact Hi|].
  intros Hq. apply cond_nogating_at_end; [exact edges_nonempty|]. cbn. auto.
Qed.
End NyquistNoGating.

Section NyquistGating.
Variable edges : list Z.
Variables tend fnyquist : Z.
Variable gate : gate_waveform.
Hypothesis edges_nonempty : edges <> [].

Local Abbreviation edge_loop := (edge_loop_gating edges fnyquist).
Local Abbreviation body := (body_gating edges fnyquist gate).
Local Abbreviation cond := (cond_gating edges tend).

Lemma edge_loop_gating_nyquist k center st st' :
  edge_loop k center (nth (g_nedge st) edges 0) st = Ok st' ->
  g_offsets st' = g_offsets st /\
  exists evs,
    g_log st' = g_log st ++ evs /\ iteration_events fnyquist (g_period st') evs /\
    (has_nyquist evs = true -> g_nedge st' = length edges /\ g_gating st' = false).
Proof.
  intros H. pattern st'.
  eapply (edge_loop_gating_rule edges fnyquist
    (fun s => g_offsets s = g_offsets st /\
              exists evs, g_log s = g_log st ++ evs /\ pushes_of evs = [] /\
                has_nyquist evs = false /\
                (has_correction evs = true -> fnyquist <= g_period s)));
    [| | |exact H].
  - intros s (Ho & evs & Hl & Hp & Hq & Hc). split; [exact Ho|].
    exists evs. split; [exact Hl|]. split; [split; auto|]. congruence.
  - intros s r (Ho & evs & Hl & Hp & Hq & Hc) _ Hs.
    destruct Hs as [te Ht | e p te Hg Ht Hf | e p te Hg Ht Hf];
      cbn [fst snd g_offsets g_log g_nedge g_period g_gating g_visit];
      (split; [exact Ho|]).
    + exists (evs ++ [EvVisit (nth (g_nedge s) edges 0) (g_gating s) false]).
      rewrite Hl, app_assoc, pushes_of_app, has_nyquist_app, has_correction_app, Hp, Hq.
      cbn. rewrite orb_false_r. auto.
    + exists (evs ++ [EvVisit (nth (g_nedge s) edges 0) false true]).
      rewrite Hl, app_assoc, pushes_of_app, has_nyquist_app, Hp, Hq. cbn. auto.
    + exists (evs ++ [EvVisit (nth (g_nedge s) edges 0) false true; EvNyquist]).
      rewrite Hl, app_assoc. split; [reflexivity|]. split; [|auto].
      split; [rewrite pushes_of_app, Hp; reflexivity|].
      right. split; [exact Hf|]. eauto.
  - split; [reflexivity|]. exists []. rewrite app_nil_r. repeat split; auto.
    discriminate.
Qed.

Lemma body_gating_nyquist st st' :
  body st = Ok st' ->
  exists us evs xs,
    g_log st' = g_log st ++ us ++ evs ++ map EvPush xs /\
    g_offsets st' = g_offsets st ++ xs /\
    (us = [] \/ exists p e, us = [EvUngated p e]) /\
    iteration_events fnyquist (g_period st') evs /\
    (has_nyquist evs = true ->
     xs = [g_edgepos st' - g_period st' + idiv (g_period st') 2] /\
     cond st' = false).
Proof.
  intros Hb. apply body_gating_ok in Hb as (st1 & st2 & Hs & He & Hp).
  assert (Hu : g_offsets st1 = g_offsets st /\
               exists us, g_log st1 = g_log st ++ us /\
                          (us = [] \/ exists p e, us = [EvUngated p e])).
  { apply gate_scan_cases in Hs.
    destruct Hs as [j Hj | j s Hj Hs Hn | j s st1 Hj Hs Hv Hw Hr].
    - split; [reflexivity|]. exists []. rewrite app_nil_r. auto.
    - split; [reflexivity|]. exists []. rewrite app_nil_r. auto.
    - apply reacquire_shape in Hr as (avg & ->). cbn. split; [reflexivity|].
      eexists. split; [reflexivity|]. right. eauto. }
  destruct Hu as (Ho1 & us & Hl1 & Hus).
  apply edge_loop_gating_nyquist in He as (Ho2 & evs & Hl2 & Hi & Hn).
  apply push_and_advance_ok in Hp as (_ & _ & ->).
  cbn [g_log g_offsets g_edgepos g_period g_nedge].
  exists us, evs,
    (if g_gating st2 then [] else [g_edgepos st2 + idiv (g_period st2) 2]).
  rewrite Hl2, Hl1, Ho2, Ho1.
  split; [destruct (g_gating st2); cbn [map]; now rewrite ?app_nil_r, <- ?app_assoc|].
  split; [destruct (g_gating st2); now rewrite ?app_nil_r|].
  split; [exact Hus|]. split; [exact Hi|].
  intros Hq. destruct (Hn Hq) as [Hn1 Hn2]. rewrite Hn2. split.
  - f_equal. lia.
  - apply cond_gating_at_end; [exact edges_nonempty|]. cbn. exact Hn1.
Qed.
End NyquistGating.

(** C3 (amended).  In an outer iteration of either loop, the Nyquist
    warning is logged exactly when a correction of that iteration left
    the period below the floor [fnyquist].  It is then the last
    correction: the warning is followed by one push, that of the
    iteration, of [edgepos + iperiod_before/2] in the loop without a
    gate (the half period the iteration began with) and of
    [edgepos + period/2] in the loop with a gate (the violating period),
    for the [edgepos] the correction left, and the loop ends.  The
    offsets returned by a run are all the offsets pushed, and in its
    trace the warning is followed by that one push and nothing else. *)
Theorem nyquist_abort_appends_one_offset
  (edges : list Z) (tend initialPeriod halfPeriod fnyquist : Z)
  (gate : gate_waveform) :
  edges <> [] ->
  (forall st st',
     body_nogating edges initialPeriod halfPeriod fnyquist st = Ok st' ->
     exists evs x,
       n_log st' = n_log st ++ evs ++ [EvPush x] /\
       n_offsets st' = n_offsets st ++ [x] /\ pushes_of evs = [] /\
       has_nyquist evs = has_correction evs && (n_iperiod st' <? fnyquist) /\
       (has_nyquist evs = true ->
        (exists pre t, has_nyquist pre = false /\
                       evs = pre ++ [EvVisit t false true; EvNyquist]) /\
        x = n_edgepos st' - n_iperiod st' + idiv (n_iperiod st) 2 /\
        cond_nogating edges tend st' = false)) /\
  (forall st st',
     body_gating edges fnyquist gate st = Ok st' ->
     exists evs xs,
       g_log st' = g_log st ++ evs ++ map EvPush xs /\
       g_offsets st' = g_offsets st ++ xs /\ pushes_of evs = [] /\
       has_nyquist evs = has_correction evs && (g_period st' <? fnyquist) /\
       (has_nyquist evs = true ->
        (exists pre t, has_nyquist pre = false /\
                       evs = pre ++ [EvVisit t false true; EvNyquist]) /\
        xs = [g_edgepos st' - g_period st' + idiv (g_period st') 2] /\
        cond_gating edges tend st' = false)) /\
  (forall fuel offs0 offs log,
     InnerLoopWithNoGating edges tend initialPeriod halfPeriod fnyquist fuel offs0
       = Ok (offs, log) \/
     InnerLoopWithGating edges tend fnyquist gate fuel initialPeriod halfPeriod offs0
       = Ok (offs, log) ->
     offs = offs0 ++ pushes_of log /\
     forall pre post, log = pre ++ EvNyquist :: post ->
       (exists pre' t, pre = pre' ++ [EvVisit t false true]) /\
       (exists x, post = [EvPush x])).
Proof.
  intros Hne. split; [|split].
  - intros st st' Hb.
    destruct (body_nogating_nyquist edges tend initialPeriod halfPeriod fnyquist
                Hne st st' Hb) as (evs & x & Hl & Ho & Hx & Hi & Hc).
    exists evs, x. split; [exact Hl|]. split; [exact Ho|].
    split; [apply Hi|]. split; [now apply iteration_events_test|].
    intros Hq. split; [|split; [exact Hx | now apply Hc]].
    destruct Hi as (_ & [[Hq' _] | (_ & pre & t & Hpre & E)]); [congruence|]. eauto.
  - intros st st' Hb.
    destruct (body_gating_nyquist edges tend fnyquist gate Hne st st' Hb)
      as (us & evs & xs & Hl & Ho & Hus & Hi & Hc).
    assert (Hsil : pushes_of us = [] /\ has_nyquist us = false /\
                   has_correction us = false).
    { destruct Hus as [-> | (p & e & ->)]; repeat split. }
    destruct Hsil as (Hu1 & Hu2 & Hu3).
    exists (us ++ evs), xs. rewrite <- app_assoc. split; [exact Hl|].
    split; [exact Ho|].
    split; [rewrite pushes_of_app, Hu1; apply Hi|].
    rewrite has_nyquist_app, has_correction_app, Hu2, Hu3. cbn [orb].
    split; [now apply iteration_events_test|].
    intros Hq. destruct (Hc Hq) as [Hx Hcond]. split; [|split; assumption].
    destruct Hi as (_ & [[Hq' _] | (_ & pre & t & Hpre & E)]); [congruence|].
    exists (us ++ pre), t. rewrite has_nyquist_app, Hu2, Hpre, E, app_assoc. auto.
  - intros fuel offs0 offs log H.
    assert (Ht : offs = offs0 ++ pushes_of log /\ trace_ok log).
    { destruct H as [H | H].
      - eapply InnerLoopWithNoGating_trace; eassumption.
      - eapply InnerLoopWithGating_trace; eassumption. }
    destruct Ht as [Ho Ht]. split; [assumption|].
    intros pre post E.
    destruct Ht as [Hq | (pre0 & t & x & Hq & ->)].
    + subst log. rewrite has_nyquist_app in Hq. simpl in Hq.
      rewrite orb_true_r in Hq. discriminate.
    + destruct (first_nyquist_split (pre0 ++ [EvVisit t false true]) [EvPush x] pre post)
        as [-> ->].
      * rewrite has_nyquist_app, Hq. reflexivity.
      * reflexivity.
      * rewrite <- E, <- app_assoc. reflexivity.
      * split; eauto.
Qed.

(** ** The claims on example runs *)

Lemma nyquist_abort_appends_one_offset_witness :
  exists evs x,
    n_log nyquist_final = n_log nyquist_state ++ evs ++ [EvPush x] /\
    n_offsets nyquist_final = n_offsets nyquist_state ++ [x] /\
    pushes_of evs = [] /\
    has_nyquist evs = has_correction evs && (n_iperiod nyquist_final <? 1000) /\
    (has_nyquist evs = true ->
     (exists pre t, has_nyquist pre = false /\
                    evs = pre ++ [EvVisit t false true; EvNyquist]) /\
     x = n_edgepos nyquist_final - n_iperiod nyquist_final
         + idiv (n_iperiod nyquist_state) 2 /\
     cond_nogating nyquist_edges 20000 nyquist_final = false).
Proof.
  destruct (nyquist_abort_appends_one_offset nyquist_edges 20000 1000 500 1000 [])
    as (H & _).
  - discriminate.
  - apply (H nyquist_state nyquist_final). vm_compute. reflexivity.
Defined.

Lemma nyquist_abort_counterexample :
  exists offs log,
    InnerLoopWithNoGating nyquist_edges 20000 1000 500 1000 100 [] = Ok (offs, log) /\
    ~ no_push_after_nyquist log.
Proof.
  eexists. eexists. split; [vm_compute; reflexivity|].
  intros H.
  specialize (H [EvPush 500; EvPush 1500; EvVisit 1000 false false; EvPush 2500;
                 EvVisit 1900 false true] [EvPush 3498] eq_refl).
  discriminate H.
Qed.

(** The run over [zero_edges]: the edge at 1000 fs is the second one
    visited and is not corrected, because the edge visited before it is
    at timestamp 0. *)
Lemma correction_skipped_after_edge_at_zero_witness :
  InnerLoopWithNoGating zero_edges 4000 1000 500 2 10 []
  = Ok ([-500; 500; 1500; 2500; 3502],
        [EvPush (-500); EvPush 500; EvVisit 0 false false; EvPush 1500;
         EvVisit 1000 false false; EvPush 2500; EvVisit 2000 false true;
         EvPush 3502]) /\
  false = negb false
          && negb (last_visited 0 [EvPush (-500); EvPush 500; EvVisit 0 false false;
                                   EvPush 1500] =? 0).
Proof.
  assert (E : InnerLoopWithNoGating zero_edges 4000 1000 500 2 10 []
              = Ok ([-500; 500; 1500; 2500; 3502],
                    [EvPush (-500); EvPush 500; EvVisit 0 false false; EvPush 1500;
                     EvVisit 1000 false false; EvPush 2500; EvVisit 2000 false true;
                     EvPush 3502])) by (vm_compute; reflexivity).
  split; [exact E|].
  apply (correction_skipped_after_edge_at_zero zero_edges 4000 1000 500 2 [] 10 []
           [-500; 500; 1500; 2500; 3502]
           [EvPush (-500); EvPush 500; EvVisit 0 false false; EvPush 1500;
            EvVisit 1000 false false; EvPush 2500; EvVisit 2000 false true;
            EvPush 3502]
           ltac:(discriminate) (or_introl E)
           [EvPush (-500); EvPush 500; EvVisit 0 false false; EvPush 1500]
           1000 false false
           [EvPush 2500; EvVisit 2000 false true; EvPush 3502] eq_refl).
Defined.

(** In the words of the claim: the run over [zero_edges], which has no
    gate, has a visit other than the first that is not corrected. *)
Lemma second_visit_not_corrected :
  exists offs log,
    InnerLoopWithNoGating zero_edges 4000 1000 500 2 10 [] = Ok (offs, log) /\
    ~ all_but_first_corrected log.
Proof.
  eexists. eexists. split; [vm_compute; reflexivity|].
  intros H.
  specialize (H [EvPush (-500); EvPush 500; EvVisit 0 false false; EvPush 1500]
                1000 false false [EvPush 2500; EvVisit 2000 false true; EvPush 3502]
                eq_refl).
  discriminate H.
Qed.

(** C6 (what the code does).  For a capture that starts 2^40 fs after the
    time origin, with a gate that closes and opens again, the offsets
    [Refresh] produces are not increasing: the second one is smaller
    than the first. *)
Theorem gated_offsets_decrease :
  offsets_of (Refresh 10 true late_input (Some late_gate) late_baud false)
  = Some [T0 + 30000; T0 + 28501; T0 + 47501; T0 + 66501; T0 + 85501]
  /\ increasingb [T0 + 30000; T0 + 28501; T0 + 47501; T0 + 66501; T0 + 85501] = false.
Proof.
  split; vm_compute; reflexivity.
Qed.

(** With integer comparisons the same input is handled differently: the
    loop without a gate consumes the edges it passes. *)
Lemma late_input_without_gate :
  offsets_of (Refresh 10 true late_input None late_baud false)
  = Some [T0 + 30000; T0 + 90000].
Proof. vm_compute. reflexivity. Qed.
(* ================================================================== *)
(** * Properties of the floating-point arithmetic *)
(* ================================================================== *)

(** ** Number of binary digits *)

Lemma digits_pos m : 1 <= digits m.
Proof. unfold digits. lia. Qed.

Lemma digits_bounds m : 2 ^ (digits m - 1) <= Zpos m < 2 ^ digits m.
Proof.
  unfold digits. induction m as [m IH | m IH |]; cbn [digits2_pos].
  - rewrite Pos2Z.inj_succ.
    replace (Z.succ (Zpos (digits2_pos m)) - 1) with (Zpos (digits2_pos m) - 1 + 1) by lia.
    rewrite Z.pow_add_r by lia. rewrite Z.pow_succ_r by lia.
    rewrite (Pos2Z.inj_xI m). change (2 ^ 1) with 2. lia.
  - rewrite Pos2Z.inj_succ.
    replace (Z.succ (Zpos (digits2_pos m)) - 1) with (Zpos (digits2_pos m) - 1 + 1) by lia.
    rewrite Z.pow_add_r by lia. rewrite Z.pow_succ_r by lia.
    rewrite (Pos2Z.inj_xO m). change (2 ^ 1) with 2. lia.
  - simpl. lia.
Qed.

Lemma pow2_lt_exp a b : 0 <= b -> 2 ^ a < 2 ^ b -> a < b.
Proof.
  intros Hb H. destruct (Z.lt_ge_cases a b) as [|Hge]; [assumption|exfalso].
  assert (2 ^ b <= 2 ^ a) by (apply Z.pow_le_mono_r; lia). lia.
Qed.

Lemma digits_le_pow m k : 0 <= k -> Zpos m <= 2 ^ k -> digits m - 1 <= k.
Proof.
  intros Hk H. pose proof (digits_bounds m) as [Hl _]. pose proof (digits_pos m).
  destruct (Z.le_gt_cases (digits m - 1) k) as [|Hgt]; [assumption|exfalso].
  assert (2 ^ (k + 1) <= 2 ^ (digits m - 1)) by (apply Z.pow_le_mono_r; lia).
  rewrite Z.pow_add_r in * by lia. change (2 ^ 1) with 2 in *.
  assert (0 < 2 ^ k) by (apply Z.pow_pos_nonneg; lia). lia.
Qed.

Lemma digits_lt_pow m k : 0 <= k -> Zpos m < 2 ^ k -> digits m <= k.
Proof.
  intros Hk H. pose proof (digits_bounds m) as [Hl _]. pose proof (digits_pos m).
  assert (2 ^ (digits m - 1) < 2 ^ k) by lia.
  apply pow2_lt_exp in H1; lia.
Qed.

Lemma digits_gt_pow m k : 0 <= k -> 2 ^ k <= Zpos m -> k < digits m.
Proof.
  intros Hk H. pose proof (digits_bounds m) as [_ Hu]. pose proof (digits_pos m).
  apply pow2_lt_exp; lia.
Qed.

Lemma Zdigits2_pos m : Zdigits2 (Zpos m) = digits m.
Proof. reflexivity. Qed.

(** ** Right shifts with rounding information *)

Lemma shr_1_rel a : 0 <= shr_m a -> shr_rel 1 a (shr_1 a).
Proof.
  destruct a as [m r s]. cbn [shr_m]. intros Hm. unfold shr_rel, exact_record.
  change (2 ^ 1) with 2.
  destruct m as [|[p|p|]|p]; cbn [shr_1 shr_m shr_r shr_s]; try lia.
  - split; [reflexivity|]. split; [lia|]. intros [-> ->] _. split; reflexivity.
  - split; [|split; [lia|]].
    + rewrite (Pos2Z.inj_xI p). apply Z.div_unique with 1; lia.
    + intros _ H. exfalso. rewrite (Pos2Z.inj_xI p) in H.
      rewrite Z.add_comm, Z.mul_comm, Z_mod_plus_full in H. discriminate.
  - split; [|split; [lia|]].
    + rewrite (Pos2Z.inj_xO p). apply Z.div_unique with 0; lia.
    + intros [-> ->] _. split; reflexivity.
  - split; [reflexivity|]. split; [lia|]. intros _ H. discriminate H.
Qed.

Lemma shr_rel_comp n1 n2 a b c :
  0 <= n1 -> 0 <= n2 -> 0 <= shr_m a ->
  shr_rel n1 a b -> shr_rel n2 b c -> shr_rel (n1 + n2) a c.
Proof.
  intros H1 H2 Ha (Hb1 & Hb2 & Hb3) (Hc1 & Hc2 & Hc3).
  assert (P1 : 0 < 2 ^ n1) by (apply Z.pow_pos_nonneg; lia).
  assert (P2 : 0 < 2 ^ n2) by (apply Z.pow_pos_nonneg; lia).
  split; [|split].
  - rewrite Hc1, Hb1, Z.pow_add_r by lia. now rewrite Z.div_div by lia.
  - assumption.
  - intros Hea Hmod. rewrite Z.pow_add_r in Hmod by lia.
    apply Z.mod_divide in Hmod; [|lia]. destruct Hmod as [q Hq].
    assert (Ea : shr_m a mod 2 ^ n1 = 0).
    { apply Z.mod_divide; [lia|]. exists (q * 2 ^ n2). lia. }
    apply Hc3.
    + now apply Hb3.
    + rewrite Hb1. apply Z.mod_divide; [lia|]. exists q.
      rewrite Hq. replace (q * (2 ^ n1 * 2 ^ n2)) with (q * 2 ^ n2 * 2 ^ n1) by lia.
      now rewrite Z.div_mul by lia.
Qed.

Lemma iter_pos_shr_rel p : forall a,
  0 <= shr_m a -> shr_rel (Zpos p) a (iter_pos shr_1 p a).
Proof.
  induction p as [p IH | p IH |]; intros a Ha; cbn [iter_pos].
  - pose proof (shr_1_rel a Ha) as H1.
    assert (Hb : 0 <= shr_m (shr_1 a)) by apply H1.
    pose proof (IH _ Hb) as H2.
    assert (Hc : 0 <= shr_m (iter_pos shr_1 p (shr_1 a))) by apply H2.
    pose proof (IH _ Hc) as H3.
    rewrite (Pos2Z.inj_xI p).
    replace (2 * Zpos p + 1) with (1 + (Zpos p + Zpos p)) by lia.
    eapply shr_rel_comp; try lia; [exact H1|].
    eapply shr_rel_comp; try lia; eassumption.
  - pose proof (IH _ Ha) as H2.
    assert (Hc : 0 <= shr_m (iter_pos shr_1 p a)) by apply H2.
    pose proof (IH _ Hc) as H3.
    rewrite (Pos2Z.inj_xO p).
    replace (2 * Zpos p) with (Zpos p + Zpos p) by lia.
    eapply shr_rel_comp; try lia; eassumption.
  - now apply shr_1_rel.
Qed.

Lemma loc_of_record_of_loc m l : loc_of_shr_record (shr_record_of_loc m l) = l.
Proof. destruct l as [|[]]; reflexivity. Qed.

Lemma exact_loc mrs : exact_record mrs -> loc_of_shr_record mrs = loc_Exact.
Proof. destruct mrs as [m r s]. intros [H1 H2]. cbn in *. subst. reflexivity. Qed.

Lemma shr_spec m l e n :
  0 <= m ->
  let r := shr (shr_record_of_loc m l) e n in
  let n' := Z.max n 0 in
  snd r = e + n' /\ shr_m (fst r) = m / 2 ^ n' /\ 0 <= shr_m (fst r) /\
  (l = loc_Exact -> m mod 2 ^ n' = 0 -> loc_of_shr_record (fst r) = loc_Exact).
Proof.
  intros Hm. cbv zeta. unfold shr.
  assert (Hm0 : shr_m (shr_record_of_loc m l) = m) by (destruct l as [|[]]; reflexivity).
  destruct n as [|p|p]; cbn [fst snd].
  - rewrite Z.max_l by lia. rewrite Hm0, Z.div_1_r, Z.add_0_r.
    repeat split; try lia. intros -> _. reflexivity.
  - rewrite Z.max_l by lia.
    destruct (iter_pos_shr_rel p (shr_record_of_loc m l)) as (H1 & H2 & H3); [lia|].
    rewrite Hm0 in *. repeat split; try assumption.
    intros -> Hmod. apply exact_loc, H3; [split; reflexivity | assumption].
  - rewrite Z.max_r by lia. rewrite Hm0, Z.div_1_r, Z.add_0_r.
    repeat split; try lia. intros -> _. reflexivity.
Qed.

Lemma round_nearest_even_bounds m l :
  m <= round_nearest_even m l <= upper m l.
Proof.
  destruct l as [|[]]; cbn; try lia. destruct (Z.even m); lia.
Qed.

Lemma pow2_pos n : 0 <= n -> 0 < 2 ^ n.
Proof. intros. apply Z.pow_pos_nonneg; lia. Qed.

Lemma pow2_split a b : 0 <= b <= a -> 2 ^ a = 2 ^ b * 2 ^ (a - b).
Proof. intros H. rewrite <- Z.pow_add_r by lia. f_equal. lia. Qed.

Lemma div_pow2_le m a b : 0 <= b <= a -> m <= 2 ^ a -> m / 2 ^ b <= 2 ^ (a - b).
Proof.
  intros H Hm. pose proof (pow2_pos b ltac:(lia)).
  apply Z.div_le_upper_bound; [lia|]. rewrite <- pow2_split by lia. exact Hm.
Qed.

Lemma div_pow2_lt m a b : 0 <= b <= a -> m < 2 ^ a -> m / 2 ^ b < 2 ^ (a - b).
Proof.
  intros H Hm. pose proof (pow2_pos b ltac:(lia)).
  apply Z.div_lt_upper_bound; [lia|]. rewrite <- pow2_split by lia. exact Hm.
Qed.

Lemma div_pow2_ge m a b : 0 <= b <= a -> 2 ^ a <= m -> 2 ^ (a - b) <= m / 2 ^ b.
Proof.
  intros H Hm. pose proof (pow2_pos b ltac:(lia)).
  apply Z.div_le_lower_bound; [lia|]. rewrite <- pow2_split by lia. exact Hm.
Qed.

Lemma Zdigits2_bounds z : 0 < z -> 2 ^ (Zdigits2 z - 1) <= z < 2 ^ Zdigits2 z.
Proof. destruct z as [|p|p]; try lia. intros _. apply (digits_bounds p). Qed.

Lemma Zdigits2_ge1 z : 0 < z -> 1 <= Zdigits2 z.
Proof. destruct z as [|p|p]; try lia. intros _. apply (digits_pos p). Qed.

Lemma Zdigits2_le_pow z k : 0 <= z -> 0 <= k -> z <= 2 ^ k -> Zdigits2 z - 1 <= k.
Proof. destruct z as [|p|p]; try lia; [cbn; lia|]. intros _. apply (digits_le_pow p). Qed.

Lemma Zdigits2_gt_pow z k : 0 < z -> 0 <= k -> 2 ^ k <= z -> k < Zdigits2 z.
Proof. destruct z as [|p|p]; try lia. intros _. apply (digits_gt_pow p). Qed.

Section Rounding.
Variables prec emax : Z.
Hypothesis prec_pos : 0 < prec.

Local Abbreviation emin := (emin prec emax).
Local Abbreviation fexp := (fexp prec emax).
Local Abbreviation BRA := (binary_round_aux prec emax).

Lemma BRA_cases s z e l :
  0 <= z ->
  let n1 := round_shift prec emax z e in
  let m2 := z / 2 ^ n1 in
  exists m3,
    0 <= m2 <= m3 /\ m3 <= m2 + 1 /\
    (l = loc_Exact -> z mod 2 ^ n1 = 0 -> m3 = m2) /\
    let n2 := round_shift prec emax m3 (e + n1) in
    0 <= m3 / 2 ^ n2 /\
    BRA s z e l = BRA_result prec emax s (m3 / 2 ^ n2) (e + n1 + n2).
Proof.
  intros Hz. cbv zeta. unfold binary_round_aux, shr_fexp.
  pose proof (shr_spec z l e (fexp (Zdigits2 z + e) - e) Hz)
    as (E1 & M1 & P1 & X1).
  destruct (shr (shr_record_of_loc z l) e _) as [mrs1 e1]. cbn [fst snd] in *.
  set (m3 := round_nearest_even (shr_m mrs1) (loc_of_shr_record mrs1)).
  assert (B3 : shr_m mrs1 <= m3 <= upper (shr_m mrs1) (loc_of_shr_record mrs1))
    by apply round_nearest_even_bounds.
  assert (H3 : 0 <= m3) by lia.
  pose proof (shr_spec m3 loc_Exact e1 (fexp (Zdigits2 m3 + e1) - e1) H3)
    as (E2 & M2 & P2 & _).
  destruct (shr (shr_record_of_loc m3 loc_Exact) e1 _) as [mrs2 e2]. cbn [fst snd] in *.
  exists m3. fold (round_shift prec emax z e) in *.
  subst e1. fold (round_shift prec emax m3 (e + round_shift prec emax z e)) in *. rewrite <- M1.
  split; [|split; [|split; [|split]]].
  - lia.
  - destruct (loc_of_shr_record mrs1); cbn [upper] in B3; lia.
  - intros Hl Hm. rewrite (X1 Hl Hm) in B3. cbn [upper] in B3. lia.
  - rewrite <- M2. exact P2.
  - rewrite <- M2, E2. unfold BRA_result. reflexivity.
Qed.

Lemma fexp_ge_sub e : e - prec <= fexp e.
Proof. unfold SpecFloat.fexp. lia. Qed.

Lemma fexp_ge_emin e : emin <= fexp e.
Proof. unfold SpecFloat.fexp. lia. Qed.

Lemma fexp_le e k : e - prec <= k -> emin <= k -> fexp e <= k.
Proof. unfold SpecFloat.fexp. lia. Qed.

Lemma fexp_normal e : emin <= e - prec -> fexp e = e - prec.
Proof. unfold SpecFloat.fexp. lia. Qed.

Lemma round_shift_nonneg z e : 0 <= round_shift prec emax z e.
Proof. unfold round_shift. lia. Qed.

(** The result is never NaN, and carries the sign given. *)
Lemma BRA_shape s z e l :
  0 <= z ->
  BRA s z e l = S754_zero s \/ BRA s z e l = S754_infinity s \/
  exists m' e', BRA s z e l = S754_finite s m' e'.
Proof.
  intros Hz.
  destruct (BRA_cases s z e l Hz) as (m3 & _ & _ & _ & P & ->).
  unfold BRA_result. destruct (_ / _) as [|p|p]; [auto | | lia].
  destruct (_ <=? _); eauto.
Qed.

(** An upper bound by a power of two survives the rounding. *)
Lemma BRA_upper s z e l k :
  0 <= z -> emin <= k -> e <= k -> upper z l <= 2 ^ (k - e) ->
  BRA s z e l = S754_zero s \/
  (k > emax - prec /\ BRA s z e l = S754_infinity s) \/
  exists m' e', BRA s z e l = S754_finite s m' e' /\ Zpos m' <= 2 ^ (k - e').
Proof.
  intros Hz Hk He Hu.
  destruct (BRA_cases s z e l Hz) as (m3 & P2 & B3 & X3 & P & ->).
  set (n1 := round_shift prec emax z e) in *. set (n2 := round_shift prec emax m3 (e + n1)) in *.
  set (K := k - e) in *.
  assert (Hm : z <= 2 ^ K) by (destruct l; cbn [upper] in Hu; lia).
  pose proof (Zdigits2_le_pow z K Hz ltac:(lia) Hm) as Hd.
  assert (N1 : 0 <= n1 <= K).
  { unfold n1, round_shift. split; [lia|]. apply Z.max_lub; [|lia].
    assert (fexp (Zdigits2 z + e) <= k) by (apply fexp_le; lia). lia. }
  assert (H3 : m3 <= 2 ^ (K - n1)).
  { destruct l as [|c].
    - destruct (Z.eq_dec (z mod 2 ^ n1) 0) as [E | E].
      + rewrite (X3 eq_refl E). apply div_pow2_le; lia.
      + assert (z <> 2 ^ K).
        { intros E'. apply E. rewrite E', (pow2_split K n1) by lia.
          rewrite Z.mul_comm. apply Z_mod_mult. }
        assert (z / 2 ^ n1 < 2 ^ (K - n1)) by (apply div_pow2_lt; lia). lia.
    - cbn [upper] in Hu.
      assert (z / 2 ^ n1 < 2 ^ (K - n1)) by (apply div_pow2_lt; lia). lia. }
  unfold BRA_result. destruct (m3 / 2 ^ n2) as [|p|p] eqn:E4; [auto | | lia].
  right.
  assert (P3 : 0 < m3).
  { destruct (Z.eq_dec m3 0) as [E | E]; [|lia]. rewrite E in E4.
    assert (0 < 2 ^ n2) by (apply pow2_pos; unfold n2, round_shift; lia).
    rewrite Z.div_0_l in E4; [discriminate | lia]. }
  pose proof (Zdigits2_le_pow m3 (K - n1) ltac:(lia) ltac:(lia) H3) as Hd3.
  assert (N2 : 0 <= n2 <= K - n1).
  { unfold n2, round_shift. split; [lia|]. apply Z.max_lub; [|lia].
    assert (fexp (Zdigits2 m3 + (e + n1)) <= k) by (apply fexp_le; lia). lia. }
  assert (H4 : m3 / 2 ^ n2 <= 2 ^ (K - n1 - n2)) by (apply div_pow2_le; lia).
  destruct (e + n1 + n2 <=? emax - prec) eqn:Ef.
  - right. exists p, (e + n1 + n2). split; [reflexivity|].
    replace (k - (e + n1 + n2)) with (K - n1 - n2) by lia. lia.
  - left. apply Z.leb_gt in Ef. split; [lia | reflexivity].
Qed.

(** So does a lower bound, and the result is not zero, outside of the
    subnormal range. *)
Lemma BRA_lower s z e l k :
  0 < z -> emin < Zdigits2 z + e -> 2 ^ (k - e) <= z ->
  BRA s z e l = S754_infinity s \/
  exists m' e', BRA s z e l = S754_finite s m' e' /\
                Zpos m' < 2 ^ prec /\ 2 ^ (k - e') <= Zpos m'.
Proof.
  intros Hz Hr Hl.
  destruct (BRA_cases s z e l ltac:(lia)) as (m3 & P2 & B3 & X3 & P & ->).
  set (n1 := round_shift prec emax z e) in *. set (n2 := round_shift prec emax m3 (e + n1)) in *.
  set (K := k - e) in *. set (d := Zdigits2 z) in *.
  pose proof (Zdigits2_bounds z Hz) as [Dl Du]. fold d in Dl, Du.
  pose proof (Zdigits2_ge1 z Hz) as Dp. fold d in Dp.
  pose proof (fexp_ge_sub (d + e)) as F1.
  assert (N1 : 0 <= n1 <= d - 1).
  { unfold n1, round_shift. fold d. split; [lia|]. apply Z.max_lub; [|lia].
    assert (fexp (d + e) <= d + e - 1) by (apply fexp_le; lia). lia. }
  assert (N1' : d - prec <= n1) by (unfold n1, round_shift; fold d; lia).
  assert (H2 : 2 ^ (d - 1 - n1) <= z / 2 ^ n1) by (apply div_pow2_ge; lia).
  assert (H2' : z / 2 ^ n1 < 2 ^ prec).
  { pose proof (pow2_pos n1 ltac:(lia)).
    apply Z.div_lt_upper_bound; [lia|]. rewrite <- Z.pow_add_r by lia.
    assert (2 ^ d <= 2 ^ (n1 + prec)) by (apply Z.pow_le_mono_r; lia). lia. }
  assert (P3 : 0 < m3).
  { pose proof (pow2_pos (d - 1 - n1) ltac:(lia)). lia. }
  set (d3 := Zdigits2 m3) in *.
  pose proof (Zdigits2_bounds m3 P3) as [D3l D3u]. fold d3 in D3l, D3u.
  assert (D3 : d - n1 <= d3).
  { assert (d - 1 - n1 < d3); [|lia].
    apply (Zdigits2_gt_pow m3); lia. }
  pose proof (fexp_ge_sub (d3 + (e + n1))) as F2.
  assert (N2 : 0 <= n2 <= d3 - 1).
  { unfold n2, round_shift. fold d3. split; [lia|]. apply Z.max_lub; [|lia].
    assert (fexp (d3 + (e + n1)) <= d3 + (e + n1) - 1) by (apply fexp_le; lia). lia. }
  assert (N2' : d3 - prec <= n2) by (unfold n2, round_shift; fold d3; lia).
  assert (H4 : 2 ^ (d3 - 1 - n2) <= m3 / 2 ^ n2) by (apply div_pow2_ge; lia).
  assert (H4' : m3 / 2 ^ n2 < 2 ^ prec).
  { pose proof (pow2_pos n2 ltac:(lia)).
    apply Z.div_lt_upper_bound; [lia|]. rewrite <- Z.pow_add_r by lia.
    assert (2 ^ d3 <= 2 ^ (n2 + prec)) by (apply Z.pow_le_mono_r; lia). lia. }
  pose proof (pow2_pos (d3 - 1 - n2) ltac:(lia)) as P4.
  unfold BRA_result. destruct (m3 / 2 ^ n2) as [|p|p] eqn:E4; try lia.
  destruct (e + n1 + n2 <=? emax - prec); [right | now left].
  exists p, (e + n1 + n2). split; [reflexivity|]. split; [lia|].
  destruct (Z.le_gt_cases (n1 + n2) K) as [Hle | Hgt].
  - replace (k - (e + n1 + n2)) with (K - n1 - n2) by lia.
    assert (2 ^ (K - n1) <= z / 2 ^ n1) by (apply div_pow2_ge; lia).
    assert (2 ^ (K - n1 - n2) <= m3 / 2 ^ n2) by (apply div_pow2_ge; lia).
    lia.
  - rewrite Z.pow_neg_r by lia. lia.
Qed.

(** With at least [prec] digits and in the normal range, the mantissa of
    the result is normal. *)
Lemma BRA_normal s z e l m' e' :
  0 < z -> prec <= Zdigits2 z -> emin <= Zdigits2 z + e - prec ->
  BRA s z e l = S754_finite s m' e' ->
  2 ^ (prec - 1) <= Zpos m' < 2 ^ prec.
Proof.
  intros Hz Hp Hr.
  destruct (BRA_cases s z e l ltac:(lia)) as (m3 & P2 & B3 & X3 & P & ->).
  set (n1 := round_shift prec emax z e) in *. set (n2 := round_shift prec emax m3 (e + n1)) in *.
  set (d := Zdigits2 z) in *.
  pose proof (Zdigits2_bounds z Hz) as [Dl Du]. fold d in Dl, Du.
  assert (N1 : n1 = d - prec).
  { unfold n1, round_shift. fold d. rewrite fexp_normal by lia. lia. }
  assert (H2 : 2 ^ (d - 1 - n1) <= z / 2 ^ n1) by (apply div_pow2_ge; lia).
  assert (H2' : z / 2 ^ n1 < 2 ^ (d - n1)) by (apply div_pow2_lt; lia).
  replace (d - 1 - n1) with (prec - 1) in H2 by lia.
  replace (d - n1) with prec in H2' by lia.
  pose proof (pow2_pos (prec - 1) ltac:(lia)) as Pp.
  assert (P3 : 0 < m3) by lia.
  set (d3 := Zdigits2 m3) in *.
  pose proof (Zdigits2_bounds m3 P3) as [D3l D3u]. fold d3 in D3l, D3u.
  assert (D3 : prec <= d3).
  { assert (prec - 1 < d3); [|lia]. apply (Zdigits2_gt_pow m3); lia. }
  assert (N2 : n2 = d3 - prec).
  { unfold n2, round_shift. fold d3. rewrite fexp_normal by lia. lia. }
  assert (H4 : 2 ^ (d3 - 1 - n2) <= m3 / 2 ^ n2) by (apply div_pow2_ge; lia).
  assert (H4' : m3 / 2 ^ n2 < 2 ^ (d3 - n2)) by (apply div_pow2_lt; lia).
  replace (d3 - 1 - n2) with (prec - 1) in H4 by lia.
  replace (d3 - n2) with prec in H4' by lia.
  unfold BRA_result. destruct (m3 / 2 ^ n2) as [|p|p]; try discriminate.
  destruct (_ <=? _); [|discriminate]. intros E. injection E as <- _. lia.
Qed.
End Rounding.

Lemma iter_xO m d : Zpos (Pos.iter xO m d) = Zpos m * 2 ^ Zpos d.
Proof.
  induction d as [|d IH] using Pos.peano_ind.
  - cbn [Pos.iter]. rewrite (Pos2Z.inj_xO m). lia.
  - rewrite Pos.iter_succ, (Pos2Z.inj_xO (Pos.iter xO m d)), IH, Pos2Z.inj_succ.
    rewrite Z.pow_succ_r by lia. lia.
Qed.

Lemma shl_align_spec m e e' :
  snd (shl_align m e e') = Z.min e e' /\
  Zpos (fst (shl_align m e e')) = Zpos m * 2 ^ (e - Z.min e e').
Proof.
  unfold shl_align. destruct (e' - e) as [|d|d] eqn:E; cbn [fst snd].
  - rewrite Z.min_l by lia. rewrite Z.sub_diag. lia.
  - rewrite Z.min_l by lia. rewrite Z.sub_diag. lia.
  - rewrite Z.min_r by lia. split; [reflexivity|].
    rewrite iter_xO. do 2 f_equal. lia.
Qed.

Lemma pow2_le_exp a b : 0 <= b -> 2 ^ a <= 2 ^ b -> 0 <= a -> a <= b.
Proof.
  intros Hb H Ha. destruct (Z.le_gt_cases a b) as [|G]; [assumption|].
  assert (2 ^ b < 2 ^ a) by (apply Z.pow_lt_mono_r; lia). lia.
Qed.

Lemma le_pow_exp z k : 0 < z -> z <= 2 ^ k -> 0 <= k.
Proof.
  intros Hz H. destruct (Z.le_gt_cases 0 k); [assumption|].
  rewrite Z.pow_neg_r in H by lia. lia.
Qed.

Lemma ge_pow_digits z k e : 0 < z -> 2 ^ (k - e) <= z -> k < Zdigits2 z + e.
Proof.
  intros Hz H. pose proof (Zdigits2_ge1 z Hz).
  destruct (Z.le_gt_cases 0 (k - e)); [|lia].
  pose proof (Zdigits2_gt_pow z (k - e) Hz ltac:(lia) H). lia.
Qed.

Lemma Zdigits2_mul_pow2 z j : 0 < z -> 0 <= j -> Zdigits2 (z * 2 ^ j) = Zdigits2 z + j.
Proof.
  intros Hz Hj. pose proof (Zdigits2_bounds z Hz) as [L U].
  pose proof (Zdigits2_ge1 z Hz) as G.
  pose proof (pow2_pos j Hj) as Pj.
  assert (P : 0 < z * 2 ^ j) by lia.
  assert (L' : 2 ^ (Zdigits2 z - 1 + j) <= z * 2 ^ j).
  { rewrite Z.pow_add_r by lia. apply Z.mul_le_mono_nonneg_r; lia. }
  assert (U' : z * 2 ^ j < 2 ^ (Zdigits2 z + j)).
  { rewrite Z.pow_add_r by lia. apply Z.mul_lt_mono_pos_r; lia. }
  pose proof (Zdigits2_gt_pow (z * 2 ^ j) (Zdigits2 z - 1 + j) P ltac:(lia) L').
  pose proof (Zdigits2_bounds _ P) as [L2 U2].
  assert (Zdigits2 (z * 2 ^ j) - 1 < Zdigits2 z + j); [|lia].
  apply pow2_lt_exp; lia.
Qed.

Section FormatBounds.
Variables prec emax : Z.
Hypothesis prec_pos : 0 < prec.
Hypothesis emax_ge : 2 <= emax.

Local Abbreviation emin := (emin prec emax).
Local Abbreviation fexp := (fexp prec emax).
Local Abbreviation BRA := (binary_round_aux prec emax).

Lemma emin_le_0 : emin <= 0.
Proof. unfold SpecFloat.emin. lia. Qed.

Lemma BRA_bounded s z e l : 0 <= z -> mant_bounded prec (BRA s z e l).
Proof.
  intros Hz.
  destruct (BRA_cases prec emax s z e l Hz) as (m3 & P2 & B3 & X3 & P & ->).
  set (n1 := round_shift prec emax z e) in *.
  set (n2 := round_shift prec emax m3 _) in *.
  unfold BRA_result. destruct (m3 / 2 ^ n2) as [|p|p] eqn:E4; cbn; trivial.
  destruct (_ <=? _); cbn; trivial.
  assert (N2 : 0 <= n2) by apply round_shift_nonneg.
  pose proof (pow2_pos n2 N2) as Pn.
  assert (P3 : 0 < m3).
  { destruct (Z.eq_dec m3 0) as [E | E]; [|lia]. rewrite E in E4.
    rewrite Z.div_0_l in E4; [discriminate | lia]. }
  pose proof (Zdigits2_bounds m3 P3) as [_ U].
  pose proof (fexp_ge_sub prec emax (Zdigits2 m3 + (e + n1))) as F.
  assert (N2' : Zdigits2 m3 - prec <= n2) by (unfold n2, round_shift; lia).
  rewrite <- E4. apply Z.div_lt_upper_bound; [lia|].
  rewrite <- Z.pow_add_r by lia.
  assert (2 ^ Zdigits2 m3 <= 2 ^ (n2 + prec)) by (apply Z.pow_le_mono_r; lia). lia.
Qed.

Lemma BRA_nonneg z e l : 0 <= z -> nonneg (BRA false z e l).
Proof.
  intros Hz. destruct (BRA_shape prec emax false z e l Hz) as [-> | [-> | (m & e' & ->)]];
    reflexivity.
Qed.

Lemma BRA_le_pow2 s z e l k :
  0 <= z -> emin <= k -> e <= k -> k <= emax - prec ->
  upper z l <= 2 ^ (k - e) -> le_pow2 (BRA s z e l) k.
Proof.
  intros Hz Hk He Hm Hu.
  destruct (BRA_upper prec emax prec_pos s z e l k Hz Hk He Hu)
    as [-> | [[G _] | (m & e' & -> & B)]]; cbn; trivial; lia.
Qed.

Lemma BRA_ge_pow2 s z e l k :
  0 < z -> emin < Zdigits2 z + e -> 2 ^ (k - e) <= z -> ge_pow2 (BRA s z e l) k.
Proof.
  intros Hz Hr Hl.
  destruct (BRA_lower prec emax prec_pos s z e l k Hz Hr Hl)
    as [-> | (m & e' & -> & B & G)]; cbn; trivial.
Qed.

(** ** [binary_round] *)

Lemma binary_round_eq s m e :
  let e' := Z.min e (fexp (digits m + e)) in
  binary_round prec emax s m e =
  BRA s (Zpos m * 2 ^ (e - e')) e' loc_Exact.
Proof.
  cbv zeta. unfold binary_round. fold (digits m).
  pose proof (shl_align_spec m e (fexp (digits m + e))) as [E1 E2].
  destruct (shl_align m e _) as [mz ez]. cbn [fst snd] in *.
  subst ez. rewrite E2. reflexivity.
Qed.

Lemma binary_round_nonneg m e : nonneg (binary_round prec emax false m e).
Proof.
  rewrite binary_round_eq. apply BRA_nonneg.
  assert (0 <= 2 ^ (e - Z.min e (fexp (digits m + e)))) by (apply Z.pow_nonneg; lia). lia.
Qed.

Lemma binary_round_bounded s m e : mant_bounded prec (binary_round prec emax s m e).
Proof.
  rewrite binary_round_eq. apply BRA_bounded.
  assert (0 <= 2 ^ (e - Z.min e (fexp (digits m + e)))) by (apply Z.pow_nonneg; lia). lia.
Qed.

Lemma binary_round_le_pow2 s m e k :
  emin <= k -> k <= emax - prec -> Zpos m <= 2 ^ (k - e) ->
  le_pow2 (binary_round prec emax s m e) k.
Proof.
  intros Hk Hm Hu. rewrite binary_round_eq.
  set (e' := Z.min e (fexp (digits m + e))).
  pose proof (le_pow_exp _ _ (Pos2Z.is_pos m) Hu) as Hke.
  pose proof (pow2_pos (e - e') ltac:(lia)) as Pj.
  apply BRA_le_pow2; try lia. cbn [upper].
  replace (k - e') with (k - e + (e - e')) by lia.
  rewrite Z.pow_add_r by lia. apply Z.mul_le_mono_nonneg_r; lia.
Qed.

Lemma binary_round_ge_pow2 s m e k :
  emin < digits m + e -> 2 ^ (k - e) <= Zpos m ->
  ge_pow2 (binary_round prec emax s m e) k.
Proof.
  intros Hr Hl. rewrite binary_round_eq.
  set (e' := Z.min e (fexp (digits m + e))).
  pose proof (pow2_pos (e - e') ltac:(lia)) as Pj.
  apply BRA_ge_pow2.
  - lia.
  - rewrite Zdigits2_mul_pow2 by lia. rewrite Zdigits2_pos. lia.
  - destruct (Z.le_gt_cases e k) as [Hle | Hgt].
    + replace (k - e') with (k - e + (e - e')) by lia.
      rewrite Z.pow_add_r by lia. apply Z.mul_le_mono_nonneg_r; lia.
    + destruct (Z.le_gt_cases e' k) as [Hle' | Hgt'].
      * assert (2 ^ (k - e') <= 2 ^ (e - e')) by (apply Z.pow_le_mono_r; lia). nia.
      * rewrite Z.pow_neg_r by lia. lia.
Qed.

Lemma binary_round_normal s m e :
  emin <= digits m + e - prec -> mant_normal prec (binary_round prec emax s m e).
Proof.
  intros Hr. rewrite binary_round_eq.
  set (e' := Z.min e (fexp (digits m + e))).
  pose proof (pow2_pos (e - e') ltac:(lia)) as Pj.
  set (z := Zpos m * 2 ^ (e - e')).
  assert (Hz : 0 < z) by (unfold z; lia).
  assert (D : Zdigits2 z = digits m + (e - e')).
  { unfold z. rewrite Zdigits2_mul_pow2 by lia. now rewrite Zdigits2_pos. }
  assert (F : fexp (digits m + e) = digits m + e - prec) by (apply fexp_normal; lia).
  destruct (BRA_shape prec emax s z e' loc_Exact ltac:(lia)) as [E | [E | (m' & e2 & E)]];
    rewrite E; cbn; trivial.
  apply (BRA_normal prec emax prec_pos s z e' loc_Exact m' e2); try lia; exact E.
Qed.

(** ** Conversions *)

Lemma of_Z_nonneg z : 0 <= z -> nonneg (IEEE.of_Z prec emax z).
Proof.
  unfold IEEE.of_Z, binary_normalize. destruct z as [|p|p]; try lia; intros _.
  - reflexivity.
  - apply binary_round_nonneg.
Qed.

Lemma of_Z_le_pow2 z k :
  0 <= z <= 2 ^ k -> 0 <= k <= emax - prec -> le_pow2 (IEEE.of_Z prec emax z) k.
Proof.
  unfold IEEE.of_Z, binary_normalize. destruct z as [|p|p]; try lia; intros Hz Hk.
  - exact I.
  - pose proof emin_le_0. apply binary_round_le_pow2; try lia.
    now rewrite Z.sub_0_r.
Qed.

Lemma of_Z_ge_pow2 z k :
  0 < z -> 2 ^ k <= z -> ge_pow2 (IEEE.of_Z prec emax z) k.
Proof.
  unfold IEEE.of_Z, binary_normalize. destruct z as [|p|p]; try lia; intros _ Hk.
  pose proof emin_le_0. pose proof (digits_pos p).
  apply binary_round_ge_pow2; try lia. now rewrite Z.sub_0_r.
Qed.

Lemma of_Z_normal z : mant_normal prec (IEEE.of_Z prec emax z).
Proof.
  unfold IEEE.of_Z, binary_normalize. destruct z as [|p|p]; try exact I;
    apply binary_round_normal; pose proof (digits_pos p); unfold SpecFloat.emin; lia.
Qed.

(** A positive integer in range becomes a positive finite float. *)
Lemma of_Z_finite z a b :
  0 < z -> 2 ^ a <= z <= 2 ^ b -> 0 <= b <= emax - prec ->
  exists m e, IEEE.of_Z prec emax z = S754_finite false m e /\
              2 ^ (a - e) <= Zpos m <= 2 ^ (b - e) /\
              2 ^ (prec - 1) <= Zpos m < 2 ^ prec.
Proof.
  intros Hz [Ha Hb] Hk.
  pose proof (of_Z_nonneg z ltac:(lia)) as N.
  pose proof (of_Z_le_pow2 z b ltac:(lia) Hk) as U.
  pose proof (of_Z_ge_pow2 z a Hz Ha) as L.
  pose proof (of_Z_normal z) as M.
  destruct (IEEE.of_Z prec emax z) as [s | s | | s m e]; cbn in *; try contradiction.
  subst s. exists m, e. repeat split; lia.
Qed.

Lemma of_float_zero x : is_zero x = true -> is_zero (IEEE.of_float prec emax x) = true.
Proof. destruct x; cbn; congruence. Qed.

Lemma of_float_le_pow2 x k :
  emin <= k -> k <= emax - prec -> le_pow2 x k -> le_pow2 (IEEE.of_float prec emax x) k.
Proof.
  intros Hk Hm. destruct x as [s | s | | s m e]; cbn; trivial.
  intros H. destruct s; cbn; apply binary_round_le_pow2; assumption.
Qed.

Lemma of_float_nonzero p x :
  whole p x -> is_zero x = false -> is_zero (IEEE.of_float prec emax x) = false.
Proof.
  destruct x as [s | s | | s m e]; cbn [whole is_zero IEEE.of_float]; try congruence.
  intros [L _] _. pose proof emin_le_0.
  pose proof (ge_pow_digits (Zpos m) 0 e ltac:(lia) L) as G. rewrite Zdigits2_pos in G.
  destruct s; cbn [cond_Zopp binary_normalize Z.opp].
  - pose proof (binary_round_ge_pow2 true m e 0 ltac:(lia) L) as G2.
    destruct (binary_round prec emax true m e); cbn in *; trivial; contradiction.
  - pose proof (binary_round_ge_pow2 false m e 0 ltac:(lia) L) as G2.
    destruct (binary_round prec emax false m e); cbn in *; trivial; contradiction.
Qed.

(** An integer that is at most an eighth of [2^D]. *)
Lemma of_Z_le_eighth z D :
  0 <= z -> 8 * z <= 2 ^ D -> D - 3 <= emax - prec ->
  le_pow2 (IEEE.of_Z prec emax z) (D - 3).
Proof.
  intros Hz H8 HD. destruct (Z.eq_dec z 0) as [-> | Nz]; [exact I|].
  assert (3 <= D).
  { destruct (Z.le_gt_cases 0 D) as [P | P].
    - apply (pow2_le_exp 3 D P); [|lia]. change (2 ^ 3) with 8. lia.
    - rewrite Z.pow_neg_r in H8 by lia. lia. }
  assert (E : 2 ^ D = 8 * 2 ^ (D - 3)).
  { change 8 with (2 ^ 3). rewrite <- Z.pow_add_r by lia. f_equal. lia. }
  apply of_Z_le_pow2; lia.
Qed.

Lemma of_float_whole p x :
  nonneg x -> whole p x -> nonneg (IEEE.of_float prec emax x) /\ whole prec (IEEE.of_float prec emax x).
Proof.
  destruct x as [s | s | | s m e]; cbn; auto.
  intros -> [L _]. cbn. split; [apply binary_round_nonneg|].
  pose proof emin_le_0.
  pose proof (ge_pow_digits (Zpos m) 0 e ltac:(lia) L) as G. rewrite Zdigits2_pos in G.
  pose proof (binary_round_ge_pow2 false m e 0 ltac:(lia) L) as G2.
  pose proof (binary_round_bounded false m e) as B.
  destruct (binary_round prec emax false m e); cbn in *; trivial. lia.
Qed.

(** ** Multiplication and division *)

Lemma mul_nonneg x y : nonneg x -> nonneg y -> nonneg (IEEE.mul prec emax x y).
Proof.
  unfold IEEE.mul, SFmul.
  destruct x as [sx | sx | | sx mx ex], y as [sy | sy | | sy my ey]; cbn [nonneg];
    intros; subst; try reflexivity; try exact I.
  apply BRA_nonneg. lia.
Qed.

Lemma mul_le_pow2 x y a b :
  emin <= a + b -> a + b <= emax - prec ->
  le_pow2 x a -> le_pow2 y b -> le_pow2 (IEEE.mul prec emax x y) (a + b).
Proof.
  intros Hk Hm. unfold IEEE.mul, SFmul.
  destruct x as [sx | sx | | sx mx ex], y as [sy | sy | | sy my ey]; cbn [le_pow2];
    intros Hx Hy; try contradiction; try exact I.
  pose proof (le_pow_exp _ _ (Pos2Z.is_pos mx) Hx).
  pose proof (le_pow_exp _ _ (Pos2Z.is_pos my) Hy).
  apply BRA_le_pow2; try lia. cbn [upper].
  replace (a + b - (ex + ey)) with ((a - ex) + (b - ey)) by lia.
  rewrite Z.pow_add_r, Pos2Z.inj_mul by lia.
  apply Z.mul_le_mono_nonneg; lia.
Qed.

Lemma SFdiv_core_spec mx ex my ey :
  let r := SFdiv_core_binary prec emax (Zpos mx) ex (Zpos my) ey in
  let e' := snd (fst r) in
  let q := fst (fst r) in
  e' <= ex - ey /\ e' <= fexp (digits mx + ex - (digits my + ey)) /\ 0 <= q /\
  exists rem, Zpos mx * 2 ^ (ex - ey - e') = Zpos my * q + rem /\
              0 <= rem < Zpos my /\ (rem = 0 -> snd r = loc_Exact).
Proof.
  cbv zeta. unfold SFdiv_core_binary. rewrite !Zdigits2_pos.
  set (e' := Z.min _ _). set (s := ex - ey - e').
  assert (Hs : 0 <= s) by (unfold s, e'; lia).
  set (m' := match s with Z0 => Zpos mx | Zpos _ => Z.shiftl (Zpos mx) s | Zneg _ => 0 end).
  assert (Hm : m' = Zpos mx * 2 ^ s).
  { unfold m'. destruct s as [|p|p] eqn:E; [lia | | lia].
    rewrite Z.shiftl_mul_pow2 by lia. reflexivity. }
  pose proof (Z_div_mod m' (Zpos my) eq_refl) as H.
  destruct (Z.div_eucl m' (Zpos my)) as [q r]. cbn [fst snd].
  destruct H as [H1 H2].
  pose proof (pow2_pos s Hs).
  split; [unfold e'; lia|]. split; [unfold e'; lia|]. split; [nia|].
  exists r. split; [fold s; lia|]. split; [lia|].
  intros ->. unfold new_location, new_location_even, new_location_odd.
  destruct (Z.even _); reflexivity.
Qed.

Lemma div_nonneg x y : nonneg x -> nonneg y -> nonneg (IEEE.div prec emax x y).
Proof.
  unfold IEEE.div, SFdiv.
  destruct x as [sx | sx | | sx mx ex], y as [sy | sy | | sy my ey]; cbn [nonneg];
    intros; subst; try reflexivity; try exact I.
  pose proof (SFdiv_core_spec mx ex my ey) as (_ & _ & Q & _).
  destruct (SFdiv_core_binary _ _ _ _ _ _) as [[q e'] l]. cbn [fst snd] in Q.
  apply BRA_nonneg. exact Q.
Qed.

Lemma div_bounded x y : mant_bounded prec (IEEE.div prec emax x y).
Proof.
  unfold IEEE.div, SFdiv.
  destruct x as [sx | sx | | sx mx ex], y as [sy | sy | | sy my ey];
    cbn [mant_bounded]; trivial.
  pose proof (SFdiv_core_spec mx ex my ey) as (_ & _ & Q & _).
  destruct (SFdiv_core_binary _ _ _ _ _ _) as [[q e'] l]. cbn [fst snd] in Q.
  apply BRA_bounded. exact Q.
Qed.

Lemma div_le_pow2 x sy my ey a b :
  emin <= a - b -> a - b <= emax - prec ->
  le_pow2 x a -> 2 ^ (b - ey) <= Zpos my ->
  le_pow2 (IEEE.div prec emax x (S754_finite sy my ey)) (a - b).
Proof.
  intros Hk Hm. unfold IEEE.div, SFdiv.
  destruct x as [sx | sx | | sx mx ex]; cbn [le_pow2]; intros Hx Hy;
    try contradiction; try exact I.
  pose proof (SFdiv_core_spec mx ex my ey) as (E1 & E2 & Q & rem & Hq & Hr & Hl).
  destruct (SFdiv_core_binary _ _ _ _ _ _) as [[q e'] l]. cbn [fst snd] in *.
  pose proof (le_pow_exp _ _ (Pos2Z.is_pos mx) Hx) as Ha.
  pose proof (digits_le_pow mx (a - ex) Ha Hx) as Dx.
  pose proof (ge_pow_digits (Zpos my) b ey ltac:(lia) Hy) as Dy.
  rewrite Zdigits2_pos in Dy.
  assert (Ek : e' <= a - b).
  { assert (fexp (digits mx + ex - (digits my + ey)) <= a - b)
      by (apply fexp_le; lia). lia. }
  set (K := a - b - e').
  set (s := ex - ey - e') in *.
  pose proof (pow2_pos s ltac:(lia)) as Ps.
  pose proof (pow2_pos K ltac:(unfold K; lia)) as PK.
  (* mx * 2^s <= 2^K * my *)
  assert (Hmain : Zpos mx * 2 ^ s <= 2 ^ K * Zpos my).
  { assert (A1 : Zpos mx * 2 ^ s <= 2 ^ (a - ex + s)).
    { rewrite Z.pow_add_r by lia. apply Z.mul_le_mono_nonneg_r; lia. }
    assert (A2 : 2 ^ (a - ex + s) <= 2 ^ K * Zpos my).
    { destruct (Z.le_gt_cases ey b) as [Hle | Hgt].
      - replace (a - ex + s) with (K + (b - ey)) by (unfold K, s; lia).
        rewrite Z.pow_add_r by (unfold K; lia).
        apply Z.mul_le_mono_nonneg_l; lia.
      - assert (2 ^ (a - ex + s) <= 2 ^ K)
          by (apply Z.pow_le_mono_r; unfold K, s; lia).
        nia. }
    lia. }
  apply BRA_le_pow2; try lia. fold K.
  assert (Hq' : q <= 2 ^ K) by nia.
  destruct (Z.eq_dec rem 0) as [R0 | R0].
  - rewrite (Hl R0). cbn [upper]. exact Hq'.
  - assert (q < 2 ^ K) by nia. destruct l; cbn [upper]; lia.
Qed.

(** ** Rounding to an integer *)

Lemma round_small x : le_pow2 x (-2) -> is_zero (IEEE.round prec emax x) = true.
Proof.
  destruct x as [s | s | | s m e]; cbn [le_pow2 IEEE.round]; try contradiction; trivial.
  intros H. pose proof (le_pow_exp _ _ (Pos2Z.is_pos m) H) as He.
  destruct (0 <=? e) eqn:E; [apply Z.leb_le in E; lia|].
  rewrite Z.shiftl_1_l, Z.shiftr_div_pow2 by lia.
  pose proof (pow2_pos (-2 - e) ltac:(lia)) as P.
  assert (E1 : 2 ^ (- e - 1) = 2 * 2 ^ (-2 - e)).
  { replace (- e - 1) with (Z.succ (-2 - e)) by lia. apply Z.pow_succ_r. lia. }
  assert (E2 : 2 ^ (- e) = 2 * 2 ^ (- e - 1)).
  { replace (- e) with (Z.succ (- e - 1)) at 1 by lia. apply Z.pow_succ_r. lia. }
  rewrite Z.div_small by lia. destruct s; reflexivity.
Qed.

Lemma round_whole x :
  nonneg x -> mant_bounded prec x ->
  nonneg (IEEE.round prec emax x) /\ whole prec (IEEE.round prec emax x).
Proof.
  destruct x as [s | s | | s m e]; cbn [nonneg mant_bounded IEEE.round whole]; auto.
  intros -> B. destruct (0 <=? e) eqn:E.
  - apply Z.leb_le in E. cbn. split; [reflexivity|]. split; [|exact B].
    destruct (Z.eq_dec e 0) as [-> | Ne]; [cbn; lia|].
    rewrite Z.pow_neg_r by lia. lia.
  - apply Z.leb_gt in E. rewrite Z.shiftl_1_l, Z.shiftr_div_pow2 by lia.
    pose proof (pow2_pos (- e - 1) ltac:(lia)).
    pose proof (pow2_pos (- e) ltac:(lia)).
    assert (Q : 0 <= (Zpos m + 2 ^ (- e - 1)) / 2 ^ (- e)) by (apply Z.div_pos; lia).
    cbn [cond_Zopp]. destruct (_ / _) as [|q|q]; [cbn; auto | | lia].
    cbn [binary_normalize]. split; [apply binary_round_nonneg|].
    pose proof emin_le_0. pose proof (digits_pos q).
    pose proof (binary_round_ge_pow2 false q 0 0 ltac:(lia) ltac:(cbn; lia)) as G.
    pose proof (binary_round_bounded false q 0) as B'.
    destruct (binary_round prec emax false q 0); cbn in *; trivial. lia.
Qed.
(** ** Negative values *)

Lemma BRA_negative z e l : 0 <= z -> negative (BRA true z e l).
Proof.
  intros Hz. destruct (BRA_shape prec emax true z e l Hz) as [-> | [-> | (m & e' & ->)]];
    reflexivity.
Qed.

Lemma binary_round_negative m e : negative (binary_round prec emax true m e).
Proof.
  rewrite binary_round_eq. apply BRA_negative.
  assert (0 <= 2 ^ (e - Z.min e (fexp (digits m + e)))) by (apply Z.pow_nonneg; lia). lia.
Qed.

Lemma of_Z_negative z : z < 0 -> negative (IEEE.of_Z prec emax z).
Proof.
  unfold IEEE.of_Z, binary_normalize. destruct z as [|p|p]; try lia; intros _.
  apply binary_round_negative.
Qed.

Lemma of_float_negative x : negative x -> negative (IEEE.of_float prec emax x).
Proof.
  destruct x as [s | s | | s m e]; cbn [negative IEEE.of_float]; trivial.
  intros ->. cbn. apply binary_round_negative.
Qed.

Lemma mul_negative x my ey :
  negative x -> negative (IEEE.mul prec emax x (S754_finite false my ey)).
Proof.
  unfold IEEE.mul, SFmul. destruct x as [s | s | | s m e]; cbn [negative];
    intros; subst; try reflexivity; try contradiction.
  apply BRA_negative. lia.
Qed.

Lemma div_negative x my ey :
  negative x -> negative (IEEE.div prec emax x (S754_finite false my ey)).
Proof.
  unfold IEEE.div, SFdiv. destruct x as [s | s | | s m e]; cbn [negative];
    intros; subst; try reflexivity; try contradiction.
  pose proof (SFdiv_core_spec m e my ey) as (_ & _ & Q & _).
  destruct (SFdiv_core_binary _ _ _ _ _ _) as [[q e'] l]. cbn [fst snd] in Q.
  apply BRA_negative. exact Q.
Qed.

Lemma round_negative x : negative x -> negative (IEEE.round prec emax x).
Proof.
  destruct x as [s | s | | s m e]; cbn [negative IEEE.round]; trivial.
  intros ->. destruct (0 <=? e) eqn:E; [reflexivity|].
  apply Z.leb_gt in E. rewrite Z.shiftl_1_l, Z.shiftr_div_pow2 by lia.
  pose proof (pow2_pos (- e - 1) ltac:(lia)).
  pose proof (pow2_pos (- e) ltac:(lia)).
  assert (Q : 0 <= (Zpos m + 2 ^ (- e - 1)) / 2 ^ (- e)) by (apply Z.div_pos; lia).
  destruct (_ / _) as [|q|q]; [reflexivity | | lia].
  cbn. apply binary_round_negative.
Qed.
End FormatBounds.

(** ** Comparisons *)

Lemma eqb_zero x : IEEE.eqb x (S754_zero false) = is_zero x.
Proof. destruct x as [s | [] | | [] m e]; reflexivity. Qed.

Lemma ltb_negative x my ey :
  negative x -> IEEE.ltb x (S754_finite false my ey) = true.
Proof.
  destruct x as [s | s | | s m e]; cbn [negative]; intros; subst;
    try reflexivity; contradiction.
Qed.

Lemma ltb_nonneg_negative x y : nonneg x -> negative y -> IEEE.ltb x y = false.
Proof.
  destruct x as [s | s | | s m e], y as [s' | s' | | s' m' e']; cbn [nonneg negative];
    intros; subst; try reflexivity; contradiction.
Qed.

Lemma ltb_false_le_pow2 prec x my ey k :
  nonneg x -> mant_normal prec x -> le_pow2 x k -> Zpos my < 2 ^ prec ->
  IEEE.ltb x (S754_finite false my ey) = false ->
  Zpos my <= 2 ^ (k - ey).
Proof.
  destruct x as [s | s | | s mx ex]; cbn [nonneg mant_normal le_pow2]; try contradiction.
  - intros _ _ _ _. cbn. discriminate.
  - intros -> [N1 N2] L B. unfold IEEE.ltb, SFltb, SFcompare.
    pose proof (le_pow_exp _ _ (Pos2Z.is_pos mx) L) as Hk.
    destruct (Z.compare_spec ex ey) as [E | E | E]; try discriminate.
    + subst ey. fold (Pos.compare mx my).
      destruct (Pos.compare_spec mx my) as [E' | E' | E']; try discriminate; intros _; lia.
    + intros _.
      assert (0 <= prec - 1).
      { destruct (Z.le_gt_cases 0 (prec - 1)); [assumption|].
        rewrite (Z.pow_neg_r 2 (prec - 1)) in N1 by lia.
        destruct (Z.le_gt_cases 0 prec) as [G | G].
        - assert (prec = 0) by lia. subst prec. cbn in N2. lia.
        - rewrite Z.pow_neg_r in N2 by lia. lia. }
      assert (prec - 1 <= k - ex).
      { apply pow2_le_exp; lia. }
      assert (2 ^ prec <= 2 ^ (k - ey)) by (apply Z.pow_le_mono_r; lia). lia.
Qed.

Lemma c_1_0_eq : c_1_0 = S754_finite false 4503599627370496 (-52).
Proof. vm_compute. reflexivity. Qed.

Lemma c_0_1_eq : c_0_1 = S754_finite false 7205759403792794 (-56).
Proof. vm_compute. reflexivity. Qed.

Lemma c_1_0_le_pow2 : le_pow2 c_1_0 0.
Proof. rewrite c_1_0_eq. cbn. lia. Qed.

Lemma c_1_0_nonneg : nonneg c_1_0.
Proof. rewrite c_1_0_eq. reflexivity. Qed.

(** [x < 0.1] holds of a whole number that is not negative exactly when
    it is zero. *)
Lemma ltb_c_0_1 x : nonneg x -> whole 53 x -> f64_ltb x c_0_1 = is_zero x.
Proof.
  rewrite c_0_1_eq.
  destruct x as [s | s | | s m e]; cbn [nonneg whole is_zero]; intros N W; subst;
    try reflexivity.
  unfold f64_ltb, IEEE.ltb, SFltb, SFcompare.
  destruct W as [L U].
  assert (- 56 < e).
  { destruct (Z.le_gt_cases e (- 56)) as [G | G]; [|lia].
    assert (2 ^ 53 <= 2 ^ (0 - e)) by (apply Z.pow_le_mono_r; lia). lia. }
  destruct (Z.compare_spec e (-56)); [lia | lia | reflexivity].
Qed.

Section FrequencyError.
Variables initialPeriod uiLen : Z.
Hypothesis period_range : 0 < initialPeriod < 2 ^ 63.
Hypothesis uiLen_range : 0 <= uiLen < 2 ^ 63.

Local Abbreviation D := (Zdigits2 initialPeriod).

Lemma D_bounds : 2 ^ (D - 1) <= initialPeriod < 2 ^ D /\ 1 <= D <= 63.
Proof.
  pose proof (Zdigits2_bounds initialPeriod ltac:(lia)) as B.
  pose proof (Zdigits2_ge1 initialPeriod ltac:(lia)) as G.
  split; [exact B|]. split; [exact G|].
  destruct initialPeriod as [|p|p]; try lia.
  apply (digits_lt_pow p 63); lia.
Qed.

(** [initialPeriod] as a double: finite, positive, at least [2^(D-1)]. *)
Lemma period_as_f64 :
  exists m e, f64_of_int64 initialPeriod = S754_finite false m e /\
              2 ^ (D - 1 - e) <= Zpos m.
Proof.
  destruct D_bounds as [B R].
  destruct (of_Z_finite 53 1024 ltac:(lia) ltac:(lia) initialPeriod (D - 1) D)
    as (m & e & E & B' & _); try lia.
  exists m, e. split; [exact E | lia].
Qed.

Lemma numUIs_gating_eq : numUIs_gating uiLen initialPeriod = f32_of_f64 (multiple_f64 initialPeriod uiLen).
Proof. reflexivity. Qed.

Lemma multiple_f64_whole : nonneg (multiple_f64 initialPeriod uiLen) /\ whole 53 (multiple_f64 initialPeriod uiLen).
Proof.
  apply round_whole; try lia.
  - apply div_nonneg; try lia.
    + apply mul_nonneg; try lia; [apply of_Z_nonneg; lia | apply c_1_0_nonneg].
    + apply of_Z_nonneg; lia.
  - apply div_bounded; lia.
Qed.

Lemma numUIs_gating_whole :
  nonneg (numUIs_gating uiLen initialPeriod) /\ whole 24 (numUIs_gating uiLen initialPeriod).
Proof.
  rewrite numUIs_gating_eq. destruct multiple_f64_whole as [N W].
  apply (of_float_whole 24 128 ltac:(lia) ltac:(lia) 53); assumption.
Qed.

(** The test [numUIs < 0.1] of the gated loop is a test for zero. *)
Lemma numUIs_gating_test :
  f64_ltb (f64_of_f32 (numUIs_gating uiLen initialPeriod)) c_0_1 =
  f32_eqb (numUIs_gating uiLen initialPeriod) f32_zero.
Proof.
  destruct numUIs_gating_whole as [N W].
  pose proof (of_float_whole 53 1024 ltac:(lia) ltac:(lia) 24 _ N W) as [N' W'].
  unfold f64_of_f32. rewrite (ltb_c_0_1 _ N' W').
  unfold f32_eqb, f32_zero. rewrite eqb_zero.
  destruct (is_zero (numUIs_gating uiLen initialPeriod)) eqn:Z.
  - apply (of_float_zero 53 1024). exact Z.
  - apply (of_float_nonzero 53 1024 ltac:(lia) ltac:(lia) 24); assumption.
Qed.

Lemma dperiod_gating_eq period tnext tlast :
  tnext - tlast = uiLen ->
  dperiod_gating period initialPeriod tnext tlast =
  if f32_eqb (numUIs_gating uiLen initialPeriod) f32_zero then 0
  else period - f32_to_int64 (f32_div (f32_of_int64 uiLen) (numUIs_gating uiLen initialPeriod)).
Proof.
  intros E. unfold dperiod_gating. rewrite E. cbv zeta.
  rewrite numUIs_gating_test. destruct (f32_eqb _ _); lia.
Qed.

(** Below a tenth of the period the multiple is zero. *)
Lemma numUIs_gating_glitch :
  10 * uiLen < initialPeriod -> f32_eqb (numUIs_gating uiLen initialPeriod) f32_zero = true.
Proof.
  intros Hg. destruct D_bounds as [B R].
  unfold f32_eqb, f32_zero. rewrite eqb_zero, numUIs_gating_eq.
  apply (of_float_zero 24 128). unfold multiple_f64.
  apply (round_small 53 1024).
  destruct period_as_f64 as (my & ey & -> & Ly).
  replace (-2) with (D - 3 + 0 - (D - 1)) by lia.
  apply (div_le_pow2 53 1024); try (unfold emin; lia).
  apply (mul_le_pow2 53 1024); try (unfold emin; lia); [|apply c_1_0_le_pow2].
  apply (of_Z_le_eighth 53 1024); lia.
Qed.

Lemma initialFrequency_le_pow2 : le_pow2 (initialFrequency initialPeriod) (0 - (D - 1)).
Proof.
  destruct D_bounds as [B R]. unfold initialFrequency.
  apply (of_float_le_pow2 24 128); try (unfold emin; lia).
  destruct period_as_f64 as (my & ey & -> & Ly).
  apply (div_le_pow2 53 1024); try (unfold emin; lia). apply c_1_0_le_pow2.
Qed.

Lemma multiple_f32_small :
  le_pow2 (f32_of_int64 uiLen) (D - 3) -> f32_eqb (multiple_f32 initialPeriod uiLen) f32_zero = true.
Proof.
  intros Hu. destruct D_bounds as [B R].
  unfold f32_eqb, f32_zero. rewrite eqb_zero. unfold multiple_f32.
  apply (round_small 24 128).
  replace (-2) with (D - 3 + (0 - (D - 1))) by lia.
  apply (mul_le_pow2 24 128); try (unfold emin; lia);
    [exact Hu | apply initialFrequency_le_pow2].
Qed.

Lemma glitchCutoff_bounds :
  0 <= glitchCutoff initialPeriod /\ 10 * glitchCutoff initialPeriod <= initialPeriod.
Proof.
  unfold glitchCutoff, idiv.
  rewrite Z.quot_div_nonneg by lia.
  pose proof (Z.mul_div_le initialPeriod 10 ltac:(lia)).
  pose proof (Z.div_pos initialPeriod 10 ltac:(lia) ltac:(lia)). lia.
Qed.

(** An edge that fails the glitch test of the non-gated loop has a
    multiple of zero. *)
Lemma glitch_test_multiple :
  f32_ltb (f32_of_int64 (glitchCutoff initialPeriod)) (f32_of_int64 uiLen) = false ->
  f32_eqb (multiple_f32 initialPeriod uiLen) f32_zero = true.
Proof.
  intros Hc. destruct D_bounds as [B R]. destruct glitchCutoff_bounds as [C0 C1].
  apply multiple_f32_small.
  destruct (Z.eq_dec uiLen 0) as [-> | Nz]; [exact I|].
  destruct (of_Z_finite 24 128 ltac:(lia) ltac:(lia) uiLen 0 63)
    as (mu & eu & Eu & _ & Bu); try lia.
  unfold f32_of_int64 in *. rewrite Eu in *. cbn [le_pow2].
  apply (ltb_false_le_pow2 24 (IEEE.of_Z 24 128 (glitchCutoff initialPeriod))).
  - apply of_Z_nonneg; lia.
  - apply of_Z_normal; lia.
  - apply (of_Z_le_eighth 24 128); lia.
  - lia.
  - exact Hc.
Qed.

Lemma fdperiod_nogating_eq fperiod tnext tlast :
  tnext - tlast = uiLen ->
  fdperiod_nogating initialPeriod fperiod tnext tlast =
  if f32_eqb (multiple_f32 initialPeriod uiLen) f32_zero then f32_zero
  else f32_sub fperiod (f32_div (f32_of_int64 uiLen) (multiple_f32 initialPeriod uiLen)).
Proof.
  intros E. unfold fdperiod_nogating. rewrite E. cbv zeta. fold (multiple_f32 initialPeriod uiLen).
  destruct (f32_ltb _ _) eqn:Hc.
  - destruct (f32_eqb (multiple_f32 initialPeriod uiLen) f32_zero); reflexivity.
  - now rewrite (glitch_test_multiple Hc).
Qed.

Lemma multiple_f32_glitch :
  10 * uiLen < initialPeriod -> f32_eqb (multiple_f32 initialPeriod uiLen) f32_zero = true.
Proof.
  intros Hg. destruct D_bounds as [B R].
  apply multiple_f32_small. apply (of_Z_le_eighth 24 128); lia.
Qed.
End FrequencyError.

Section NegativeInterval.
Variables initialPeriod uiLen : Z.
Hypothesis period_range : 0 < initialPeriod < 2 ^ 63.
Hypothesis uiLen_negative : uiLen < 0.

(** An edge before the last one (or before time zero) has a negative
    multiple, which the test [numUIs < 0.1] of the gated loop rejects. *)
Lemma numUIs_gating_negative : negative (numUIs_gating uiLen initialPeriod).
Proof.
  unfold numUIs_gating.
  apply (of_float_negative 24 128).
  apply (round_negative 53 1024).
  destruct (period_as_f64 initialPeriod period_range) as (my & ey & -> & _).
  apply (div_negative 53 1024). rewrite c_1_0_eq.
  apply (mul_negative 53 1024).
  apply (of_Z_negative 53 1024). lia.
Qed.

Lemma dperiod_gating_negative period tnext tlast :
  tnext - tlast = uiLen -> dperiod_gating period initialPeriod tnext tlast = 0.
Proof.
  intros E. unfold dperiod_gating. rewrite E. cbv zeta.
  pose proof (of_float_negative 53 1024 _ numUIs_gating_negative) as N.
  unfold f64_of_f32, f64_ltb. rewrite c_0_1_eq, (ltb_negative _ _ _ N). lia.
Qed.

Lemma fdperiod_nogating_negative fperiod tnext tlast :
  tnext - tlast = uiLen ->
  fdperiod_nogating initialPeriod fperiod tnext tlast = f32_zero.
Proof.
  intros E. unfold fdperiod_nogating. rewrite E. cbv zeta.
  destruct (glitchCutoff_bounds initialPeriod period_range) as [C _].
  unfold f32_ltb. rewrite ltb_nonneg_negative; [reflexivity | |].
  - apply of_Z_nonneg; lia.
  - apply of_Z_negative; lia.
Qed.
End NegativeInterval.




(** ** Rounding keeps the order with a value of the format *)

Lemma Zdigits2_unique z k : 0 < k -> 2 ^ (k - 1) <= z < 2 ^ k -> Zdigits2 z = k.
Proof.
  intros Hk [L U].
  assert (Hz : 0 < z) by (pose proof (pow2_pos (k - 1) ltac:(lia)); lia).
  pose proof (Zdigits2_gt_pow z (k - 1) Hz ltac:(lia) L).
  pose proof (Zdigits2_bounds z Hz) as [L' _].
  pose proof (Zdigits2_ge1 z Hz).
  assert (Zdigits2 z - 1 < k); [|lia].
  apply pow2_lt_exp; lia.
Qed.

Lemma SFleb_finite m1 e1 m2 e2 :
  e1 < e2 \/ (e1 = e2 /\ Zpos m1 <= Zpos m2) ->
  SFleb (S754_finite false m1 e1) (S754_finite false m2 e2) = true.
Proof.
  intros H. unfold SFleb, SFcompare.
  destruct (Z.compare_spec e1 e2) as [E | E | E]; try reflexivity; try lia.
  fold (Pos.compare m1 m2).
  destruct (Pos.compare_spec m1 m2) as [E' | E' | E']; try reflexivity. lia.
Qed.

Section Order.
Variables prec emax : Z.
Hypothesis prec_pos : 0 < prec.

Local Abbreviation emin := (emin prec emax).
Local Abbreviation fexp := (fexp prec emax).
Local Abbreviation BRA := (binary_round_aux prec emax).

(** The result of rounding a mantissa of at least [prec] digits in the
    normal range: the mantissa cut to [prec] digits, rounded up or not;
    if that gives [2^prec], the exponent goes up by one. *)
Lemma BRA_normal_result s z e l :
  0 < z -> prec <= Zdigits2 z -> emin <= Zdigits2 z + e - prec ->
  let n1 := Zdigits2 z - prec in
  let m2 := z / 2 ^ n1 in
  exists m3,
    2 ^ (prec - 1) <= m2 < 2 ^ prec /\ m2 <= m3 <= m2 + 1 /\
    (l = loc_Exact -> z mod 2 ^ n1 = 0 -> m3 = m2) /\
    BRA s z e l =
      if m3 <? 2 ^ prec then BRA_result prec emax s m3 (e + n1)
      else BRA_result prec emax s (2 ^ (prec - 1)) (e + n1 + 1).
Proof.
  intros Hz Hp Hr. cbv zeta.
  destruct (BRA_cases prec emax s z e l ltac:(lia)) as (m3 & P2 & B3 & X3 & P & E).
  set (d := Zdigits2 z) in *.
  assert (N1 : round_shift prec emax z e = d - prec).
  { unfold round_shift. fold d. rewrite fexp_normal by lia. lia. }
  rewrite N1 in *. set (n1 := d - prec) in *.
  pose proof (Zdigits2_bounds z Hz) as [Dl Du]. fold d in Dl, Du.
  assert (H2 : 2 ^ (d - 1 - n1) <= z / 2 ^ n1) by (apply div_pow2_ge; lia).
  assert (H2' : z / 2 ^ n1 < 2 ^ (d - n1)) by (apply div_pow2_lt; lia).
  replace (d - 1 - n1) with (prec - 1) in H2 by lia.
  replace (d - n1) with prec in H2' by lia.
  pose proof (pow2_pos (prec - 1) ltac:(lia)) as Pp.
  assert (Epow : 2 ^ prec = 2 * 2 ^ (prec - 1)).
  { replace prec with (Z.succ (prec - 1)) at 1 by lia. apply Z.pow_succ_r. lia. }
  exists m3. split; [lia|]. split; [lia|]. split; [exact X3|].
  rewrite E. destruct (Z.ltb_spec m3 (2 ^ prec)) as [L | L].
  - assert (D3 : Zdigits2 m3 = prec) by (apply Zdigits2_unique; lia).
    assert (N2 : round_shift prec emax m3 (e + n1) = 0).
    { unfold round_shift. rewrite D3, fexp_normal by lia. lia. }
    rewrite N2, Z.pow_0_r, Z.div_1_r, Z.add_0_r. reflexivity.
  - assert (E3 : m3 = 2 ^ prec) by lia.
    assert (D3 : Zdigits2 m3 = prec + 1).
    { apply Zdigits2_unique; [lia|]. rewrite E3.
      replace (prec + 1 - 1) with prec by lia.
      rewrite (Z.pow_add_r 2 prec 1) by lia. lia. }
    assert (N2 : round_shift prec emax m3 (e + n1) = 1).
    { unfold round_shift. rewrite D3, fexp_normal by lia. lia. }
    rewrite N2, E3, Epow. change (2 ^ 1) with 2.
    rewrite Z.mul_comm, Z.div_mul by lia. reflexivity.
Qed.

Lemma BRA_result_pos s m e2 :
  0 < m ->
  exists p, Zpos p = m /\
    BRA_result prec emax s m e2 =
      if e2 <=? emax - prec then S754_finite s p e2 else S754_infinity s.
Proof.
  destruct m as [|p|p]; try lia. intros _. exists p. split; reflexivity.
Qed.

(** Rounding a value that is at most a number of the format gives at
    most that number. *)
Lemma BRA_le_finite z e l mx ex :
  0 < z -> prec <= Zdigits2 z -> emin <= Zdigits2 z + e - prec ->
  2 ^ (prec - 1) <= Zpos mx < 2 ^ prec -> ex <= emax - prec -> e <= ex ->
  upper z l <= Zpos mx * 2 ^ (ex - e) ->
  SFleb (BRA false z e l) (S754_finite false mx ex) = true.
Proof.
  intros Hz Hp Hr Hm Hx He Hu.
  destruct (BRA_normal_result false z e l Hz Hp Hr) as (m3 & B2 & B3 & X3 & ->).
  set (d := Zdigits2 z) in *. set (n1 := d - prec) in *.
  pose proof (Zdigits2_bounds z Hz) as [Dl Du]. fold d in Dl, Du.
  pose proof (pow2_pos (prec - 1) ltac:(lia)) as Pp.
  pose proof (pow2_pos (ex - e) ltac:(lia)) as Pe.
  pose proof (pow2_pos n1 ltac:(lia)) as Pn.
  assert (Epow : 2 ^ prec = 2 * 2 ^ (prec - 1)).
  { replace prec with (Z.succ (prec - 1)) at 1 by lia. apply Z.pow_succ_r. lia. }
  assert (Hzu : z <= Zpos mx * 2 ^ (ex - e)) by (destruct l; cbn [upper] in Hu; lia).
  (* the exponent of the result is not above [ex] *)
  assert (E1 : e + n1 <= ex).
  { assert (2 ^ (d - 1) < 2 ^ (prec + (ex - e))).
    { rewrite (Z.pow_add_r 2 prec) by lia. nia. }
    assert (d - 1 < prec + (ex - e)) by (apply pow2_lt_exp; lia). lia. }
  (* with the exponent [ex], the mantissa is not above [mx] *)
  assert (M3 : e + n1 = ex -> m3 <= Zpos mx).
  { intros Eq. assert (N1 : n1 = ex - e) by lia. rewrite <- N1 in *.
    destruct (Z.eq_dec (z mod 2 ^ n1) 0) as [M | M].
    - destruct l as [|c].
      + rewrite (X3 eq_refl M). apply Z.div_le_upper_bound; lia.
      + cbn [upper] in Hu.
        assert (z / 2 ^ n1 < Zpos mx) by (apply Z.div_lt_upper_bound; lia). lia.
    - assert (z <> Zpos mx * 2 ^ n1).
      { intros E'. apply M. rewrite E'. apply Z_mod_mult. }
      assert (z / 2 ^ n1 < Zpos mx) by (apply Z.div_lt_upper_bound; lia). lia. }
  destruct (Z.ltb_spec m3 (2 ^ prec)) as [L | L].
  - destruct (BRA_result_pos false m3 (e + n1) ltac:(lia)) as (p & Ep & ->).
    destruct (Z.leb_spec (e + n1) (emax - prec)); [|lia].
    apply SFleb_finite. rewrite Ep.
    destruct (Z.eq_dec (e + n1) ex) as [Eq | Ne]; [right | left; lia].
    split; [exact Eq | exact (M3 Eq)].
  - destruct (BRA_result_pos false (2 ^ (prec - 1)) (e + n1 + 1) Pp) as (p & Ep & ->).
    assert (e + n1 < ex).
    { destruct (Z.eq_dec (e + n1) ex) as [Eq | Ne]; [|lia].
      specialize (M3 Eq). lia. }
    destruct (Z.leb_spec (e + n1 + 1) (emax - prec)); [|lia].
    apply SFleb_finite. rewrite Ep. lia.
Qed.

(** Rounding a value that is at least a number of the format gives at
    least that number. *)
Lemma BRA_ge_finite z e l mx ex :
  0 < z -> prec <= Zdigits2 z -> emin <= Zdigits2 z + e - prec ->
  2 ^ (prec - 1) <= Zpos mx < 2 ^ prec -> e <= ex ->
  Zpos mx * 2 ^ (ex - e) <= z ->
  SFleb (S754_finite false mx ex) (BRA false z e l) = true.
Proof.
  intros Hz Hp Hr Hm He Hl.
  destruct (BRA_normal_result false z e l Hz Hp Hr) as (m3 & B2 & B3 & X3 & ->).
  set (d := Zdigits2 z) in *. set (n1 := d - prec) in *.
  pose proof (Zdigits2_bounds z Hz) as [Dl Du]. fold d in Dl, Du.
  pose proof (pow2_pos (prec - 1) ltac:(lia)) as Pp.
  pose proof (pow2_pos (ex - e) ltac:(lia)) as Pe.
  pose proof (pow2_pos n1 ltac:(lia)) as Pn.
  (* the exponent of the result is not below [ex] *)
  assert (E1 : ex <= e + n1).
  { assert (2 ^ (prec - 1 + (ex - e)) < 2 ^ d).
    { rewrite (Z.pow_add_r 2 (prec - 1)) by lia. nia. }
    assert (prec - 1 + (ex - e) < d) by (apply pow2_lt_exp; lia). lia. }
  destruct (Z.ltb_spec m3 (2 ^ prec)) as [L | L].
  - destruct (BRA_result_pos false m3 (e + n1) ltac:(lia)) as (p & Ep & ->).
    destruct (Z.leb_spec (e + n1) (emax - prec)); [|reflexivity].
    apply SFleb_finite. rewrite Ep.
    destruct (Z.eq_dec (e + n1) ex) as [Eq | Ne]; [right | left; lia].
    split; [now symmetry|].
    assert (N1 : n1 = ex - e) by lia. rewrite <- N1 in *.
    assert (Zpos mx <= z / 2 ^ n1) by (apply Z.div_le_lower_bound; lia). lia.
  - destruct (BRA_result_pos false (2 ^ (prec - 1)) (e + n1 + 1) Pp) as (p & Ep & ->).
    destruct (Z.leb_spec (e + n1 + 1) (emax - prec)); [|reflexivity].
    apply SFleb_finite. left. lia.
Qed.
End Order.

(** ** The median is near itself *)

Lemma c_0_75_eq : c_0_75 = S754_finite false 6755399441055744 (-53).
Proof. vm_compute. reflexivity. Qed.

Lemma c_1_25_eq : c_1_25 = S754_finite false 5629499534213120 (-52).
Proof. vm_compute. reflexivity. Qed.

Lemma near_median_self m : 1 <= m < 2 ^ 63 -> near_median m m = true.
Proof.
  intros Hm. unfold near_median.
  destruct (of_Z_finite 53 1024 ltac:(lia) ltac:(lia) m 0 63 ltac:(lia) ltac:(lia) ltac:(lia))
    as (mx & ex & E & [L U] & N).
  unfold f64_of_int64. rewrite E, c_0_75_eq, c_1_25_eq.
  assert (Hex : -53 < ex <= 63).
  { split.
    - destruct (Z.le_gt_cases ex (-53)) as [G | G]; [|lia].
      assert (2 ^ 53 <= 2 ^ (0 - ex)) by (apply Z.pow_le_mono_r; lia). lia.
    - assert (0 <= 63 - ex); [|lia]. apply (le_pow_exp (Zpos mx)); lia. }
  unfold f64_leb, f64_mul, IEEE.leb, IEEE.mul, SFmul.
  apply andb_true_intro. split.
  - set (z := Zpos (6755399441055744 * mx)).
    assert (Hz : 3 * 2 ^ 103 <= z < 3 * 2 ^ 104) by (unfold z; lia).
    assert (Hd : 105 <= Zdigits2 z).
    { assert (104 < Zdigits2 z); [|lia]. apply Zdigits2_gt_pow; lia. }
    apply BRA_le_finite; try lia.
    + unfold emin. lia.
    + cbn [upper]. unfold z. replace (ex - (-53 + ex)) with 53 by lia. lia.
  - set (z := Zpos (5629499534213120 * mx)).
    assert (Hz : 5 * 2 ^ 102 <= z < 5 * 2 ^ 103) by (unfold z; lia).
    assert (Hd : 105 <= Zdigits2 z).
    { assert (104 < Zdigits2 z); [|lia]. apply Zdigits2_gt_pow; lia. }
    apply BRA_ge_finite; try lia.
    + unfold emin. lia.
    + unfold z. replace (ex - (-52 + ex)) with 52 by lia. lia.
Qed.


(** ** Exact products and comparisons *)

Lemma SFleb_finite_iff m1 e1 m2 e2 :
  SFleb (S754_finite false m1 e1) (S754_finite false m2 e2) = true <->
  e1 < e2 \/ (e1 = e2 /\ Zpos m1 <= Zpos m2).
Proof.
  unfold SFleb, SFcompare.
  destruct (Z.compare_spec e1 e2) as [E | E | E].
  - fold (Pos.compare m1 m2).
    destruct (Pos.compare_spec m1 m2) as [E' | E' | E']; split; intros H;
      try reflexivity; try discriminate; try lia.
  - split; [intros _; now left | reflexivity].
  - split; [discriminate | lia].
Qed.

Section Exact.
Variables prec emax : Z.
Hypothesis prec_pos : 0 < prec.
Hypothesis emax_large : prec < emax.

Local Abbreviation emin := (emin prec emax).
Local Abbreviation BRA := (binary_round_aux prec emax).
Local Abbreviation canonical := (canonical prec).

(** Rounding a value [z * 2^(e + k)] whose [z] fits the format is exact. *)
Lemma BRA_canonical z k e :
  0 < z < 2 ^ prec -> 0 <= k -> prec <= Zdigits2 (z * 2 ^ k) ->
  emin <= Zdigits2 (z * 2 ^ k) + e - prec -> e + k <= emax - prec ->
  canonical (BRA false (z * 2 ^ k) e loc_Exact) z (e + k).
Proof.
  intros Hz Hk Hd Hr Hx.
  pose proof (pow2_pos k Hk) as Pk.
  assert (HZ : 0 < z * 2 ^ k) by lia.
  assert (D : Zdigits2 (z * 2 ^ k) = Zdigits2 z + k)
    by (apply Zdigits2_mul_pow2; lia).
  pose proof (Zdigits2_bounds z ltac:(lia)) as [Dl Du].
  pose proof (Zdigits2_ge1 z ltac:(lia)) as D1.
  assert (Dz : Zdigits2 z <= prec).
  { assert (Zdigits2 z - 1 < prec); [|lia]. apply pow2_lt_exp; lia. }
  destruct (BRA_normal_result prec emax prec_pos false (z * 2 ^ k) e loc_Exact HZ Hd Hr)
    as (m3 & B2 & B3 & X3 & ->).
  rewrite D in *. set (n1 := Zdigits2 z + k - prec) in *.
  assert (Hn : 0 <= n1 <= k) by lia.
  assert (Esplit : z * 2 ^ k = z * 2 ^ (k - n1) * 2 ^ n1).
  { rewrite <- Z.mul_assoc, <- Z.pow_add_r by lia. do 2 f_equal. lia. }
  pose proof (pow2_pos n1 ltac:(lia)) as Pn.
  assert (M : (z * 2 ^ k) mod 2 ^ n1 = 0) by (rewrite Esplit; apply Z_mod_mult).
  assert (Q : z * 2 ^ k / 2 ^ n1 = z * 2 ^ (k - n1))
    by (rewrite Esplit; apply Z.div_mul; lia).
  rewrite (X3 eq_refl M), Q in *.
  destruct (Z.ltb_spec (z * 2 ^ (k - n1)) (2 ^ prec)) as [L | L]; [|lia].
  destruct (BRA_result_pos prec emax false (z * 2 ^ (k - n1)) (e + n1) ltac:(lia))
    as (p & Ep & ->).
  destruct (Z.leb_spec (e + n1) (emax - prec)); [|lia].
  exists p, (e + n1). split; [reflexivity|]. split; [lia|]. split; [lia|].
  rewrite Ep. do 2 f_equal. lia.
Qed.

Lemma of_Z_canonical z : 0 < z < 2 ^ prec -> canonical (IEEE.of_Z prec emax z) z 0.
Proof.
  intros Hz. unfold IEEE.of_Z, binary_normalize.
  destruct z as [|p|p]; try lia.
  rewrite binary_round_eq.
  pose proof (digits_bounds p) as [Dl Du]. pose proof (digits_pos p) as D1.
  assert (Dp : digits p <= prec).
  { assert (digits p - 1 < prec); [|lia]. apply pow2_lt_exp; lia. }
  assert (F : fexp prec emax (digits p + 0) = digits p - prec).
  { unfold fexp, SpecFloat.emin. lia. }
  rewrite F. replace (Z.min 0 (digits p - prec)) with (digits p - prec) by lia.
  replace (0 - (digits p - prec)) with (prec - digits p) by lia.
  assert (D : Zdigits2 (Zpos p * 2 ^ (prec - digits p)) = prec).
  { rewrite Zdigits2_mul_pow2 by lia. rewrite Zdigits2_pos. lia. }
  assert (H : canonical (BRA false (Zpos p * 2 ^ (prec - digits p)) (digits p - prec)
                           loc_Exact)
                        (Zpos p) (digits p - prec + (prec - digits p))).
  { apply BRA_canonical; try lia. rewrite D. unfold SpecFloat.emin. lia. }
  replace (digits p - prec + (prec - digits p)) with 0 in H by lia. exact H.
Qed.

(** The product of a canonical float and a positive constant
    [c0 * 2^j * 2^ec] of the format is exact when [c0 * z] fits the
    format. *)
Lemma mul_canonical mc ec c0 j x z e0 :
  Zpos mc = c0 * 2 ^ j -> 0 < c0 -> 0 <= j -> c0 * z < 2 ^ prec ->
  canonical x z e0 ->
  emin + prec <= ec + j + e0 -> ec + j + e0 <= emax - prec ->
  canonical (IEEE.mul prec emax (S754_finite false mc ec) x) (c0 * z) (ec + j + e0).
Proof.
  intros Hc Hc0 Hj Hcz (m & e & -> & Hm & He & Em) Hlo Hhi.
  unfold IEEE.mul, SFmul. cbn [xorb].
  pose proof (pow2_pos (e0 - e) ltac:(lia)) as Pe.
  pose proof (pow2_pos j Hj) as Pj.
  pose proof (pow2_pos (prec - 1) ltac:(lia)) as Pp.
  assert (Hz : 0 < z) by nia.
  assert (E : Zpos (mc * m) = c0 * z * 2 ^ (j + (e0 - e))).
  { rewrite Pos2Z.inj_mul, Hc, Em, Z.pow_add_r by lia. ring. }
  rewrite E.
  assert (HZ : 0 < c0 * z) by nia.
  assert (Dm : Zdigits2 (Zpos m) = prec).
  { apply Zdigits2_unique; lia. }
  assert (D : prec <= Zdigits2 (c0 * z * 2 ^ (j + (e0 - e)))).
  { rewrite <- E, Pos2Z.inj_mul.
    assert (prec - 1 < Zdigits2 (Zpos mc * Zpos m)); [|lia].
    apply Zdigits2_gt_pow; try lia.
    assert (1 <= Zpos mc) by lia. nia. }
  replace (ec + j + e0) with (ec + e + (j + (e0 - e))) by lia.
  apply BRA_canonical; try lia.
  rewrite Zdigits2_mul_pow2 by lia.
  pose proof (Zdigits2_ge1 (c0 * z) HZ). lia.
Qed.

(** Canonical floats compare as their values do. *)
Lemma leb_canonical x zx ex y zy ey L :
  canonical x zx ex -> canonical y zy ey -> L <= ex -> L <= ey ->
  IEEE.leb x y = (zx * 2 ^ (ex - L) <=? zy * 2 ^ (ey - L)).
Proof.
  intros (mx & e1 & -> & Hmx & He1 & Emx) (my & e2 & -> & Hmy & He2 & Emy) Lx Ly.
  unfold IEEE.leb.
  pose proof (pow2_pos (prec - 1) ltac:(lia)) as Pp.
  assert (Epow : 2 ^ prec = 2 * 2 ^ (prec - 1)).
  { replace prec with (Z.succ (prec - 1)) at 1 by lia. apply Z.pow_succ_r. lia. }
  set (M := Z.min (Z.min e1 e2) L).
  assert (Vx : zx * 2 ^ (ex - M) = Zpos mx * 2 ^ (e1 - M)).
  { rewrite Emx, <- Z.mul_assoc, <- Z.pow_add_r by lia. do 2 f_equal. lia. }
  assert (Vy : zy * 2 ^ (ey - M) = Zpos my * 2 ^ (e2 - M)).
  { rewrite Emy, <- Z.mul_assoc, <- Z.pow_add_r by lia. do 2 f_equal. lia. }
  assert (Sx : zx * 2 ^ (ex - M) = zx * 2 ^ (ex - L) * 2 ^ (L - M)).
  { rewrite <- Z.mul_assoc, <- Z.pow_add_r by lia. do 2 f_equal. lia. }
  assert (Sy : zy * 2 ^ (ey - M) = zy * 2 ^ (ey - L) * 2 ^ (L - M)).
  { rewrite <- Z.mul_assoc, <- Z.pow_add_r by lia. do 2 f_equal. lia. }
  pose proof (pow2_pos (L - M) ltac:(lia)) as PL.
  assert (Iff : zx * 2 ^ (ex - L) <= zy * 2 ^ (ey - L) <->
                Zpos mx * 2 ^ (e1 - M) <= Zpos my * 2 ^ (e2 - M)).
  { rewrite <- Vx, <- Vy, Sx, Sy. split; intros H; nia. }
  destruct (Z.leb_spec (zx * 2 ^ (ex - L)) (zy * 2 ^ (ey - L))) as [H | H].
  - apply SFleb_finite_iff. apply Iff in H.
    destruct (Z.lt_trichotomy e1 e2) as [Lt | [Eq | Gt]]; [now left | right | exfalso].
    + split; [exact Eq|]. subst e2.
      pose proof (pow2_pos (e1 - M) ltac:(lia)). nia.
    + assert (E : 2 ^ (e1 - M) = 2 ^ (e1 - e2) * 2 ^ (e2 - M)).
      { rewrite <- Z.pow_add_r by lia. f_equal. lia. }
      pose proof (pow2_pos (e2 - M) ltac:(lia)).
      assert (2 <= 2 ^ (e1 - e2)).
      { change 2 with (2 ^ 1) at 1. apply Z.pow_le_mono_r; lia. }
      rewrite E in H. nia.
  - destruct (SFleb _ _) eqn:E; [|reflexivity]. exfalso.
    apply SFleb_finite_iff in E.
    assert (Zpos mx * 2 ^ (e1 - M) <= Zpos my * 2 ^ (e2 - M)); [|apply Iff in H0; lia].
    destruct E as [Lt | [Eq Le]].
    + assert (E : 2 ^ (e2 - M) = 2 ^ (e2 - e1) * 2 ^ (e1 - M)).
      { rewrite <- Z.pow_add_r by lia. f_equal. lia. }
      pose proof (pow2_pos (e1 - M) ltac:(lia)).
      assert (2 <= 2 ^ (e2 - e1)).
      { change 2 with (2 ^ 1) at 1. apply Z.pow_le_mono_r; lia. }
      rewrite E. nia.
    + subst e2. pose proof (pow2_pos (e1 - M) ltac:(lia)). nia.
Qed.
End Exact.

(** Below 2^50 the test of the reset block is the exact one. *)
Lemma near_median_exact median w :
  1 <= median < 2 ^ 50 -> 1 <= w < 2 ^ 53 ->
  near_median median w = within_25_percent median w.
Proof.
  intros Hm Hw. unfold near_median, within_25_percent.
  assert (Hm53 : 0 < median < 2 ^ 53) by lia.
  pose proof (of_Z_canonical 53 1024 eq_refl eq_refl median Hm53) as Cm.
  pose proof (of_Z_canonical 53 1024 eq_refl eq_refl w ltac:(lia)) as Cw.
  assert (C75 : canonical 53 (f64_mul c_0_75 (f64_of_int64 median))
                  (3 * median) (-53 + 51 + 0)).
  { rewrite c_0_75_eq. unfold f64_mul, f64_of_int64.
    apply (mul_canonical 53 1024 eq_refl 6755399441055744 (-53) 3 51 _ median 0).
    - reflexivity.
    - lia.
    - lia.
    - lia.
    - exact Cm.
    - vm_compute; discriminate.
    - vm_compute; discriminate. }
  assert (C125 : canonical 53 (f64_mul c_1_25 (f64_of_int64 median))
                   (5 * median) (-52 + 50 + 0)).
  { rewrite c_1_25_eq. unfold f64_mul, f64_of_int64.
    apply (mul_canonical 53 1024 eq_refl 5629499534213120 (-52) 5 50 _ median 0).
    - reflexivity.
    - lia.
    - lia.
    - lia.
    - exact Cm.
    - vm_compute; discriminate.
    - vm_compute; discriminate. }
  unfold f64_leb, f64_of_int64 in *.
  rewrite (leb_canonical 53 eq_refl _ _ _ _ _ _ (-2) C75 Cw) by (vm_compute; discriminate).
  rewrite (leb_canonical 53 eq_refl _ _ _ _ _ _ (-2) Cw C125) by (vm_compute; discriminate).
  change (-53 + 51 + 0 - -2) with 0. change (-52 + 50 + 0 - -2) with 0.
  change (0 - -2) with 2.
  rewrite Z.pow_0_r. change (2 ^ 2) with 4.
  f_equal; [destruct (Z.leb_spec (3 * median * 1) (w * 4)),
                     (Z.leb_spec (3 * median) (4 * w)); try reflexivity; lia
           |destruct (Z.leb_spec (w * 4) (5 * median * 1)),
                     (Z.leb_spec (4 * w) (5 * median)); try reflexivity; lia].
Qed.

(* ================================================================== *)
(** * Reacquisition, termination and overflow *)
(* ================================================================== *)

(** ** The reset block against the words of the specification *)

Lemma skipn_nth (l : list Z) : forall j,
  (j < length l)%nat -> skipn j l = nth j l 0 :: skipn (S j) l.
Proof.
  induction l as [|a l IH]; intros [|j] H; simpl in *; try lia; auto.
  apply IH. lia.
Qed.

Lemma intervals_skipn (l : list Z) j :
  (S j < length l)%nat ->
  intervals (skipn j l) = (nth (S j) l 0 - nth j l 0) :: intervals (skipn (S j) l).
Proof.
  intros H. rewrite (skipn_nth l j) by lia. rewrite (skipn_nth l (S j)) by lia.
  reflexivity.
Qed.

Lemma intervals_skipn_end (l : list Z) j :
  (length l <= S j)%nat -> intervals (skipn j l) = [].
Proof.
  intros H. destruct (Nat.lt_ge_cases j (length l)) as [Hj | Hj].
  - rewrite (skipn_nth l j) by lia. rewrite skipn_all2 by lia. reflexivity.
  - rewrite skipn_all2 by lia. reflexivity.
Qed.

(** The intervals of a run of edges are differences of neighbours. *)
Lemma intervals_In (l : list Z) w : forall j,
  In w (intervals (skipn j l)) ->
  exists i, (S i < length l)%nat /\ w = nth (S i) l 0 - nth i l 0.
Proof.
  intros j. remember (length l - j)%nat as n eqn:En. revert j En.
  induction n as [|n IH]; intros j En H.
  - rewrite intervals_skipn_end in H by lia. destruct H.
  - destruct (Nat.le_gt_cases (length l) (S j)) as [Hj | Hj].
    + rewrite intervals_skipn_end in H by lia. destruct H.
    + rewrite intervals_skipn in H by lia. destruct H as [<- | H].
      * exists j. split; [lia | reflexivity].
      * apply (IH (S j)); [lia | exact H].
Qed.

Lemma collect_lengths_spec edges n : forall i nedge acc ls,
  (1 <= i)%nat ->
  collect_lengths edges n i nedge acc = Ok ls ->
  ls = acc ++ firstn n (intervals (skipn (nedge + i - 1) edges)).
Proof.
  induction n as [|n IH]; intros i nedge acc ls Hi H; cbn [collect_lengths] in H.
  - injection H as <-. now rewrite firstn_O, app_nil_r.
  - destruct (length edges <=? i + nedge)%nat eqn:E.
    + apply Nat.leb_le in E. injection H as <-.
      rewrite intervals_skipn_end by lia.
      now rewrite firstn_nil, app_nil_r.
    + apply Nat.leb_gt in E. int64_inv H. apply IH in H; [|lia]. subst ls.
      rewrite (intervals_skipn edges (nedge + i - 1)) by lia.
      replace (S (nedge + i - 1)) with (nedge + i)%nat by lia.
      replace (nedge + S i - 1)%nat with (nedge + i)%nat by lia.
      cbn [firstn]. now rewrite <- app_assoc.
Qed.

Lemma sum_near_spec median l : forall sum navg sum' navg',
  sum_near median l sum navg = Ok (sum', navg') ->
  sum' = sum + fold_right Z.add 0 (filter (near_median median) l) /\
  navg' = navg + Z.of_nat (length (filter (near_median median) l)).
Proof.
  induction l as [|w l IH]; intros sum navg sum' navg' H; cbn [sum_near filter] in *.
  - injection H as <- <-. cbn. lia.
  - destruct (near_median median w).
    + int64_inv H. apply IH in H as [-> ->]. cbn [fold_right length]. lia.
    + apply IH in H as [-> ->]. lia.
Qed.

Lemma In_firstn_In (w : Z) n : forall l, In w (firstn n l) -> In w l.
Proof.
  induction n as [|n IH]; intros [|a l] H; cbn [firstn] in H; try destruct H.
  - now left.
  - right. now apply IH.
Qed.

Lemma reacquire_spec edges st st' :
  (forall i, (S i < length edges)%nat ->
             1 <= nth (S i) edges 0 - nth i edges 0 < 2 ^ 50) ->
  reacquire edges st = Ok st' ->
  exists avg,
    spec_reacquired_period edges (g_nedge st) avg /\
    g_period st' = avg /\ g_initialPeriod st' = avg /\
    g_halfPeriod st' = idiv avg 2 /\
    g_edgepos st' = nth (g_nedge st) edges 0 + avg.
Proof.
  intros Hgap H. unfold reacquire in H. bind_inv H.
  apply collect_lengths_spec in E; [|lia]. cbn [app] in E.
  replace (g_nedge st + 1 - 1)%nat with (g_nedge st) in E by lia.
  set (sorted := std_sort a) in *.
  assert (Hperm : Permutation a sorted) by apply std_sort_perm.
  assert (Hrange : forall w, In w sorted -> 1 <= w < 2 ^ 50).
  { intros w Hw. apply (Permutation_in _ (Permutation_sym Hperm)) in Hw.
    rewrite E in Hw. apply In_firstn_In in Hw.
    apply intervals_In in Hw as (i & Hi & ->). now apply Hgap. }
  destruct (nth_error sorted (length sorted / 2)) as [median|] eqn:Em; [|discriminate].
  pose proof (Hrange _ (nth_error_In _ _ Em)) as Hmed.
  bind_inv H. destruct a0 as [sum navg].
  apply sum_near_spec in E0 as [-> ->]. rewrite !Z.add_0_l in H.
  assert (Hf : filter (near_median median) sorted
               = filter (within_25_percent median) sorted).
  { apply filter_ext_in. intros w Hw. apply near_median_exact; [exact Hmed|].
    specialize (Hrange w Hw). lia. }
  rewrite Hf in H.
  destruct (Z.of_nat (length (filter (within_25_percent median) sorted)) =? 0) eqn:En;
    [discriminate|].
  apply Z.eqb_neq in En. int64_inv H. injection H as <-.
  eexists. split; [|cbn [g_period g_initialPeriod g_halfPeriod g_edgepos]; auto].
  exists sorted, median. rewrite <- E.
  split; [exact Hperm|]. split; [apply std_sort_sorted|]. split; [exact Em|].
  cbv zeta. split; [|reflexivity].
  intros Hnil. rewrite Hnil in En. cbn in En. lia.
Qed.




(** ** The only undefined step is a signed overflow *)

Lemma only_overflow_ok {A} (a : A) : only_overflow (Ok a).
Proof. intros f H. discriminate. Qed.

Lemma only_overflow_int64 z : only_overflow (int64 z).
Proof.
  intros f H. destruct (int64_cases z) as [E | E]; rewrite E in H; congruence.
Qed.

Lemma only_overflow_bind {A B} (r : result A) (k : A -> result B) :
  only_overflow r -> (forall a, r = Ok a -> only_overflow (k a)) ->
  only_overflow (bind r k).
Proof.
  intros Hr Hk f H. destruct r as [a|f'|]; cbn [bind] in H.
  - exact (Hk a eq_refl f H).
  - injection H as <-. now apply Hr.
  - discriminate.
Qed.

(** Steps through a run of checked additions and subtractions. *)
Ltac only_overflow_steps :=
  repeat first
    [ apply only_overflow_ok
    | apply only_overflow_int64
    | apply only_overflow_bind; [apply only_overflow_int64 | intros ? _] ].

Section OverflowNoGating.
Variable edges : list Z.
Variables tend initialPeriod halfPeriod fnyquist : Z.

Lemma visit_nogating_only_overflow tnext st :
  only_overflow (visit_nogating edges initialPeriod halfPeriod fnyquist tnext st).
Proof.
  unfold visit_nogating. only_overflow_steps.
  destruct (negb _); only_overflow_steps.
  destruct (_ <? fnyquist); only_overflow_steps.
Qed.

Lemma edge_loop_nogating_only_overflow k center : forall tnext st,
  only_overflow
    (edge_loop_nogating edges initialPeriod halfPeriod fnyquist k center tnext st).
Proof.
  induction k as [|k IH]; intros tnext st; cbn [edge_loop_nogating];
    only_overflow_steps.
  destruct (_ && _); only_overflow_steps.
  apply only_overflow_bind; [apply visit_nogating_only_overflow|].
  intros r _. destruct (snd r); [only_overflow_steps | apply IH].
Qed.

Lemma body_nogating_only_overflow st :
  only_overflow (body_nogating edges initialPeriod halfPeriod fnyquist st).
Proof.
  unfold body_nogating.
  apply only_overflow_bind; [apply edge_loop_nogating_only_overflow|].
  intros st1 _. only_overflow_steps.
Qed.

Lemma for_nogating_only_overflow fuel : forall st,
  only_overflow (for_nogating edges tend initialPeriod halfPeriod fnyquist fuel st).
Proof.
  induction fuel as [|fuel IH]; intros st; cbn [for_nogating];
    destruct (cond_nogating _ _ _); try (intros f H; discriminate).
  apply only_overflow_bind; [apply body_nogating_only_overflow | intros; apply IH].
Qed.

Lemma InnerLoopWithNoGating_only_overflow fuel offsets :
  only_overflow
    (InnerLoopWithNoGating edges tend initialPeriod halfPeriod fnyquist fuel offsets).
Proof.
  unfold InnerLoopWithNoGating.
  apply only_overflow_bind; [apply for_nogating_only_overflow|].
  intros st _. only_overflow_steps.
Qed.
End OverflowNoGating.

Lemma sum_near_count median l : forall sum navg sum' navg',
  sum_near median l sum navg = Ok (sum', navg') ->
  navg <= navg' /\
  (forall w, In w l -> near_median median w = true -> navg < navg').
Proof.
  induction l as [|h l IH]; intros sum navg sum' navg' H; cbn [sum_near] in H.
  - injection H as <- <-. split; [lia | intros w []].
  - destruct (near_median median h) eqn:E.
    + int64_inv H. destruct (IH _ _ _ _ H) as [I1 I2].
      split; [lia|]. intros w _ _. lia.
    + destruct (IH _ _ _ _ H) as [I1 I2]. split; [exact I1|].
      intros w [-> | Hw] Hn; [congruence | now apply (I2 w)].
Qed.

Section OverflowGating.
Variable edges : list Z.
Variables tend fnyquist : Z.
Variable gate : gate_waveform.
Hypothesis edges_increasing : increasingb edges = true.
Hypothesis gate_nonempty : gate <> [].

Lemma collect_lengths_only_overflow n : forall i nedge acc,
  only_overflow (collect_lengths edges n i nedge acc).
Proof.
  induction n as [|n IH]; intros i nedge acc; cbn [collect_lengths];
    only_overflow_steps.
  destruct (_ <=? _)%nat; only_overflow_steps. apply IH.
Qed.

Lemma sum_near_only_overflow median l : forall sum navg,
  only_overflow (sum_near median l sum navg).
Proof.
  induction l as [|w l IH]; intros sum navg; cbn [sum_near]; only_overflow_steps.
  destruct (near_median median w); [|apply IH].
  only_overflow_steps. apply IH.
Qed.

Lemma collect_lengths_range n : forall i nedge acc ls,
  (1 <= i)%nat -> Forall (fun w => 1 <= w < 2 ^ 63) acc ->
  collect_lengths edges n i nedge acc = Ok ls ->
  Forall (fun w => 1 <= w < 2 ^ 63) ls.
Proof.
  induction n as [|n IH]; intros i nedge acc ls Hi Hacc H; cbn [collect_lengths] in H.
  - now injection H as <-.
  - destruct (length edges <=? i + nedge)%nat eqn:E; [now injection H as <-|].
    apply Nat.leb_gt in E. int64_inv H.
    apply IH in H; [exact H | lia |].
    apply Forall_app. split; [assumption|]. constructor; [|constructor].
    pose proof (increasingb_nth edges edges_increasing (nedge + i - 1)) as Hi'.
    replace (S (nedge + i - 1)) with (nedge + i)%nat in Hi' by lia.
    specialize (Hi' ltac:(lia)). lia.
Qed.

Lemma collect_lengths_length n : forall i nedge acc ls,
  collect_lengths edges n i nedge acc = Ok ls -> (length acc <= length ls)%nat.
Proof.
  induction n as [|n IH]; intros i nedge acc ls H; cbn [collect_lengths] in H.
  - injection H as <-. lia.
  - destruct (length edges <=? i + nedge)%nat; [injection H as <-; lia|].
    int64_inv H. apply IH in H. rewrite length_app in H. cbn [length] in H. lia.
Qed.

Lemma collect_lengths_nonempty n i nedge acc ls :
  (i + nedge < length edges)%nat ->
  collect_lengths edges (S n) i nedge acc = Ok ls -> (length acc < length ls)%nat.
Proof.
  intros Hn H. cbn [collect_lengths] in H.
  destruct (Nat.leb_spec (length edges) (i + nedge)); [lia|].
  int64_inv H. apply collect_lengths_length in H.
  rewrite length_app in H. cbn [length] in H. lia.
Qed.

(** The reset of the PLL finds at least one interval, whose median is
    near itself: neither the median nor the average is undefined. *)
Lemma reacquire_only_overflow st :
  (S (g_nedge st) < length edges)%nat -> only_overflow (reacquire edges st).
Proof.
  intros Hn. unfold reacquire.
  apply only_overflow_bind; [apply collect_lengths_only_overflow|].
  intros ls Hc.
  set (lengths := std_sort ls).
  assert (Hr : Forall (fun w => 1 <= w < 2 ^ 63) lengths).
  { apply std_sort_Forall. eapply collect_lengths_range; [| |exact Hc];
      [lia | constructor]. }
  assert (Hl : (1 <= length lengths)%nat).
  { unfold lengths. rewrite length_std_sort.
    pose proof (collect_lengths_nonempty 511 1 (g_nedge st) [] ls ltac:(lia) Hc) as H.
    cbn [length] in H. exact H. }
  destruct (nth_error lengths (length lengths / 2)) as [median|] eqn:Em.
  2:{ apply nth_error_None in Em.
      assert (length lengths / 2 < length lengths)%nat
        by (apply Nat.div_lt; lia). lia. }
  pose proof (nth_error_In _ _ Em) as Hin.
  rewrite Forall_forall in Hr.
  pose proof (near_median_self median (Hr _ Hin)) as Hs.
  apply only_overflow_bind; [apply sum_near_only_overflow|].
  intros [sum navg] Hsum.
  destruct (sum_near_count _ _ _ _ _ _ Hsum) as [_ Hcount].
  specialize (Hcount median Hin Hs).
  destruct (Z.eqb_spec navg 0); [lia|]. only_overflow_steps.
Qed.

Lemma gate_scan_only_overflow k was_gating : forall st,
  (S (g_nedge st) < length edges)%nat ->
  only_overflow (gate_scan edges gate k was_gating st).
Proof.
  induction k as [|k IH]; intros st Hn; cbn [gate_scan].
  all: destruct (lt_size_minus_1 _ _) eqn:Hc; [|apply only_overflow_ok].
  all: assert (Hlt : (S (g_igate st) < length gate)%nat)
      by (apply lt_size_minus_1_lt; [destruct gate; [congruence | simpl; lia] | exact Hc]).
  all: unfold GetOffsetScaled, GetDurationScaled, GetValue, gate_read.
  all: destruct (nth_error gate (g_igate st)) as [s|] eqn:Es;
    [|apply nth_error_None in Es; lia].
  all: cbn [bind].
  all: apply only_overflow_bind; [apply only_overflow_int64 | intros b _].
  all: destruct (g_edgepos st <? gs_offset s); [apply only_overflow_ok|].
  all: destruct (b <? g_edgepos st).
  all: try (intros f H; discriminate).
  all: try (apply IH; exact Hn).
  all: destruct (_ && _); [|apply only_overflow_ok].
  all: now apply reacquire_only_overflow.
Qed.

Lemma visit_gating_only_overflow tnext st :
  only_overflow (visit_gating edges fnyquist tnext st).
Proof.
  unfold visit_gating. destruct (negb (g_gating st)); only_overflow_steps.
  destruct (negb _); only_overflow_steps.
  destruct (_ <? fnyquist); only_overflow_steps.
Qed.

Lemma edge_loop_gating_only_overflow k center : forall tnext st,
  only_overflow (edge_loop_gating edges fnyquist k center tnext st).
Proof.
  induction k as [|k IH]; intros tnext st; cbn [edge_loop_gating];
    only_overflow_steps.
  destruct (_ && _); only_overflow_steps.
  apply only_overflow_bind; [apply visit_gating_only_overflow|].
  intros r _. destruct (snd r); [only_overflow_steps | apply IH].
Qed.

Lemma push_and_advance_only_overflow st : only_overflow (push_and_advance st).
Proof.
  unfold push_and_advance. apply only_overflow_bind.
  - destruct (g_gating st); only_overflow_steps.
  - intros pushed _. only_overflow_steps.
Qed.

Hypothesis edges_nonempty : edges <> [].

Lemma body_gating_only_overflow st :
  cond_gating edges tend st = true ->
  only_overflow (body_gating edges fnyquist gate st).
Proof.
  intros Hc. unfold cond_gating in Hc. apply andb_prop in Hc as [_ Hc].
  apply lt_size_minus_1_lt in Hc; [|now apply length_edges_pos].
  unfold body_gating.
  apply only_overflow_bind; [now apply gate_scan_only_overflow|].
  intros st1 _.
  apply only_overflow_bind; [apply edge_loop_gating_only_overflow|].
  intros st2 _. apply push_and_advance_only_overflow.
Qed.

Lemma for_gating_only_overflow fuel : forall st,
  only_overflow (for_gating edges tend fnyquist gate fuel st).
Proof.
  induction fuel as [|fuel IH]; intros st; cbn [for_gating];
    destruct (cond_gating _ _ _) eqn:Hc; try (intros f H; discriminate).
  apply only_overflow_bind; [now apply body_gating_only_overflow | intros; apply IH].
Qed.

Lemma InnerLoopWithGating_only_overflow fuel initialPeriod halfPeriod offsets :
  only_overflow
    (InnerLoopWithGating edges tend fnyquist gate fuel initialPeriod halfPeriod offsets).
Proof.
  unfold InnerLoopWithGating.
  destruct (initial_gating_ok gate gate_nonempty) as [b ->]. cbn [bind].
  apply only_overflow_bind; [apply for_gating_only_overflow|].
  intros st _. only_overflow_steps.
Qed.
End OverflowGating.




(** X18.  With timestamps less than a period below 2^63 the loop
    without a gate does not return: for the edges 2^63 - 1501,
    2^63 - 401 and 2^63 - 101 and a period of 1000 fs, the first sum
    [tnext + center] of line 446 already leaves the 64-bit range. *)
Theorem edges_near_max_overflow (fuel : nat) :
  InnerLoopWithNoGating edges_near_max (2 ^ 63 - 1) 1000 500 2 (S fuel) []
  = Fault SignedOverflow.
Proof.
  unfold InnerLoopWithNoGating. cbn [for_nogating].
  replace (cond_nogating _ _ _) with true by (vm_compute; reflexivity).
  replace (body_nogating _ _ _ _ _) with (@Fault nstate SignedOverflow)
    by (vm_compute; reflexivity).
  reflexivity.
Qed.
(* ================================================================== *)
(** * Further properties *)
(* ================================================================== *)

(** ** The two square wave fills, sample by sample *)

Lemma squarewave_seq n : forall s,
  squarewave n (Nat.even s) = map Nat.even (seq s n).
Proof.
  induction n as [|n IH]; intros s; cbn [squarewave seq map]; [reflexivity|].
  f_equal. rewrite <- IH. f_equal. now rewrite Nat.even_succ, <- Nat.negb_even.
Qed.

Lemma squarewave_odd_seq n : forall s,
  squarewave n (Nat.odd s) = map Nat.odd (seq s n).
Proof.
  induction n as [|n IH]; intros s; cbn [squarewave seq map]; [reflexivity|].
  f_equal. rewrite <- IH. f_equal. now rewrite Nat.odd_succ, <- Nat.negb_odd.
Qed.

Lemma blocks_seq q : forall k,
  concat (repeat filler q) = map Nat.odd (seq (32 * k) (32 * q)).
Proof.
  induction q as [|q IH]; intros k.
  - rewrite Nat.mul_0_r. reflexivity.
  - cbn [repeat concat].
    replace (32 * S q)%nat with (32 + 32 * q)%nat by lia.
    rewrite seq_app, map_app. f_equal.
    + rewrite <- squarewave_odd_seq.
      replace (Nat.odd (32 * k)) with false; [reflexivity|].
      symmetry. rewrite Nat.odd_mul. reflexivity.
    + replace (32 * k + 32)%nat with (32 * S k)%nat by lia. apply IH.
Qed.

Lemma length_block_end len : (block_end len <= len)%nat.
Proof. unfold block_end. lia. Qed.

Lemma block_end_eq len : block_end len = (32 * (len / 32))%nat.
Proof. unfold block_end. pose proof (Nat.div_mod_eq len 32). lia. Qed.

Lemma even_block_end len : Nat.even (block_end len) = true.
Proof. rewrite block_end_eq, Nat.even_mul. reflexivity. Qed.

Lemma FillSquarewaveGeneric_seq cap :
  m_samples (FillSquarewaveGeneric cap)
  = map Nat.even (seq 0 (length (m_offsets cap))).
Proof.
  rewrite FillSquarewaveGeneric_samples. apply (squarewave_seq _ 0%nat).
Qed.

Lemma FillSquarewaveAVX2_seq cap :
  let len := length (m_offsets cap) in
  m_samples (FillSquarewaveAVX2 cap)
  = map (fun i => if (i <? block_end len)%nat then Nat.odd i else Nat.even i)
        (seq 0 len).
Proof.
  intros len. rewrite FillSquarewaveAVX2_samples. fold len.
  pose proof (Nat.div_mod_eq len 32) as D.
  replace len with (block_end len + len mod 32)%nat at 3
    by (rewrite block_end_eq; lia).
  rewrite seq_app, map_app. cbn [Nat.add]. f_equal.
  - rewrite (blocks_seq _ 0%nat), Nat.mul_0_r, <- block_end_eq.
    apply map_ext_in. intros i Hi. apply in_seq in Hi.
    destruct (Nat.ltb_spec i (block_end len)); [reflexivity | lia].
  - rewrite <- (even_block_end len), squarewave_seq.
    apply map_ext_in. intros i Hi. apply in_seq in Hi.
    destruct (Nat.ltb_spec i (block_end len)); [lia | reflexivity].
Qed.

Lemma nth_error_map_seq {A} (f : nat -> A) n i :
  nth_error (map f (seq 0 n)) i = if (i <? n)%nat then Some (f i) else None.
Proof.
  destruct (Nat.ltb_spec i n) as [H | H].
  - rewrite nth_error_map, nth_error_seq.
    destruct (Nat.ltb_spec i n); [reflexivity | lia].
  - apply nth_error_None. rewrite length_map, length_seq. exact H.
Qed.

(** X1.  The scalar fill leaves the offsets alone and writes one sample
    per offset, [true] at the even indices and [false] at the odd ones,
    whatever the sample buffer held before. *)
Theorem FillSquarewaveGeneric_overwrites (cap : SparseDigitalWaveform) :
  FillSquarewaveGeneric cap
  = {| m_offsets := m_offsets cap;
       m_samples := map Nat.even (seq 0 (length (m_offsets cap))) |}.
Proof.
  rewrite <- FillSquarewaveGeneric_seq. reflexivity.
Qed.

(** X2.  The vector fill leaves the offsets alone and writes one sample
    per offset, whatever the buffer held before: below the block boundary
    [end = len - len % 32] the samples at the odd indices are [true],
    from the boundary on those at the even indices. *)
Theorem FillSquarewaveAVX2_overwrites (cap : SparseDigitalWaveform) :
  let len := length (m_offsets cap) in
  FillSquarewaveAVX2 cap
  = {| m_offsets := m_offsets cap;
       m_samples :=
         map (fun i => if (i <? block_end len)%nat then Nat.odd i else Nat.even i)
             (seq 0 len) |}.
Proof.
  intros len. unfold len. rewrite <- FillSquarewaveAVX2_seq.
  unfold FillSquarewaveAVX2. destruct (length (m_offsets cap)); reflexivity.
Qed.

(** X3.  The two fills differ at index [i] exactly when [i] lies below
    the block boundary of the vector fill: every sample written by a
    32-byte store is the opposite of the scalar one, every sample of the
    tail is the same. *)
Theorem fills_differ_below_block_end (cap : SparseDigitalWaveform) (i : nat) :
  nth_error (m_samples (FillSquarewaveAVX2 cap)) i
    <> nth_error (m_samples (FillSquarewaveGeneric cap)) i
  <-> (i < block_end (length (m_offsets cap)))%nat.
Proof.
  rewrite FillSquarewaveAVX2_seq, FillSquarewaveGeneric_seq, !nth_error_map_seq.
  pose proof (length_block_end (length (m_offsets cap))) as B.
  destruct (Nat.ltb_spec i (length (m_offsets cap))) as [L | L].
  - destruct (Nat.ltb_spec i (block_end (length (m_offsets cap)))) as [E | E].
    + split; [intros _; exact E|]. intros _ H. injection H as H.
      rewrite <- Nat.negb_even in H. now destruct (Nat.even i).
    + split; [intros H; now contradiction H | lia].
  - split; [intros H; now contradiction H | lia].
Qed.

(** ** The waveform [Refresh] hands over *)

Lemma length_fill (hasAvx2 : bool) (cap : SparseDigitalWaveform) :
  let cap' := if hasAvx2 then FillSquarewaveAVX2 cap else FillSquarewaveGeneric cap in
  m_offsets cap' = m_offsets cap /\
  length (m_samples cap') = length (m_offsets cap).
Proof.
  destruct hasAvx2; cbv zeta; split.
  - unfold FillSquarewaveAVX2. destruct (length (m_offsets cap)); reflexivity.
  - now rewrite FillSquarewaveAVX2_seq, length_map, length_seq.
  - reflexivity.
  - now rewrite FillSquarewaveGeneric_seq, length_map, length_seq.
Qed.

(** X4.  Every waveform [Refresh] sets as its output has exactly one
    sample per offset, on the scalar and on the vector path, with and
    without a gate. *)
Theorem Refresh_one_sample_per_offset
  (fuel : nat) (inputOK : bool) (din : input_waveform)
  (gate : option gate_waveform) (baud : f64) (hasAvx2 : bool)
  (cap : SparseDigitalWaveform) (log : list event) :
  Refresh fuel inputOK din gate baud hasAvx2 = Ok (Data cap, log) ->
  length (m_samples cap) = length (m_offsets cap).
Proof.
  unfold Refresh.
  destruct inputOK; cbn [negb]; [|discriminate].
  destruct (in_edges din) as [|e rest]; [discriminate|].
  destruct (_ <? _); [discriminate|].
  match goal with |- bind ?r _ = _ -> _ => destruct r as [[offs lg]| |] end;
    cbn [bind fst snd]; try discriminate.
  intros H. injection H as <- _.
  destruct (length_fill hasAvx2 {| m_offsets := offs; m_samples := [] |}) as [H1 H2].
  cbv zeta in H1, H2. rewrite H2, H1. reflexivity.
Qed.

Lemma Refresh_one_sample_per_offset_witness :
  length (m_samples {| m_offsets := [T0 + 30000; T0 + 90000]; m_samples := [true; false] |})
  = length (m_offsets {| m_offsets := [T0 + 30000; T0 + 90000]; m_samples := [true; false] |}).
Proof.
  apply (Refresh_one_sample_per_offset 10 true late_input None late_baud false _
           [EvPush (T0 + 30000); EvVisit (T0 + 1) false false; EvPush (T0 + 90000)]).
  vm_compute. reflexivity.
Defined.

(** X5.  With an input that passes [VerifyInputOK], has at least one
    edge and a nominal period at or above the Nyquist floor, [Refresh]
    sets a waveform without any sample, and the loop body never runs,
    when the input has at most two edges ([nedge = 1] is not below
    [edges.size() - 1]) or when its first edge is not before the time of
    its last sample. *)
Theorem Refresh_nothing_to_track
  (fuel : nat) (din : input_waveform)
  (gate : option gate_waveform) (baud : f64) (hasAvx2 : bool) :
  in_edges din <> [] ->
  2 * in_timescale din <= nominal_period baud ->
  (length (in_edges din) <= 2)%nat \/ in_tend din <= nth 0 (in_edges din) 0 ->
  Refresh fuel true din gate baud hasAvx2
  = Ok (Data {| m_offsets := []; m_samples := [] |}, []).
Proof.
  intros Hne Hp H. unfold Refresh. cbn [negb].
  destruct (in_edges din) as [|e rest] eqn:Ee; [congruence|].
  destruct (nominal_period baud <? 2 * in_timescale din) eqn:En;
    [apply Z.ltb_lt in En; lia|].
  assert (Hc : (nth 0 (e :: rest) 0 <? in_tend din)
               && lt_size_minus_1 1 (length (e :: rest)) = false).
  { destruct H as [H | H].
    - cbn [length lt_size_minus_1] in *.
      destruct (Nat.ltb_spec 1 (length rest)); [lia | apply andb_false_r].
    - destruct (Z.ltb_spec (nth 0 (e :: rest) 0) (in_tend din)); [lia | reflexivity]. }
  destruct gate as [g|].
  - unfold InnerLoopWithGating.
    assert (Hg : exists b, initial_gating g = Ok b).
    { destruct g as [|s g]; [now exists false | now exists (negb (gs_value s))]. }
    destruct Hg as [b ->]. cbn [bind].
    rewrite for_gating_done by exact Hc.
    cbn [bind fst snd init_gating g_offsets g_log]. now destruct hasAvx2.
  - unfold InnerLoopWithNoGating.
    rewrite for_nogating_done by exact Hc.
    cbn [bind fst snd init_nogating n_offsets n_log]. now destruct hasAvx2.
Qed.

Lemma Refresh_nothing_to_track_witness :
  Refresh 0 true {| in_timescale := 500; in_edges := [1000; 2000]; in_tend := 9000 |}
    (Some squelched_gate) (f64_lit (10 ^ 15) 1000) true
  = Ok (Data {| m_offsets := []; m_samples := [] |}, []).
Proof.
  apply Refresh_nothing_to_track.
  - discriminate.
  - vm_compute. discriminate.
  - left. simpl. lia.
Defined.

(** ** The oscillator without an edge in reach *)

Lemma periods_until_0 tend e p : 0 < p -> tend <= e -> periods_until tend e p = 0%nat.
Proof.
  intros Hp H. unfold periods_until.
  assert ((tend - e + p - 1) / p <= 0); [|lia].
  assert ((tend - e + p - 1) / p < 1); [|lia].
  apply Z.div_lt_upper_bound; lia.
Qed.

Lemma periods_until_S tend e p :
  0 < p -> e < tend -> periods_until tend e p = S (periods_until tend (e + p) p).
Proof.
  intros Hp H. unfold periods_until.
  replace (tend - e + p - 1) with (tend - (e + p) + p - 1 + 1 * p) by lia.
  rewrite Z.div_add by lia.
  assert (0 <= (tend - (e + p) + p - 1) / p) by (apply Z.div_pos; lia).
  lia.
Qed.

Section OpenLoop.
Variable edges : list Z.
Variables tend initialPeriod halfPeriod fnyquist : Z.
Hypothesis three_edges : (3 <= length edges)%nat.

Local Abbreviation body := (body_nogating edges initialPeriod halfPeriod fnyquist).
Local Abbreviation for_loop := (for_nogating edges tend initialPeriod halfPeriod fnyquist).

Local Abbreviation open_state := (open_state initialPeriod).

(** A pass that finds the next real edge no more than half a period
    behind visits nothing. *)
Lemma body_nogating_open e offsets log :
  e <= nth 1 edges 0 + idiv initialPeriod 2 ->
  - 2 ^ 63 <= nth 1 edges 0 + idiv initialPeriod 2 < 2 ^ 63 ->
  - 2 ^ 63 <= e + idiv initialPeriod 2 < 2 ^ 63 ->
  - 2 ^ 63 <= e + initialPeriod < 2 ^ 63 ->
  body (open_state e offsets log)
  = Ok (open_state (e + initialPeriod) (offsets ++ [e + idiv initialPeriod 2])
               (log ++ [EvPush (e + idiv initialPeriod 2)])).
Proof.
  intros He R1 R2 R3. unfold body_nogating, open_state.
  cbn [n_nedge n_edgepos n_iperiod].
  destruct (length edges - 1)%nat as [|k] eqn:Ek; [lia|].
  cbn [edge_loop_nogating n_edgepos n_nedge].
  rewrite (int64_in_range _ R1). cbn [bind].
  destruct (Z.ltb_spec (nth 1 edges 0 + idiv initialPeriod 2) e) as [L | L]; [lia|].
  cbn [andb bind n_edgepos n_iperiod].
  rewrite (int64_in_range _ R2). cbn [bind].
  rewrite (int64_in_range _ R3). reflexivity.
Qed.

Lemma cond_nogating_open e offsets log :
  e < tend -> cond_nogating edges tend (open_state e offsets log) = true.
Proof.
  intros He. unfold cond_nogating, open_state. cbn [n_edgepos n_nedge].
  destruct (Z.ltb_spec e tend); [|lia].
  destruct (length edges) as [|m] eqn:El; [reflexivity|].
  cbn [andb lt_size_minus_1]. apply Nat.ltb_lt. lia.
Qed.

Hypothesis period_pos : 0 < initialPeriod.
Hypothesis next_edge_ahead : tend <= nth 1 edges 0 + idiv initialPeriod 2 + 1.
Hypothesis next_edge_range :
  - 2 ^ 63 <= nth 1 edges 0 /\ nth 1 edges 0 + idiv initialPeriod 2 < 2 ^ 63.
Hypothesis tend_range : tend + initialPeriod <= 2 ^ 63.

Lemma for_nogating_open n : forall fuel e offsets log,
  - 2 ^ 63 <= e ->
  periods_until tend e initialPeriod = n -> (n <= fuel)%nat ->
  for_loop fuel (open_state e offsets log)
  = Ok (open_state (e + Z.of_nat n * initialPeriod)
          (offsets ++ free_running n e initialPeriod)
          (log ++ map EvPush (free_running n e initialPeriod))).
Proof.
  assert (Hc : 0 <= idiv initialPeriod 2 <= initialPeriod).
  { unfold idiv. pose proof (Z.quot_pos initialPeriod 2).
    pose proof (Z.quot_le_upper_bound initialPeriod 2 initialPeriod). lia. }
  induction n as [|n IH]; intros fuel e offsets log Hlo Hn Hf.
  - assert (He : tend <= e).
    { destruct (Z.lt_ge_cases e tend) as [L | L]; [|exact L].
      rewrite (periods_until_S _ _ _ period_pos L) in Hn. discriminate. }
    rewrite for_nogating_done.
    + cbn [free_running map]. rewrite !app_nil_r. f_equal. f_equal. lia.
    + unfold cond_nogating, open_state. cbn [n_edgepos].
      destruct (Z.ltb_spec e tend); [lia | reflexivity].
  - assert (He : e < tend).
    { destruct (Z.lt_ge_cases e tend) as [L | L]; [exact L|].
      rewrite (periods_until_0 _ _ _ period_pos L) in Hn. discriminate. }
    rewrite (periods_until_S _ _ _ period_pos He) in Hn. injection Hn as Hn.
    destruct fuel as [|fuel]; [lia|]. cbn [for_nogating].
    rewrite (cond_nogating_open _ _ _ He), body_nogating_open by lia.
    cbn [bind]. rewrite (IH fuel) by (try exact Hn; lia).
    cbn [free_running map]. rewrite <- !app_assoc. cbn [app].
    f_equal. f_equal. lia.
Qed.
End OpenLoop.

Lemma free_running_seq n : forall e p,
  free_running n e p = map (fun j => e + Z.of_nat j * p + idiv p 2) (seq 0 n).
Proof.
  induction n as [|n IH]; intros e p; cbn [free_running seq map]; [reflexivity|].
  f_equal; [lia|]. rewrite IH, <- seq_shift, map_map.
  apply map_ext. intros j. lia.
Qed.

(** X6.  The oscillator runs open loop as long as no real edge is in
    reach.  When the input has at least three edges and the second one
    lies at the end of the capture (no more than half a period before
    [tend]), and the first two edges and [tend] plus one period are
    64-bit values, the loop without a gate visits no edge: it emits one
    clock edge per nominal period, the first one half a period after the
    first input edge, until [tend] is reached. *)
Theorem open_loop_runs_at_the_nominal_period
  (edges : list Z) (tend initialPeriod halfPeriod fnyquist : Z)
  (fuel : nat) (offsets : list Z) :
  let e0 := nth 0 edges 0 in
  let n := periods_until tend e0 initialPeriod in
  let ticks := map (fun j => e0 + Z.of_nat j * initialPeriod + idiv initialPeriod 2)
                   (seq 0 n) in
  (3 <= length edges)%nat -> 0 < initialPeriod ->
  tend <= nth 1 edges 0 + idiv initialPeriod 2 + 1 ->
  - 2 ^ 63 <= e0 < 2 ^ 63 ->
  - 2 ^ 63 <= nth 1 edges 0 /\ nth 1 edges 0 + idiv initialPeriod 2 < 2 ^ 63 ->
  tend + initialPeriod <= 2 ^ 63 ->
  (n <= fuel)%nat ->
  InnerLoopWithNoGating edges tend initialPeriod halfPeriod fnyquist fuel offsets
  = Ok (offsets ++ ticks, map EvPush ticks).
Proof.
  intros e0 n ticks H3 Hp Ht He0 He1 Hte Hf. unfold InnerLoopWithNoGating.
  change (init_nogating edges initialPeriod offsets)
    with (open_state initialPeriod e0 offsets []).
  rewrite (for_nogating_open edges tend initialPeriod halfPeriod fnyquist H3 Hp Ht
             He1 Hte n)
    by (try reflexivity; try exact Hf; apply He0).
  cbn [bind open_state n_offsets n_log app].
  unfold ticks. now rewrite free_running_seq.
Qed.

Lemma open_loop_runs_at_the_nominal_period_witness :
  InnerLoopWithNoGating [0; 100000; 200000] 5000 1000 500 1000 5 []
  = Ok ([500; 1500; 2500; 3500; 4500],
        [EvPush 500; EvPush 1500; EvPush 2500; EvPush 3500; EvPush 4500]).
Proof.
  apply (open_loop_runs_at_the_nominal_period [0; 100000; 200000] 5000 1000 500 1000 5 []).
  - simpl. lia.
  - lia.
  - vm_compute. discriminate.
  - simpl. lia.
  - vm_compute. split; [discriminate | reflexivity].
  - lia.
  - vm_compute. lia.
Defined.

(** ** The phase error after wrapping *)



(** [halfPeriod] stays at half the nominal period while the period is
    corrected.  Once the period has grown to more than [2 * halfPeriod],
    a phase error between [halfPeriod] and [period - halfPeriod] is first
    lowered by a period and then raised by one again. *)
Lemma wrap_dphase_cancels (dphase halfPeriod period : Z) :
  halfPeriod < dphase < period - halfPeriod ->
  wrap_dphase dphase halfPeriod period = dphase.
Proof.
  intros Hd. unfold wrap_dphase.
  destruct (Z.ltb_spec halfPeriod dphase) as [H1 | H1]; [|lia].
  destruct (Z.ltb_spec (dphase - period) (- halfPeriod)) as [H2 | H2]; lia.
Qed.

(** ** The loop with a gate while it is gated *)

Section Gated.
Variable edges : list Z.
Variables tend fnyquist : Z.
Variable gate : gate_waveform.

Local Abbreviation edge_loop := (edge_loop_gating edges fnyquist).
Local Abbreviation body := (body_gating edges fnyquist gate).
Local Abbreviation scan := (gate_scan edges gate).

(** While gated, the edge loop only moves the edge cursor. *)
Lemma edge_loop_gating_gated k center st st' :
  g_gating st = true ->
  edge_loop k center (nth (g_nedge st) edges 0) st = Ok st' ->
  g_gating st' = true /\ g_offsets st' = g_offsets st /\
  g_period st' = g_period st /\ g_edgepos st' = g_edgepos st /\
  g_igate st' = g_igate st /\ pushes_of (g_log st') = pushes_of (g_log st).
Proof.
  intros Hg H. pattern st'.
  eapply (edge_loop_gating_rule edges fnyquist
    (fun s => g_gating s = true /\ g_offsets s = g_offsets st /\
              g_period s = g_period st /\ g_edgepos s = g_edgepos st /\
              g_igate s = g_igate st /\ pushes_of (g_log s) = pushes_of (g_log st)));
    [| | |exact H].
  - auto.
  - intros s r (H1 & H2 & H3 & H4 & H5 & H6) _ Hs.
    destruct Hs as [? _ | ? ? ? Hn | ? ? ? Hn]; try congruence.
    cbn [fst snd g_visit g_gating g_offsets g_period g_edgepos g_igate g_log].
    rewrite pushes_of_app. cbn [pushes_of]. rewrite app_nil_r. auto 10.
  - auto 10.
Qed.

(** The gate state after the scan is the state after the whole pass. *)
Lemma body_gating_scan st st' :
  body st = Ok st' ->
  exists st1, scan (length gate - g_igate st) (g_gating st) st = Ok st1 /\
              g_gating st' = g_gating st1.
Proof.
  intros Hb. apply body_gating_ok in Hb as (st1 & st2 & Hs & He & Hp).
  exists st1. split; [exact Hs|].
  apply edge_loop_gating_trace in He as (_ & <- & _).
  apply push_and_advance_ok in Hp as (_ & _ & ->). reflexivity.
Qed.

Lemma body_gating_gated st st' :
  body st = Ok st' -> g_gating st' = true ->
  g_offsets st' = g_offsets st /\ g_period st' = g_period st /\
  g_edgepos st' = g_edgepos st + g_period st /\
  pushes_of (g_log st') = pushes_of (g_log st).
Proof.
  intros Hb Hg.
  destruct (body_gating_scan st st' Hb) as (st1' & Hs' & Hg1).
  apply body_gating_ok in Hb as (st1 & st2 & Hs & He & Hp).
  rewrite Hs in Hs'. injection Hs' as <-.
  rewrite Hg in Hg1. symmetry in Hg1.
  destruct (edge_loop_gating_gated _ _ st1 st2 Hg1 He)
    as (G1 & G2 & G3 & G4 & G5 & G6).
  apply push_and_advance_ok in Hp as (_ & _ & ->).
  cbn [g_offsets g_period g_edgepos g_log].
  rewrite G1, G2, G3, G4, G6.
  apply gate_scan_cases in Hs.
  destruct Hs as [j Hj | j s Hj Hs Hn | j s st1 Hj Hs Hv Hw Hr].
  - cbn. auto.
  - cbn. auto.
  - apply reacquire_shape in Hr as (avg & ->). cbn in Hg1. discriminate.
Qed.

(** A gate without a high sample keeps the loop gated. *)
Lemma body_gating_stays_gated st st' :
  forallb (fun s => negb (gs_value s)) gate = true ->
  g_gating st = true -> body st = Ok st' -> g_gating st' = true.
Proof.
  intros Hlow Hg Hb.
  destruct (body_gating_scan st st' Hb) as (st1 & Hs & ->).
  apply gate_scan_cases in Hs.
  destruct Hs as [j Hj | j s Hj Hs Hn | j s st1 Hj Hs Hv Hw Hr].
  - exact Hg.
  - cbn. rewrite forallb_forall in Hlow.
    apply (Hlow s). eapply nth_error_In. exact Hs.
  - rewrite forallb_forall in Hlow.
    specialize (Hlow s (nth_error_In _ _ Hs)). rewrite Hv in Hlow. discriminate.
Qed.

Lemma for_gating_squelched fuel : forall st st',
  forallb (fun s => negb (gs_value s)) gate = true ->
  g_gating st = true ->
  for_gating edges tend fnyquist gate fuel st = Ok st' ->
  g_offsets st' = g_offsets st /\ pushes_of (g_log st') = pushes_of (g_log st).
Proof.
  intros st st' Hlow Hg H.
  apply (for_gating_rule edges tend fnyquist gate
    (fun s => g_gating s = true /\ g_offsets s = g_offsets st /\
              pushes_of (g_log s) = pushes_of (g_log st))) in H.
  - destruct H as ((_ & H1 & H2) & _). auto.
  - intros s s' (H1 & H2 & H3) _ Hb.
    pose proof (body_gating_stays_gated s s' Hlow H1 Hb) as G.
    destruct (body_gating_gated s s' Hb G) as (B1 & _ & _ & B4).
    repeat split; congruence.
  - auto.
Qed.
End Gated.

(** X8.  A pass through the body of the loop with a gate that ends gated
    appends no offset, leaves the period as it was and moves [edgepos]
    forward by exactly one period: while gated the oscillator runs on,
    silently and uncorrected. *)
Theorem gated_pass_is_silent
  (edges : list Z) (fnyquist : Z) (gate : gate_waveform) (st st' : gstate) :
  body_gating edges fnyquist gate st = Ok st' ->
  g_gating st' = true ->
  g_offsets st' = g_offsets st /\ g_period st' = g_period st /\
  g_edgepos st' = g_edgepos st + g_period st.
Proof.
  intros Hb Hg.
  destruct (body_gating_gated edges fnyquist gate st st' Hb Hg) as (H1 & H2 & H3 & _).
  auto.
Qed.

Lemma gated_pass_is_silent_witness :
  [77] = [77] /\ 1000 = 1000 /\ 3500 = 2500 + 1000.
Proof.
  apply (gated_pass_is_silent squelched_edges 1000 squelched_gate
    {| g_igate := 0; g_nedge := 1; g_edgepos := 2500; g_period := 1000;
       g_initialPeriod := 1000; g_halfPeriod := 500; g_gating := true;
       g_tlast := 0; g_total_error := 0; g_offsets := [77]; g_log := [] |}
    {| g_igate := 0; g_nedge := 2; g_edgepos := 3500; g_period := 1000;
       g_initialPeriod := 1000; g_halfPeriod := 500; g_gating := true;
       g_tlast := 1000; g_total_error := 0; g_offsets := [77];
       g_log := [EvVisit 1000 true false] |}).
  - vm_compute. reflexivity.
  - reflexivity.
Defined.

Lemma InnerLoopWithGating_squelched
  edges tend fnyquist gate fuel initialPeriod halfPeriod offsets offs log :
  forallb (fun s => negb (gs_value s)) gate = true ->
  InnerLoopWithGating edges tend fnyquist gate fuel initialPeriod halfPeriod offsets
  = Ok (offs, log) ->
  offs = offsets.
Proof.
  intros Hlow. unfold InnerLoopWithGating.
  destruct gate as [|s g].
  - cbn [initial_gating bind].
    destruct fuel as [|fuel]; cbn [for_gating];
      destruct (cond_gating _ _ _); cbn [bind]; try discriminate.
    + intros H. now injection H as <- _.
    + intros H. now injection H as <- _.
  - rewrite initial_gating_nonempty. cbn [bind].
    assert (Hs : gs_value s = false).
    { cbn [forallb] in Hlow. apply andb_prop in Hlow as [Hs _].
      now destruct (gs_value s). }
    rewrite Hs. cbn [negb].
    destruct (for_gating _ _ _ _ _ _) as [st'| |] eqn:E; cbn [bind]; try discriminate.
    intros H. injection H as <- _.
    now destruct (for_gating_squelched edges tend fnyquist (s :: g) fuel
                   (init_gating edges initialPeriod halfPeriod true offsets) st'
                   Hlow eq_refl E).
Qed.

(** X9.  A gate that is never high squelches the whole capture: the
    waveform [Refresh] sets has no sample. *)
Theorem Refresh_squelched_capture_is_empty
  (fuel : nat) (inputOK : bool) (din : input_waveform)
  (gate : gate_waveform) (baud : f64) (hasAvx2 : bool)
  (cap : SparseDigitalWaveform) (log : list event) :
  forallb (fun s => negb (gs_value s)) gate = true ->
  Refresh fuel inputOK din (Some gate) baud hasAvx2 = Ok (Data cap, log) ->
  cap = {| m_offsets := []; m_samples := [] |}.
Proof.
  intros Hlow. unfold Refresh.
  destruct inputOK; cbn [negb]; [|discriminate].
  destruct (in_edges din) as [|e rest]; [discriminate|].
  destruct (_ <? _); [discriminate|].
  destruct (InnerLoopWithGating _ _ _ _ _ _ _ _) as [[offs lg]| |] eqn:E;
    cbn [bind fst snd]; try discriminate.
  apply (InnerLoopWithGating_squelched _ _ _ _ _ _ _ _ _ _ Hlow) in E. subst offs.
  intros H. injection H as <- _. now destruct hasAvx2.
Qed.

Lemma Refresh_squelched_capture_is_empty_witness :
  {| m_offsets := []; m_samples := [] |} = {| m_offsets := []; m_samples := [] |}.
Proof.
  apply (Refresh_squelched_capture_is_empty 20 true
           {| in_timescale := 500; in_edges := squelched_edges; in_tend := 5000 |}
           squelched_gate (f64_lit (10 ^ 15) 1000) true _
           [EvVisit 1000 true false; EvVisit 2000 true false; EvVisit 3000 true false]).
  - reflexivity.
  - vm_compute. reflexivity.
Defined.

(** ** The last sample of the gate *)

Section LastGateSample.
Variable edges : list Z.
Variables tend fnyquist : Z.
Variable g : gate_waveform.
Variables s1 s2 : gate_sample.

Lemma gate_read_init {A} (f : gate_sample -> A) s i :
  lt_size_minus_1 i (length (g ++ [s])) = true ->
  gate_read f (g ++ [s]) i = gate_read f g i.
Proof.
  intros H. apply lt_size_minus_1_lt in H; [|rewrite length_app; simpl; lia].
  rewrite length_app in H. cbn [length] in H.
  unfold gate_read. rewrite nth_error_app1 by lia. reflexivity.
Qed.

Lemma gate_scan_last k was_gating : forall st,
  gate_scan edges (g ++ [s1]) k was_gating st
  = gate_scan edges (g ++ [s2]) k was_gating st.
Proof.
  assert (L : length (g ++ [s1]) = length (g ++ [s2])) by (now rewrite !length_app).
  induction k as [|k IH]; intros st; cbn [gate_scan]; rewrite <- L.
  all: destruct (lt_size_minus_1 _ _) eqn:Hc; [|reflexivity].
  all: unfold GetOffsetScaled, GetDurationScaled, GetValue.
  all: rewrite !(gate_read_init _ s1) by exact Hc.
  all: rewrite !(gate_read_init _ s2) by (rewrite <- L; exact Hc).
  all: try reflexivity.
  unfold bind. destruct (gate_read gs_offset g _); try reflexivity.
  destruct (gate_read gs_duration g _); try reflexivity.
  destruct (int64 _); try reflexivity.
  destruct (_ <? _); [reflexivity|]. destruct (_ <? _); [apply IH | reflexivity].
Qed.

Lemma for_gating_last fuel : forall st,
  for_gating edges tend fnyquist (g ++ [s1]) fuel st
  = for_gating edges tend fnyquist (g ++ [s2]) fuel st.
Proof.
  assert (L : length (g ++ [s1]) = length (g ++ [s2])) by (now rewrite !length_app).
  induction fuel as [|fuel IH]; intros st; cbn [for_gating]; [reflexivity|].
  destruct (cond_gating _ _ _); [|reflexivity].
  assert (B : body_gating edges fnyquist (g ++ [s1]) st
              = body_gating edges fnyquist (g ++ [s2]) st).
  { unfold body_gating. now rewrite L, gate_scan_last. }
  rewrite B. destruct (body_gating edges fnyquist (g ++ [s2]) st);
    cbn [bind]; try reflexivity. apply IH.
Qed.
End LastGateSample.

(** X10.  The last sample of a gate waveform with two samples or more is
    never looked at: the gate scan stops at [igate < gate->size()-1], so
    a run gives the same result whatever that sample is. *)
Theorem last_gate_sample_is_ignored
  (edges : list Z) (tend fnyquist : Z) (s0 : gate_sample) (g : gate_waveform)
  (s1 s2 : gate_sample) (fuel : nat) (initialPeriod halfPeriod : Z)
  (offsets : list Z) :
  InnerLoopWithGating edges tend fnyquist (s0 :: g ++ [s1]) fuel
    initialPeriod halfPeriod offsets
  = InnerLoopWithGating edges tend fnyquist (s0 :: g ++ [s2]) fuel
    initialPeriod halfPeriod offsets.
Proof.
  unfold InnerLoopWithGating. rewrite !initial_gating_nonempty. cbn [bind].
  now rewrite (for_gating_last edges tend fnyquist (s0 :: g) s1 s2).
Qed.

(** ** Rounding keeps the order with a value of the format *)

(** ** Running to completion *)

Lemma result_cases {A} (r : result A) :
  r <> OutOfFuel -> only_overflow r ->
  (exists a, r = Ok a) \/ r = Fault SignedOverflow.
Proof.
  intros H1 H2. destruct r as [a|f|]; [eauto | | congruence].
  right. now rewrite (H2 f eq_refl).
Qed.





(** ** Channel validation *)

(** X13.  [ValidateChannel] accepts a stream only on input 0 (the data)
    or input 1 (the gate).  An unconnected stream is accepted on the
    gate input only, and every connected stream that is accepted, on
    either input, is acceptable as the data input. *)
Theorem ValidateChannel_accepts (i : nat) (stream : StreamDescriptor) :
  ValidateChannel i stream = true ->
  (i < 2)%nat /\
  (m_channel stream = false -> i = 1%nat) /\
  (m_channel stream = true -> ValidateChannel 0 stream = true).
Proof.
  destruct i as [|[|i]]; cbn [ValidateChannel]; try discriminate.
  - destruct (m_channel stream); cbn [negb]; [|discriminate].
    intros H. repeat split; auto; discriminate.
  - destruct (m_channel stream); cbn [negb].
    + intros H. repeat split; try lia; try discriminate.
      intros _. rewrite H. apply orb_true_r.
    + intros _. repeat split; auto; discriminate.
Qed.

Lemma ValidateChannel_accepts_witness :
  (1 < 2)%nat /\
  (true = false -> 1%nat = 1%nat) /\
  (true = true ->
   ValidateChannel 0 {| m_channel := true; GetType := STREAM_TYPE_DIGITAL |} = true).
Proof.
  apply (ValidateChannel_accepts 1 {| m_channel := true; GetType := STREAM_TYPE_DIGITAL |}).
  reflexivity.
Defined.

(** ** The real edges the loops visit *)

Lemma visited_of_app l1 l2 : visited_of (l1 ++ l2) = visited_of l1 ++ visited_of l2.
Proof.
  induction l1 as [|[] l1 IH]; simpl; rewrite ?IH; reflexivity.
Qed.

Lemma firstn_S_tl (edges : list Z) m :
  (S (S m) <= length edges)%nat ->
  firstn (S m) (tl edges) = firstn m (tl edges) ++ [nth (S m) edges 0].
Proof.
  destruct edges as [|e0 t]; cbn [length tl]; intros H; [lia|].
  change (nth (S m) (e0 :: t) 0) with (nth m t 0).
  revert m H. induction t as [|a t IH]; intros m H; cbn [length] in H; [lia|].
  destruct m as [|m]; [reflexivity|].
  cbn [firstn nth app]. f_equal. apply IH. cbn [length]. lia.
Qed.

Section VisitOrder.
Variable edges : list Z.
Variables tend fnyquist : Z.
Hypothesis edges_nonempty : edges <> [].

Lemma edge_loop_nogating_order initialPeriod halfPeriod k center st m :
  visited_of (n_log st) = firstn m (tl edges) -> (m <= length edges - 2)%nat ->
  n_nedge st = S m ->
  forall st',
  edge_loop_nogating edges initialPeriod halfPeriod fnyquist k center
    (nth (n_nedge st) edges 0) st = Ok st' ->
  exists m', visited_of (n_log st') = firstn m' (tl edges) /\
             (m' <= length edges - 2)%nat /\
             (n_nedge st' = S m' \/ n_nedge st' = length edges).
Proof.
  intros Hv Hm Hn st' H. pattern st'.
  eapply (edge_loop_nogating_rule edges initialPeriod halfPeriod fnyquist
    (fun s => exists m', visited_of (n_log s) = firstn m' (tl edges) /\
                         (m' <= length edges - 2)%nat /\ n_nedge s = S m'));
    [| | |exact H].
  - intros s (m' & H1 & H2 & H3). exists m'. auto.
  - intros s r (m' & H1 & H2 & H3) Hc Hs.
    apply lt_size_minus_1_lt in Hc; [|now apply length_edges_pos].
    rewrite H3 in Hc.
    assert (Hv' : forall g c, visited_of (n_log s ++ [EvVisit (nth (n_nedge s) edges 0) g c])
                              = firstn (S m') (tl edges)).
    { intros g c. rewrite visited_of_app, H1, H3, firstn_S_tl by lia. reflexivity. }
    destruct Hs; cbn [fst snd n_log n_nedge].
    + exists (S m'). rewrite Hv'. repeat split; lia.
    + exists (S m'). rewrite Hv'. repeat split; lia.
    + exists (S m').
      change (n_log s ++ [EvVisit (nth (n_nedge s) edges 0) false true; EvNyquist])
        with (n_log s ++ [EvVisit (nth (n_nedge s) edges 0) false true] ++ [EvNyquist]).
      rewrite app_assoc, visited_of_app, Hv'. cbn [visited_of]. rewrite app_nil_r.
      repeat split; lia.
  - exists m. auto.
Qed.

Lemma InnerLoopWithNoGating_order initialPeriod halfPeriod fuel offsets offs log :
  InnerLoopWithNoGating edges tend initialPeriod halfPeriod fnyquist fuel offsets
  = Ok (offs, log) ->
  exists m, (m <= length edges - 2)%nat /\ visited_of log = firstn m (tl edges).
Proof.
  unfold InnerLoopWithNoGating, bind.
  destruct (for_nogating _ _ _ _ _ fuel _) as [st| |] eqn:E; try discriminate.
  intros H. injection H as _ <-.
  apply (for_nogating_rule edges tend initialPeriod halfPeriod fnyquist
    (fun s => exists m, visited_of (n_log s) = firstn m (tl edges) /\
                        (m <= length edges - 2)%nat /\
                        (cond_nogating edges tend s = true -> n_nedge s = S m))) in E.
  - destruct E as ((m & H1 & H2 & _) & _). exists m. auto.
  - intros s s' (m & H1 & H2 & H3) Hc Hb. specialize (H3 Hc).
    apply body_nogating_ok in Hb as (s1 & He & _ & _ & ->).
    destruct (edge_loop_nogating_order initialPeriod halfPeriod
                (length edges - n_nedge s) (idiv (n_iperiod s) 2) s m H1 H2 H3 s1 He)
      as (m' & V & M & N).
    exists m'. cbn [n_log n_nedge].
    rewrite visited_of_app, V. cbn [visited_of]. rewrite app_nil_r.
    split; [reflexivity|]. split; [exact M|].
    intros Hc'. destruct N as [N | N]; [exact N|].
    rewrite (cond_nogating_at_end edges tend edges_nonempty) in Hc'; [discriminate|].
    exact N.
  - exists 0%nat. cbn. repeat split; lia.
Qed.

Variable gate : gate_waveform.

Lemma edge_loop_gating_order k center st m :
  visited_of (g_log st) = firstn m (tl edges) -> (m <= length edges - 2)%nat ->
  g_nedge st = S m ->
  forall st',
  edge_loop_gating edges fnyquist k center (nth (g_nedge st) edges 0) st = Ok st' ->
  exists m', visited_of (g_log st') = firstn m' (tl edges) /\
             (m' <= length edges - 2)%nat /\
             (g_nedge st' = S m' \/ g_nedge st' = length edges).
Proof.
  intros Hv Hm Hn st' H. pattern st'.
  eapply (edge_loop_gating_rule edges fnyquist
    (fun s => exists m', visited_of (g_log s) = firstn m' (tl edges) /\
                         (m' <= length edges - 2)%nat /\ g_nedge s = S m'));
    [| | |exact H].
  - intros s (m' & H1 & H2 & H3). exists m'. auto.
  - intros s r (m' & H1 & H2 & H3) Hc Hs.
    rewrite H3 in Hc.
    assert (Hv' : forall g c, visited_of (g_log s ++ [EvVisit (nth (g_nedge s) edges 0) g c])
                              = firstn (S m') (tl edges)).
    { intros g c. rewrite visited_of_app, H1, H3, firstn_S_tl by lia. reflexivity. }
    destruct Hs; cbn [fst snd g_log g_nedge g_visit].
    + exists (S m'). rewrite Hv'. repeat split; lia.
    + exists (S m'). rewrite Hv'. repeat split; lia.
    + exists (S m').
      change (g_log s ++ [EvVisit (nth (g_nedge s) edges 0) false true; EvNyquist])
        with (g_log s ++ [EvVisit (nth (g_nedge s) edges 0) false true] ++ [EvNyquist]).
      rewrite app_assoc, visited_of_app, Hv'. cbn [visited_of]. rewrite app_nil_r.
      repeat split; lia.
  - exists m. auto.
Qed.

Lemma gate_scan_order k was_gating st st' :
  gate_scan edges gate k was_gating st = Ok st' ->
  visited_of (g_log st') = visited_of (g_log st) /\ g_nedge st' = g_nedge st.
Proof.
  intros H. apply gate_scan_cases in H.
  destruct H as [j Hj | j s Hj Hs Hn | j s st' Hj Hs Hv Hw Hr].
  - auto.
  - auto.
  - apply reacquire_shape in Hr as (avg & ->). cbn [g_log g_nedge g_set_gating g_set_igate].
    rewrite visited_of_app. cbn [visited_of]. rewrite app_nil_r. auto.
Qed.

Lemma InnerLoopWithGating_order initialPeriod halfPeriod fuel offsets offs log :
  InnerLoopWithGating edges tend fnyquist gate fuel initialPeriod halfPeriod offsets
  = Ok (offs, log) ->
  exists m, (m <= length edges - 2)%nat /\ visited_of log = firstn m (tl edges).
Proof.
  unfold InnerLoopWithGating, bind.
  destruct (initial_gating gate) as [gating| |]; try discriminate.
  destruct (for_gating _ _ _ _ fuel _) as [st| |] eqn:E; try discriminate.
  intros H. injection H as _ <-.
  apply (for_gating_rule edges tend fnyquist gate
    (fun s => exists m, visited_of (g_log s) = firstn m (tl edges) /\
                        (m <= length edges - 2)%nat /\
                        (cond_gating edges tend s = true -> g_nedge s = S m))) in E.
  - destruct E as ((m & H1 & H2 & _) & _). exists m. auto.
  - intros s s' (m & H1 & H2 & H3) Hc Hb. specialize (H3 Hc).
    apply body_gating_ok in Hb as (s1 & s2 & Hs & He & Hpa).
    apply gate_scan_order in Hs as [V1 N1].
    rewrite <- V1 in H1. rewrite <- N1 in H3.
    destruct (edge_loop_gating_order (length edges - g_nedge s1)
                (f32_of_int64 (idiv (g_period s) 2)) s1 m H1 H2 H3 s2 He)
      as (m' & V & M & N).
    apply push_and_advance_ok in Hpa as (_ & _ & ->).
    exists m'. cbn [g_log g_nedge].
    split.
    + destruct (g_gating _); [exact V|].
      rewrite visited_of_app, V. cbn [visited_of]. now rewrite app_nil_r.
    + split; [exact M|].
      intros Hc'. destruct N as [N | N]; [exact N|].
      rewrite (cond_gating_at_end edges tend edges_nonempty) in Hc'; [discriminate|].
      exact N.
  - exists 0%nat. cbn. repeat split; lia.
Qed.
End VisitOrder.

(** X14.  The loops visit the real edges in the order of the input, one
    after the other from the second edge on, and stop before the last:
    the edges visited in a run of [Refresh] are [edges[1]], ...,
    [edges[m]] for some [m <= edges.size() - 2].  The first edge only
    sets the start of the oscillator, the last edge is never visited. *)
Theorem Refresh_visits_edges_in_order
  (fuel : nat) (inputOK : bool) (din : input_waveform)
  (gate : option gate_waveform) (baud : f64) (hasAvx2 : bool)
  (out : output) (log : list event) :
  Refresh fuel inputOK din gate baud hasAvx2 = Ok (out, log) ->
  exists m, (m <= length (in_edges din) - 2)%nat /\
            visited_of log = firstn m (tl (in_edges din)).
Proof.
  unfold Refresh.
  destruct inputOK; cbn [negb].
  2:{ intros H. injection H as _ <-. exists 0%nat. split; [lia | reflexivity]. }
  destruct (in_edges din) as [|e rest] eqn:Ee.
  { intros H. injection H as _ <-. exists 0%nat. split; [lia | reflexivity]. }
  destruct (_ <? _).
  { intros H. injection H as _ <-. exists 0%nat. split; [lia | reflexivity]. }
  assert (Hne : e :: rest <> []) by discriminate.
  destruct gate as [g|].
  - destruct (InnerLoopWithGating _ _ _ _ _ _ _ _) as [[offs lg]| |] eqn:E;
      cbn [bind fst snd]; try discriminate.
    intros H. injection H as _ <-.
    exact (InnerLoopWithGating_order (e :: rest) (in_tend din) _ Hne g _ _ _ _ _ _ E).
  - destruct (InnerLoopWithNoGating _ _ _ _ _ _ _) as [[offs lg]| |] eqn:E;
      cbn [bind fst snd]; try discriminate.
    intros H. injection H as _ <-.
    exact (InnerLoopWithNoGating_order (e :: rest) (in_tend din) _ Hne _ _ _ _ _ _ E).
Qed.

Lemma Refresh_visits_edges_in_order_witness :
  exists m, (m <= length (in_edges late_input) - 2)%nat /\
            visited_of [EvPush (T0 + 30000); EvVisit (T0 + 1) false false;
                        EvPush (T0 + 90000)]
            = firstn m (tl (in_edges late_input)).
Proof.
  apply (Refresh_visits_edges_in_order 10 true late_input None late_baud false
           (Data {| m_offsets := [T0 + 30000; T0 + 90000]; m_samples := [true; false] |})).
  vm_compute. reflexivity.
Defined.

(** ** The first clock edge *)

Lemma for_nogating_appends edges tend initialPeriod halfPeriod fnyquist fuel st st' :
  for_nogating edges tend initialPeriod halfPeriod fnyquist fuel st = Ok st' ->
  exists rest, n_offsets st' = n_offsets st ++ rest.
Proof.
  intros H.
  apply (for_nogating_rule edges tend initialPeriod halfPeriod fnyquist
    (fun s => exists rest, n_offsets s = n_offsets st ++ rest)) in H.
  - now destruct H.
  - intros s s' [rest Hs] _ Hb.
    apply body_nogating_ok in Hb as (s1 & He & _ & _ & ->). cbn [n_offsets].
    apply edge_loop_nogating_trace in He as [-> _].
    rewrite Hs, <- app_assoc. eauto.
  - exists []. now rewrite app_nil_r.
Qed.

(** A pass of the open loop that went well stayed within 64 bits. *)
Lemma body_nogating_open_ok edges initialPeriod halfPeriod fnyquist e offsets log st' :
  (3 <= length edges)%nat ->
  e <= nth 1 edges 0 + idiv initialPeriod 2 ->
  body_nogating edges initialPeriod halfPeriod fnyquist
    (open_state initialPeriod e offsets log) = Ok st' ->
  - 2 ^ 63 <= e + idiv initialPeriod 2 < 2 ^ 63 /\
  st' = open_state initialPeriod (e + initialPeriod)
          (offsets ++ [e + idiv initialPeriod 2])
          (log ++ [EvPush (e + idiv initialPeriod 2)]).
Proof.
  intros H3 He Hb.
  assert (Hb' := Hb).
  apply body_nogating_ok in Hb' as (st1 & Hl & R2 & R3 & _).
  cbn [open_state n_nedge n_edgepos n_iperiod] in Hl, R2.
  destruct (length edges - 1)%nat as [|k] eqn:Ek; [lia|].
  cbn [edge_loop_nogating] in Hl. int64_inv Hl.
  cbn [open_state n_edgepos n_nedge] in Hl.
  destruct (Z.ltb_spec (nth 1 edges 0 + idiv initialPeriod 2) e) as [L | L]; [lia|].
  cbn [andb] in Hl. injection Hl as <-.
  cbn [n_edgepos n_iperiod] in R2, R3.
  rewrite (body_nogating_open edges initialPeriod halfPeriod fnyquist H3 e offsets log
             He R R2 R3) in Hb.
  injection Hb as <-. auto.
Qed.

Lemma InnerLoopWithNoGating_first_offset
  edges tend initialPeriod halfPeriod fnyquist fuel offsets offs log :
  (3 <= length edges)%nat ->
  nth 0 edges 0 < tend ->
  nth 0 edges 0 <= nth 1 edges 0 + idiv initialPeriod 2 ->
  InnerLoopWithNoGating edges tend initialPeriod halfPeriod fnyquist fuel offsets
  = Ok (offs, log) ->
  - 2 ^ 63 <= nth 0 edges 0 + idiv initialPeriod 2 < 2 ^ 63 /\
  exists rest, offs = offsets ++ (nth 0 edges 0 + idiv initialPeriod 2) :: rest.
Proof.
  intros H3 Ht He. unfold InnerLoopWithNoGating.
  change (init_nogating edges initialPeriod offsets)
    with (open_state initialPeriod (nth 0 edges 0) offsets []).
  destruct fuel as [|fuel]; cbn [for_nogating];
    rewrite (cond_nogating_open edges tend initialPeriod H3 _ _ _ Ht);
    [discriminate|].
  intros H. bind_inv H. bind_inv E.
  apply body_nogating_open_ok in E0 as [R ->]; [|exact H3 | exact He].
  injection H as <- _. split; [exact R|].
  apply for_nogating_appends in E as [rest E]. cbn [open_state n_offsets] in E.
  exists rest. rewrite E, <- app_assoc. reflexivity.
Qed.

(** X15.  The recovered clock starts a quarter of a cycle (90 degrees)
    after the data: without a gate, for an input of at least three edges whose
    first edge lies before the second and before the end of the capture,
    the first offset of the output waveform is the first input edge plus
    half the nominal period, and this sum is a 64-bit value ([Refresh]
    sets no output when it is not). *)
Theorem Refresh_first_clock_edge
  (fuel : nat) (din : input_waveform) (baud : f64) (hasAvx2 : bool)
  (cap : SparseDigitalWaveform) (log : list event) :
  let e0 := nth 0 (in_edges din) 0 in
  0 <= in_timescale din ->
  (3 <= length (in_edges din))%nat ->
  e0 < nth 1 (in_edges din) 0 -> e0 < in_tend din ->
  Refresh fuel true din None baud hasAvx2 = Ok (Data cap, log) ->
  nth_error (m_offsets cap) 0 = Some (e0 + idiv (nominal_period baud) 2) /\
  - 2 ^ 63 <= e0 + idiv (nominal_period baud) 2 < 2 ^ 63.
Proof.
  intros e0 Hts H3 H01 Ht. unfold Refresh. cbn [negb]. unfold e0 in *.
  destruct (in_edges din) as [|e rest] eqn:Ee; [discriminate|].
  destruct (Z.ltb_spec (nominal_period baud) (2 * in_timescale din)) as [L | L];
    [discriminate|].
  destruct (InnerLoopWithNoGating _ _ _ _ _ _ _) as [[offs lg]| |] eqn:E;
    cbn [bind fst snd]; try discriminate.
  apply InnerLoopWithNoGating_first_offset in E; try assumption.
  - destruct E as [R [tl ->]]. intros H. injection H as <- _.
    split; [|exact R].
    destruct hasAvx2.
    + unfold FillSquarewaveAVX2. cbn [m_offsets app length]. reflexivity.
    + reflexivity.
  - assert (0 <= idiv (nominal_period baud) 2); [|lia].
    unfold idiv. apply Z.quot_pos; lia.
Qed.

Lemma Refresh_first_clock_edge_witness :
  nth_error (m_offsets {| m_offsets := [T0 + 30000; T0 + 90000];
                          m_samples := [true; false] |}) 0
  = Some (nth 0 (in_edges late_input) 0 + idiv (nominal_period late_baud) 2) /\
  - 2 ^ 63 <= nth 0 (in_edges late_input) 0 + idiv (nominal_period late_baud) 2
    < 2 ^ 63.
Proof.
  apply (Refresh_first_clock_edge 10 late_input late_baud false _
           [EvPush (T0 + 30000); EvVisit (T0 + 1) false false; EvPush (T0 + 90000)]).
  - simpl. lia.
  - simpl. lia.
  - vm_compute. reflexivity.
  - vm_compute. reflexivity.
  - vm_compute. reflexivity.
Defined.

(** ** The period after a reset *)

Section Bounds.
Variable edges : list Z.
Variables lo hi : Z.
Hypothesis lo_nonneg : 0 <= lo.
Hypothesis gaps : forall i,
  (S i < length edges)%nat -> lo <= nth (S i) edges 0 - nth i edges 0 <= hi.

Lemma collect_lengths_gaps n : forall i nedge acc ls,
  (1 <= i)%nat -> Forall (fun w => lo <= w <= hi) acc ->
  collect_lengths edges n i nedge acc = Ok ls ->
  Forall (fun w => lo <= w <= hi) ls.
Proof.
  induction n as [|n IH]; intros i nedge acc ls Hi Hacc Hc;
    cbn [collect_lengths] in Hc; [now injection Hc as <-|].
  destruct (length edges <=? i + nedge)%nat eqn:E; [now injection Hc as <-|].
  apply Nat.leb_gt in E. int64_inv Hc. apply IH in Hc; [exact Hc | lia |].
  apply Forall_app. split; [assumption|]. constructor; [|constructor].
  pose proof (gaps (nedge + i - 1)) as H.
  replace (S (nedge + i - 1)) with (nedge + i)%nat in H by lia.
  apply H. lia.
Qed.

Lemma sum_near_gaps median l : forall sum navg sum' navg',
  Forall (fun w => lo <= w <= hi) l ->
  0 <= navg -> navg * lo <= sum <= navg * hi ->
  sum_near median l sum navg = Ok (sum', navg') ->
  0 <= navg' /\ navg' * lo <= sum' <= navg' * hi.
Proof.
  induction l as [|w l IH]; intros sum navg sum' navg' Hl Hn Hs H;
    cbn [sum_near] in H.
  - injection H as <- <-. auto.
  - inversion Hl; subst. destruct (near_median median w).
    + int64_inv H. apply IH in H; auto; lia.
    + apply IH in H; auto.
Qed.

Lemma reacquire_gaps st st' :
  reacquire edges st = Ok st' -> lo <= g_period st' <= hi.
Proof.
  unfold reacquire. intros H. bind_inv H.
  set (lengths := std_sort a) in *.
  assert (Hl : Forall (fun w => lo <= w <= hi) lengths).
  { apply std_sort_Forall. eapply collect_lengths_gaps; [| |exact E];
      [lia | constructor]. }
  destruct (nth_error lengths _) as [median|]; [|discriminate].
  bind_inv H. destruct a0 as [sum navg].
  pose proof (sum_near_gaps median lengths 0 0 sum navg Hl ltac:(lia) ltac:(lia) E0)
    as Hb.
  destruct (navg =? 0) eqn:En; [discriminate|]. apply Z.eqb_neq in En.
  int64_inv H. injection H as <-. cbn [g_period]. unfold idiv.
  rewrite Z.quot_div_nonneg by nia. split.
  - apply Z.div_le_lower_bound; lia.
  - apply Z.div_le_upper_bound; lia.
Qed.
End Bounds.

(** X16.  The period after a reset lies within the range of the pulse
    widths of the input: when every interval between consecutive edges
    is between [lo] and [hi], so is the period the loop continues with
    after the gate has opened.  For edges at a constant spacing the
    reset recovers that spacing exactly. *)
Theorem reacquired_period_within_pulse_widths
  (edges : list Z) (gate : gate_waveform) (k : nat) (st st' : gstate) (lo hi : Z) :
  0 <= lo ->
  (forall i, (S i < length edges)%nat ->
             lo <= nth (S i) edges 0 - nth i edges 0 <= hi) ->
  gate_scan edges gate k (g_gating st) st = Ok st' ->
  g_gating st = true -> g_gating st' = false ->
  lo <= g_period st' <= hi.
Proof.
  intros Hlo Hgaps H Hg Hg'. apply gate_scan_cases in H.
  destruct H as [j Hj | j s Hj Hs Hn | j s st' Hj Hs Hv Hw Hr].
  - cbn in Hg'. congruence.
  - cbn in Hg'. rewrite Hg, andb_true_r, negb_involutive in Hn.
    rewrite Hn in Hg'. discriminate.
  - exact (reacquire_gaps edges lo hi Hlo Hgaps _ _ Hr).
Qed.

Lemma reacquired_period_within_pulse_widths_witness :
  500 <= g_period ungated_state <= 500.
Proof.
  apply (reacquired_period_within_pulse_widths fast_edges opening_gate 3
           (init_gating fast_edges 1000 500 true []) ungated_state 500 500).
  - lia.
  - intros i Hi. do 5 (destruct i as [|i]; [simpl; lia|]). simpl in Hi. lia.
  - vm_compute. reflexivity.
  - reflexivity.
  - reflexivity.
Defined.

(** ** How often the PLL is reset *)

Lemma resets_of_app l1 l2 : resets_of (l1 ++ l2) = (resets_of l1 + resets_of l2)%nat.
Proof.
  induction l1 as [|[] l1 IH]; simpl; rewrite ?IH; reflexivity.
Qed.

Lemma potential_le_high l : forall g,
  (potential g l <= length (filter (fun v : bool => v) l))%nat.
Proof.
  induction l as [|v l IH]; intros g; cbn [potential filter length]; [lia|].
  specialize (IH (g || negb v)). destruct v, g; cbn [andb length] in *; lia.
Qed.

Section Resets.
Variable edges : list Z.
Variables tend fnyquist : Z.
Variable gate : gate_waveform.

Local Abbreviation pot := (reset_potential gate).

Lemma edge_loop_gating_resets k center st st' :
  edge_loop_gating edges fnyquist k center (nth (g_nedge st) edges 0) st = Ok st' ->
  resets_of (g_log st') = resets_of (g_log st) /\
  g_igate st' = g_igate st /\ g_gating st' = g_gating st.
Proof.
  intros H. pattern st'.
  eapply (edge_loop_gating_rule edges fnyquist
    (fun s => resets_of (g_log s) = resets_of (g_log st) /\
              g_igate s = g_igate st /\ g_gating s = g_gating st));
    [| | |exact H].
  - auto.
  - intros s r (H1 & H2 & H3) _ Hs.
    destruct Hs; cbn [fst snd g_visit g_log g_igate g_gating];
      rewrite resets_of_app; cbn [resets_of]; repeat split; try lia; congruence.
  - auto.
Qed.

Lemma gate_scan_resets k st st1 :
  gate_scan edges gate k (g_gating st) st = Ok st1 ->
  (resets_of (g_log st1) + pot st1 <= resets_of (g_log st) + pot st)%nat.
Proof.
  intros H. pose proof (gate_scan_cases _ _ _ _ _ _ H) as Hs.
  unfold reset_potential. rewrite <- !skipn_map.
  destruct Hs as [j Hj | j s Hj Hs Hn | j s st' Hj Hs Hv Hw Hr].
  - cbn. pose proof (potential_skip (g_gating st) (map gs_value gate) _ _ Hj). lia.
  - cbn.
    assert (E : nth_error (map gs_value gate) j = Some (gs_value s))
      by (rewrite nth_error_map, Hs; reflexivity).
    destruct (potential_aligned (g_gating st) _ _ _ E) as [H1 _].
    pose proof (potential_skip (g_gating st) (map gs_value gate) _ _ Hj). lia.
  - apply reacquire_shape in Hr as (avg & ->).
    cbn [g_nedge g_igate g_gating g_log g_set_gating g_set_igate] in *.
    rewrite resets_of_app. cbn [resets_of].
    assert (E : nth_error (map gs_value gate) j = Some (gs_value s))
      by (rewrite nth_error_map, Hs; reflexivity).
    destruct (potential_aligned (g_gating st) _ _ _ E) as [_ H2].
    specialize (H2 Hv Hw). rewrite Hv in H2. cbn [negb] in H2.
    pose proof (potential_skip (g_gating st) (map gs_value gate) _ _ Hj). lia.
Qed.

Lemma body_gating_resets st st' :
  body_gating edges fnyquist gate st = Ok st' ->
  (resets_of (g_log st') + pot st' <= resets_of (g_log st) + pot st)%nat.
Proof.
  intros Hb. apply body_gating_ok in Hb as (st1 & st2 & Hs & He & Hp).
  apply gate_scan_resets in Hs.
  destruct (edge_loop_gating_resets _ _ st1 st2 He) as (R & I & G).
  apply push_and_advance_ok in Hp as (_ & _ & ->).
  assert (Hpot : forall e o l,
    pot {| g_igate := g_igate st2; g_nedge := g_nedge st2; g_edgepos := e;
           g_period := g_period st2; g_initialPeriod := g_initialPeriod st2;
           g_halfPeriod := g_halfPeriod st2; g_gating := g_gating st2;
           g_tlast := g_tlast st2; g_total_error := g_total_error st2;
           g_offsets := o; g_log := l |} = pot st1).
  { intros e o l. unfold reset_potential. cbn [g_gating g_igate]. now rewrite I, G. }
  rewrite Hpot. cbn [g_log].
  destruct (g_gating st2); [lia|].
  rewrite resets_of_app. cbn [resets_of]. lia.
Qed.

Lemma initial_potential gating :
  initial_gating gate = Ok gating ->
  potential gating (map gs_value gate) = potential false (map gs_value gate).
Proof.
  destruct gate as [|s g]; cbn [initial_gating].
  - intros H. now injection H as <-.
  - unfold GetValue, gate_read, bind. cbn [nth_error]. intros H. injection H as <-.
    cbn [map potential]. now destruct (gs_value s).
Qed.

Lemma InnerLoopWithGating_resets fuel initialPeriod halfPeriod offsets offs log :
  InnerLoopWithGating edges tend fnyquist gate fuel initialPeriod halfPeriod offsets
  = Ok (offs, log) ->
  (resets_of log <= potential false (map gs_value gate))%nat.
Proof.
  unfold InnerLoopWithGating, bind.
  destruct (initial_gating gate) as [gating| |] eqn:Hg; try discriminate.
  destruct (for_gating _ _ _ _ fuel _) as [st| |] eqn:E; try discriminate.
  intros H. injection H as _ <-.
  set (st0 := init_gating edges initialPeriod halfPeriod gating offsets) in *.
  apply (for_gating_rule edges tend fnyquist gate
    (fun s => (resets_of (g_log s) + pot s <= pot st0)%nat)) in E.
  - destruct E as [E _].
    unfold reset_potential, st0 in E. cbn [g_igate g_gating skipn init_gating] in E.
    rewrite (initial_potential gating Hg) in E. lia.
  - intros s s' Hs _ Hb. apply body_gating_resets in Hb. lia.
  - cbn. lia.
Qed.
End Resets.

Lemma length_filter_map_id (gate : gate_waveform) :
  length (filter (fun v : bool => v) (map gs_value gate))
  = length (filter gs_value gate).
Proof.
  induction gate as [|s g IH]; cbn [map filter]; [reflexivity|].
  destruct (gs_value s); cbn [length]; now rewrite IH.
Qed.

(** X17.  The PLL is reset at most once per high sample of the gate that
    follows a low one: in a run of [Refresh] with a gate, the number of
    resets ("CDR ungated") is at most [potential false] of the gate
    values, the number of true values that come after a false one, and
    so at most the number of gate samples whose value is true. *)
Theorem resets_bounded_by_high_gate_samples
  (fuel : nat) (inputOK : bool) (din : input_waveform)
  (gate : gate_waveform) (baud : f64) (hasAvx2 : bool)
  (out : output) (log : list event) :
  Refresh fuel inputOK din (Some gate) baud hasAvx2 = Ok (out, log) ->
  (resets_of log <= potential false (map gs_value gate))%nat /\
  (resets_of log <= length (filter gs_value gate))%nat.
Proof.
  intros H.
  assert (B : (resets_of log <= potential false (map gs_value gate))%nat).
  { revert H. unfold Refresh.
    destruct inputOK; cbn [negb].
    2:{ intros H. injection H as _ <-. cbn. lia. }
    destruct (in_edges din) as [|e rest] eqn:Ee.
    { intros H. injection H as _ <-. cbn. lia. }
    destruct (_ <? _).
    { intros H. injection H as _ <-. cbn. lia. }
    destruct (InnerLoopWithGating _ _ _ _ _ _ _ _) as [[offs lg]| |] eqn:E;
      cbn [bind fst snd]; try discriminate.
    intros H. injection H as _ <-.
    exact (InnerLoopWithGating_resets _ _ _ _ _ _ _ _ _ _ E). }
  split; [exact B|].
  pose proof (potential_le_high (map gs_value gate) false).
  rewrite length_filter_map_id in *. lia.
Qed.

Lemma resets_bounded_by_high_gate_samples_witness :
  (resets_of [EvUngated 500 2000; EvPush 2250; EvVisit 1500 false false;
              EvVisit 2000 false true; EvNyquist; EvPush 2751]
   <= potential false (map gs_value opening_gate))%nat /\
  (resets_of [EvUngated 500 2000; EvPush 2250; EvVisit 1500 false false;
              EvVisit 2000 false true; EvNyquist; EvPush 2751]
   <= length (filter gs_value opening_gate))%nat.
Proof.
  apply (resets_bounded_by_high_gate_samples 10 true
           {| in_timescale := 500; in_edges := fast_edges; in_tend := 3500 |}
           opening_gate (f64_lit (10 ^ 15) 1000) false
           (Data {| m_offsets := [2250; 2751]; m_samples := [true; false] |})).
  vm_compute. reflexivity.
Defined.

